(** * The caching proxy, the segregated-fit allocator and the cache
    simulator

    A shallow embedding of parts of the repository and the properties
    proved of them:

    - [Cache]: the LRU object cache of the proxy ([web_data.c],
      [vector.c], [cache.c]);
    - [Proxy]: the header rewriting of [proxy.c] ([client_to_web],
      [send_proxyheaders] and the strings they use), the parsing of the
      request URI ([get_website], [get_uri_info]) and the two functions
      that move a response ([web_to_client], [cache_to_client]);
    - [Mm]: the allocator [mm.c] (block accessors, bin directory,
      placement, wilderness, [malloc], [free], [realloc], [calloc]);
    - [Gate]: the worker threads of [proxy.c] around the shared cache
      ([retrieve_cache], the insert of [web_to_client]), as interleavings
      of their statements;
    - [Csim]: the loop of the cache simulator [csim] over a trace.

    C [int]s, [uint32_t]s and [size_t]s are integers of [Z]; where the
    source relies on unsigned wrap-around the reduction modulo [2^32] or
    [2^64] is written out.  Pointers into the heap are word offsets from
    [heapStart]; a pointer that may be [NULL] is an [option].  A function
    that can abort the process (a failed [assert], a write through [NULL])
    returns an [option], [None] being the abort. *)

From Stdlib Require Import ZArith Lia Ascii String.
From Stdlib.Strings Require Import Byte.
From stdpp Require Import base option list gmap strings.

Local Open Scope Z_scope.

(** ** The object cache *)

Module Cache.

(** [cache.h], [proxy.c] *)
Definition MAX_CACHE_SIZE : Z := 1049000.
Definition MAX_OBJECT_SIZE : Z := 102400.

(** [struct web_data_hdr].  [data] holds the [data_size] bytes copied by
    [web_data_new]; [acc_time] is the last value read from [clock ()]. *)
Record web_data := mk_web_data {
  website : string;
  file : string;
  port : Z;
  data : list byte;
  data_size : Z;
  acc_time : Z
}.

(** [web_data_update_acc_time]: [w->acc_time = clock ()].  The reading of
    the clock is the argument [now]. *)
Definition web_data_update_acc_time (now : Z) (w : web_data) : web_data :=
  {| website := website w; file := file w; port := port w;
     data := data w; data_size := data_size w; acc_time := now |}.

(** [web_data_new]: copies the two strings and the first [dataSize] bytes
    of [data], then stamps the entry.  [dataSize] is a byte count: with a
    negative one the [malloc] and [memcpy] of the source fault, so the
    statements that say an insert returns take [0 <= dataSize]. *)
Definition web_data_new (now : Z) (website file : string) (port : Z)
    (data : list byte) (dataSize : Z) : web_data :=
  web_data_update_acc_time now
    {| website := website; file := file; port := port;
       data := take (Z.to_nat dataSize) data; data_size := dataSize;
       acc_time := 0 |}.

(** [web_data_equals]: a [NULL] string never matches; otherwise both
    [strcmp]s are [0] and the ports are equal. *)
Definition web_data_equals (w : web_data) (website file : option string)
    (port : Z) : bool :=
  match website, file with
  | None, _ => false
  | _, None => false
  | Some s, Some f =>
      String.eqb (Cache.website w) s && String.eqb (Cache.file w) f
      && (Cache.port w =? port)
  end.

(** [struct vector_header]: [arr] lists the [V->size] live slots, so
    [V->size] is [length (arr V)]. *)
Record vector := mk_vector {
  arr : list web_data;
  capacity : Z
}.

Definition vsize (V : vector) : Z := Z.of_nat (length (arr V)).

Definition vector_new : vector := {| arr := []; capacity := 5 |}.

(** The loop of [vector_get] over the slots [i], [i+1], ...: the first
    matching entry is stamped in place and returned. *)
Fixpoint vector_get_loop (now : Z) (l : list web_data)
    (website file : option string) (port : Z)
    : list web_data * option web_data :=
  match l with
  | [] => ([], None)
  | w :: rest =>
      if web_data_equals w website file port then
        (web_data_update_acc_time now w :: rest,
         Some (web_data_update_acc_time now w))
      else
        let '(rest', r) := vector_get_loop now rest website file port in
        (w :: rest', r)
  end.

Definition vector_get (now : Z) (V : vector) (website file : option string)
    (port : Z) : vector * option web_data :=
  let '(l, r) := vector_get_loop now (arr V) website file port in
  ({| arr := l; capacity := capacity V |}, r).

(** [vector_pop]: both assertions must hold; the slots after [index] move
    one place down. *)
Definition vector_pop (V : vector) (index : Z) : option vector :=
  if (0 <=? index) && (index <? vsize V) then
    Some {| arr := delete (Z.to_nat index) (arr V); capacity := capacity V |}
  else None.

Definition acc_at (l : list web_data) (i : nat) : Z :=
  from_option acc_time 0 (l !! i).

(** The [for] loop of [vector_find_LRU]: [n] slots remain, [i] is the
    loop index. *)
Fixpoint find_LRU_loop (l : list web_data) (n i best_index : nat) : nat :=
  match n with
  | O => best_index
  | S n' =>
      if acc_at l i <? acc_at l best_index
      then find_LRU_loop l n' (S i) i
      else find_LRU_loop l n' (S i) best_index
  end.

(** [vector_find_LRU]: [None] is the failed [assert (V->size > 0)]. *)
Definition vector_find_LRU (V : vector) : option nat :=
  if 0 <? vsize V then Some (find_LRU_loop (arr V) (length (arr V) - 1) 1 0)
  else None.

(** [vector_evict_LRU]: the size of the evicted data and the vector
    without that entry. *)
Definition vector_evict_LRU (V : vector) : option (Z * vector) :=
  if 0 <? vsize V then
    match vector_find_LRU V with
    | None => None
    | Some index =>
        let size := from_option data_size 0 (arr V !! index) in
        match vector_pop V (Z.of_nat index) with
        | None => None
        | Some V' => Some (size, V')
        end
    end
  else None.

Definition vector_resize (V : vector) : vector :=
  {| arr := arr V; capacity := capacity V * 2 |}.

Definition vector_push_back (V : vector) (w : web_data) : vector :=
  let V1 := if vsize V =? capacity V then vector_resize V else V in
  {| arr := arr V1 ++ [w]; capacity := capacity V1 |}.

(** [struct cache_header] *)
Record cache := mk_cache {
  items : vector;
  c_size : Z
}.

Definition cache_new : cache := {| items := vector_new; c_size := 0 |}.

(** [cache_get]: the data and its size on a hit, [NULL] and [0] on a
    miss. *)
Definition cache_get (now : Z) (C : cache) (website file : option string)
    (port : Z) : cache * option (list byte * Z) :=
  let '(V, r) := vector_get now (items C) website file port in
  ({| items := V; c_size := c_size C |},
   match r with
   | Some w => Some (data w, data_size w)
   | None => None
   end).

(** The [while] loop of [cache_insert].  Every round removes one entry, so
    [n] counts the entries left; at [0] the vector is empty and the
    assertion of [vector_evict_LRU] fails. *)
Fixpoint evict_loop (n : nat) (V : vector) (size dataSize : Z)
    : option (vector * Z) :=
  if size + dataSize >? MAX_CACHE_SIZE then
    match n with
    | O => None
    | S n' =>
        match vector_evict_LRU V with
        | None => None
        | Some (freed, V') => evict_loop n' V' (size - freed) dataSize
        end
    end
  else Some (V, size).

(** [cache_insert]; [None] when an assertion aborts the process. *)
Definition cache_insert (now : Z) (C : cache) (website file : string)
    (port : Z) (data : list byte) (dataSize : Z) : option cache :=
  let w := web_data_new now website file port data dataSize in
  match evict_loop (length (arr (items C))) (items C) (c_size C) dataSize with
  | None => None
  | Some (V, size) =>
      Some {| items := vector_push_back V w; c_size := size + dataSize |}
  end.

(** A client of the cache: lookups and inserts, each with the reading of
    the clock it observes. *)
Inductive op :=
  | Lookup (now : Z) (website file : option string) (port : Z)
  | Insert (now : Z) (website file : string) (port : Z)
      (data : list byte) (dataSize : Z).

Definition step (C : cache) (o : op) : option cache :=
  match o with
  | Lookup now website file port =>
      Some (fst (cache_get now C website file port))
  | Insert now website file port data dataSize =>
      cache_insert now C website file port data dataSize
  end.

Fixpoint run (C : cache) (ops : list op) : option cache :=
  match ops with
  | [] => Some C
  | o :: ops' =>
      match step C o with
      | None => None
      | Some C' => run C' ops'
      end
  end.

(** *** Vocabulary of the statements *)

(** The sum of the sizes of the cached objects. *)
Definition total_size (l : list web_data) : Z :=
  foldr (fun w acc => data_size w + acc) 0 l.

(** The first entry of [l] that [web_data_equals] accepts. *)
Fixpoint find_entry (l : list web_data) (website file : option string)
    (port : Z) : option web_data :=
  match l with
  | [] => None
  | w :: rest =>
      if web_data_equals w website file port then Some w
      else find_entry rest website file port
  end.

(** Invariant of the scan of [vector_find_LRU]: [best] is the first slot
    of least access time among the slots before [i]. *)
Definition first_min_upto (l : list web_data) (i best : nat) : Prop :=
  (best < i)%nat ∧
  (∀ j, (j < i)%nat → acc_at l best ≤ acc_at l j) ∧
  (∀ j, (j < best)%nat → acc_at l best < acc_at l j).

(** Slot [i] holds [w], no entry is older than [w], and every entry before
    slot [i] is strictly younger. *)
Definition is_LRU (l : list web_data) (i : nat) (w : web_data) : Prop :=
  l !! i = Some w ∧
  (∀ j w', l !! j = Some w' → acc_time w ≤ acc_time w') ∧
  (∀ j w', (j < i)%nat → l !! j = Some w' → acc_time w < acc_time w').

(** Making room for [dataSize] bytes, as the specification words it: while
    the total plus [dataSize] exceeds the budget, the least recently used
    entry (the first one among equals) leaves and its size is subtracted. *)
Inductive makes_room (dataSize : Z) : vector * Z → vector * Z → Prop :=
  | makes_room_fit V size :
      size + dataSize ≤ MAX_CACHE_SIZE →
      makes_room dataSize (V, size) (V, size)
  | makes_room_evict V size i w r :
      size + dataSize > MAX_CACHE_SIZE →
      is_LRU (arr V) i w →
      makes_room dataSize
        ({| arr := delete i (arr V); capacity := capacity V |},
         size - data_size w) r →
      makes_room dataSize (V, size) r.

(** The invariant of the cache. *)
Definition cache_inv (C : cache) : Prop :=
  c_size C = total_size (arr (items C)) ∧
  Forall (λ w, 0 ≤ data_size w) (arr (items C)) ∧
  total_size (arr (items C)) ≤ MAX_CACHE_SIZE.

Definition op_fits (o : op) : Prop :=
  match o with
  | Lookup _ _ _ _ => True
  | Insert _ _ _ _ _ dataSize => 0 ≤ dataSize ≤ MAX_CACHE_SIZE
  end.

(** No insert of [ops], run from [C], has to evict. *)
Fixpoint no_evictions (C : cache) (ops : list op) : Prop :=
  match ops with
  | [] => True
  | o :: ops' =>
      match o with
      | Lookup _ _ _ _ => True
      | Insert _ _ _ _ _ dataSize => c_size C + dataSize ≤ MAX_CACHE_SIZE
      end ∧
      match step C o with
      | Some C' => no_evictions C' ops'
      | None => True
      end
  end.

(** Objects as in the scenario of [test.c]: 500000 equal bytes. *)
Definition BIG : Z := 500000.
Definition large_string (b : byte) : list byte := replicate (Z.to_nat BIG) b.

Definition google : string := "www.google.com".
Definition youtube : string := "www.youtube.com".

(** google.com and youtube.com cached at ticks 1 and 2. *)
Definition two_sites : cache :=
  {| items := {| arr := [web_data_new 1 google "/" 80 (large_string x31) BIG;
                         web_data_new 2 youtube "/" 80 (large_string x31) BIG];
                 capacity := 5 |};
     c_size := 2 * BIG |}.

(** google.com alone, cached at tick 1. *)
Definition one_site : cache :=
  {| items := {| arr := [web_data_new 1 google "/" 80 (large_string x31) BIG];
                 capacity := 5 |};
     c_size := BIG |}.

Definition test_ops : list op :=
  [ Lookup 0 (Some google) (Some "/"%string) 80;
    Insert 1 google "/" 80 (large_string x31) BIG;
    Lookup 2 (Some google) (Some "/"%string) 80;
    Insert 3 youtube "/" 80 (large_string x31) BIG;
    Insert 4 "www.youtube2.com" "/" 80 (large_string x31) BIG ].

(** The array of a vector is large enough for its entries, and never
    smaller than at [vector_new]. *)
Definition vec_inv (V : vector) : Prop :=
  vsize V ≤ capacity V ∧ 5 ≤ capacity V.

(** The array in which [vector_push_back] writes slot [V->size]: the one
    [vector_resize] made when the vector was full. *)
Definition push_target (V : vector) : vector :=
  if vsize V =? capacity V then vector_resize V else V.

(** Six small pages, one more than the first array holds, and a lookup. *)
Definition six_inserts : list op :=
  map (λ n, Insert (Z.of_nat n) (String (ascii_of_nat (97 + n)) ".example")
              "/" 80 [x48; x54] 2) (seq 1 6)
  ++ [Lookup 7 (Some "c.example"%string) (Some "/"%string) 80].

End Cache.

(** ** Header rewriting of the proxy *)

Module Proxy.

Definition NUL : ascii := "000"%char.
Definition CRLF : string := String "013" (String "010" EmptyString).

(** C strings end at the first NUL; the end of a [string] counts as one. *)
Fixpoint cstr (s : string) : string :=
  match s with
  | EmptyString => EmptyString
  | String c r => if Ascii.eqb c NUL then EmptyString else String c (cstr r)
  end.

(** [strchr (s, c)] for [c] other than NUL: the offset of the first [c]. *)
Fixpoint strchr (s : string) (c : ascii) : option nat :=
  match s with
  | EmptyString => None
  | String a r =>
      if Ascii.eqb a c then Some 0%nat
      else if Ascii.eqb a NUL then None
      else S <$> strchr r c
  end.

(** [tolower] in the C locale, as a character code. *)
Definition lower (c : ascii) : Z :=
  let n := Z.of_nat (nat_of_ascii c) in
  if (65 <=? n) && (n <=? 90) then n + 32 else n.

(** [strcasecmp]: the difference of the first two lowered characters that
    differ, [0] when both strings end together. *)
Fixpoint strcasecmp (a b : string) : Z :=
  match a, b with
  | EmptyString, EmptyString => 0
  | EmptyString, String y _ => 0 - lower y
  | String x _, EmptyString => lower x
  | String x a', String y b' =>
      if lower x =? lower y then
        if lower x =? 0 then 0 else strcasecmp a' b'
      else lower x - lower y
  end.

(** The loop of [strip_space]: [i] is the index of the next character,
    [sp_loc] one past the last character seen that is not a space. *)
Fixpoint strip_space_loop (s : string) (i sp_loc : nat) : nat :=
  match s with
  | EmptyString => sp_loc
  | String c r =>
      if Ascii.eqb c NUL then sp_loc
      else strip_space_loop r (S i) (if Ascii.eqb c " " then sp_loc else S i)
  end.

(** [strip_space]: [s[sp_loc] = '\0'] cuts the trailing spaces off. *)
Definition strip_space (s : string) : string :=
  substring 0 (strip_space_loop s 0 0) s.

(** [in_list]: some of the first [listSize] strings of [slist] equals [s]
    up to case. *)
Definition in_list (s : string) (slist : list string) (listSize : nat) : bool :=
  existsb (λ t, strcasecmp s t =? 0) (take listSize slist).

Definition user_agent_hdr : string :=
  "User-Agent: Mozilla/5.0 (X11; Linux x86_64; rv:10.0.3) Gecko/20120305 Firefox/10.0.3"
  ++ CRLF.
Definition accept_hdr : string :=
  "Accept: text/html,application/xhtml+xml,application/xml;q=0.9,*/*;q=0.8"
  ++ CRLF.
Definition accept_encoding_hdr : string :=
  "Accept-Encoding: gzip, deflate" ++ CRLF.
Definition connect_hdr : string := "Connection: close" ++ CRLF.
Definition proxy_connect_hdr : string := "Proxy-Connection: close" ++ CRLF.
Definition change_headers : list string :=
  ["User-Agent"; "Accept"; "Accept-Encoding"; "Connection";
   "Proxy-Connection"]%string.

(** The header of a line, as [client_to_web] extracts it: the characters
    before the first colon, without trailing spaces. *)
Definition header_of (buf : string) : option string :=
  match strchr buf ":" with
  | Some headSize => Some (strip_space (substring 0 headSize buf))
  | None => None
  end.

Section Forwarding.

(** Whether [rio_writen] to the web server writes a buffer in full. *)
Variable rio_writen_ok : string → bool.

(** [send_request]: the request line.  [sent] lists the buffers written to
    the web server so far. *)
Definition send_request (dir : string) (sent : list string)
    : option (list string) :=
  let request := ("GET /" ++ cstr dir ++ " HTTP/1.0" ++ CRLF)%string in
  if rio_writen_ok request then Some (sent ++ [request]) else None.

(** The [RIO_WRITEN] macro of [send_proxyheaders]. *)
Definition RIO_WRITEN (msg : string) (k : list string → option (list string))
    (sent : list string) : option (list string) :=
  if rio_writen_ok msg then k (sent ++ [msg]) else None.

Definition send_proxyheaders (hostSpecified : bool) (name : string)
    (sent : list string) : option (list string) :=
  let rest :=
    RIO_WRITEN user_agent_hdr
      (RIO_WRITEN accept_hdr
         (RIO_WRITEN accept_encoding_hdr
            (RIO_WRITEN connect_hdr
               (RIO_WRITEN proxy_connect_hdr Some)))) in
  if negb hostSpecified then
    RIO_WRITEN ("Host: " ++ cstr name ++ CRLF)%string rest sent
  else rest sent.

(** [client_to_web].  [lines] are the buffers that the successive calls of
    [rio_readlineb] return; past the last one the call returns [0].  The
    result is [None] for the return value [-1], otherwise the buffers
    written and [*hostSpecified]. *)
Fixpoint client_to_web (lines : list string) (hostSpecified : bool)
    (sent : list string) : option (list string * bool) :=
  match lines with
  | [] => None
  | buf :: rest =>
      let len := Z.of_nat (String.length buf) in
      if len =? 2 then Some (sent, hostSpecified)
      else if len <? 2 then None
      else
        match header_of buf with
        | Some header =>
            let hostSpecified' :=
              if strcasecmp header "Host" =? 0 then true else hostSpecified in
            if in_list header change_headers 5
            then client_to_web rest hostSpecified' sent
            else if rio_writen_ok buf
                 then client_to_web rest hostSpecified' (sent ++ [buf])
                 else None
        | None =>
            if rio_writen_ok buf
            then client_to_web rest hostSpecified (sent ++ [buf])
            else None
        end
  end.

(** The part of [process] that talks to the web server before the reply:
    request line, client headers, proxy headers, terminating line (whose
    [rio_writen] is not checked). *)
Definition forward_request (dir name : string) (lines : list string)
    : option (list string) :=
  match send_request dir [] with
  | None => None
  | Some sent0 =>
      match client_to_web lines false sent0 with
      | None => None
      | Some (sent1, hostSpecified) =>
          match send_proxyheaders hostSpecified name sent1 with
          | None => None
          | Some sent2 =>
              Some (if rio_writen_ok CRLF then sent2 ++ [CRLF] else sent2)
          end
      end
  end.

End Forwarding.

(** *** Vocabulary of the statements *)

(** The line carries the header [name] (compared as the proxy compares). *)
Definition is_header (name : string) (line : string) : bool :=
  match header_of line with
  | Some header => strcasecmp header name =? 0
  | None => false
  end.





Definition request_line (dir : string) : string :=
  ("GET /" ++ cstr dir ++ " HTTP/1.0" ++ CRLF)%string.

Definition host_hdr (name : string) : string :=
  ("Host: " ++ cstr name ++ CRLF)%string.






(** A request with two [Host] lines. *)
Definition two_hosts : list string :=
  [ ("Host: a.example" ++ CRLF)%string;
    ("user-agent : curl" ++ CRLF)%string;
    ("Host: b.example" ++ CRLF)%string;
    CRLF ].

(** *** Parsing the request URI *)

(** The string that a [char *] advanced by [n] points to. *)
Fixpoint skip (n : nat) (s : string) : string :=
  match n, s with
  | O, _ => s
  | S n', String _ r => skip n' r
  | S _, EmptyString => EmptyString
  end.

(** [s] begins with [needle]. *)
Fixpoint starts_with (needle s : string) : bool :=
  match needle, s with
  | EmptyString, _ => true
  | String a needle', String b s' => Ascii.eqb a b && starts_with needle' s'
  | String _ _, EmptyString => false
  end.

(** [strstr (s, needle)] for a needle without NUL: the offset of its
    first occurrence. *)
Fixpoint strstr (s needle : string) : option nat :=
  if starts_with needle s then Some 0%nat
  else
    match s with
    | EmptyString => None
    | String a r => if Ascii.eqb a NUL then None else S <$> strstr r needle
    end.

Definition isspace (c : ascii) : bool :=
  let n := nat_of_ascii c in (n =? 32)%nat || ((9 <=? n)%nat && (n <=? 13)%nat).

Definition isdigit (c : ascii) : bool :=
  let n := nat_of_ascii c in (48 <=? n)%nat && (n <=? 57)%nat.

(** The digits of [atoi]: the value read so far is [acc]. *)
Fixpoint atoi_digits (s : string) (acc : Z) : Z :=
  match s with
  | String c r =>
      if isdigit c
      then atoi_digits r (10 * acc + (Z.of_nat (nat_of_ascii c) - 48))
      else acc
  | EmptyString => acc
  end.

Fixpoint skip_spaces (s : string) : string :=
  match s with
  | String c r => if isspace c then skip_spaces r else s
  | EmptyString => s
  end.

(** [strtol] in base 10 with a null end pointer: white space, an optional
    sign, decimal digits; a value out of the range of [long] is replaced
    by [LONG_MAX] or [LONG_MIN]. *)
Definition strtol (s : string) : Z :=
  let v :=
    match skip_spaces s with
    | String "-" r => - atoi_digits r 0
    | String "+" r => atoi_digits r 0
    | s' => atoi_digits s' 0
    end in
  Z.max (- 2 ^ 63) (Z.min v (2 ^ 63 - 1)).

(** The conversion of a [long] to [int]. *)
Definition to_int (z : Z) : Z := (z + 2 ^ 31) mod 2 ^ 32 - 2 ^ 31.

(** [atoi] as the C library of the build defines it:
    [(int) strtol (nptr, NULL, 10)]. *)
Definition atoi (s : string) : Z := to_int (strtol s).

(** [get_website]: past the first ["://"], if there is one. *)
Definition get_website (uri : string) : string :=
  match strstr uri "://" with
  | Some k => skip (k + 3) uri
  | None => uri
  end.

(** The body of [get_uri_info] from [website] on: [name], [dir] and
    [*port].  When [website] has no slash, [strcat] appends one. *)
Definition split_website (website : string) : string * string * Z :=
  let portIdx := strchr website ":" in
  let '(website, dirIdx) :=
    match strchr website "/" with
    | Some d => (website, d)
    | None => ((cstr website ++ "/")%string, String.length (cstr website))
    end in
  let dir := cstr (skip (dirIdx + 1) website) in
  match portIdx with
  | Some p =>
      if 0 <? Z.of_nat dirIdx - Z.of_nat p then
        (substring 0 p website, dir, atoi (skip (p + 1) website))
      else (substring 0 dirIdx website, dir, 80)
  | None => (substring 0 dirIdx website, dir, 80)
  end.

Definition get_uri_info (uri : string) : string * string * Z :=
  split_website (get_website uri).

(** No character of [s] is in [bad]. *)
Fixpoint avoids (bad : list ascii) (s : string) : bool :=
  match s with
  | EmptyString => true
  | String c r => negb (existsb (Ascii.eqb c) bad) && avoids bad r
  end.

Fixpoint all_digits (s : string) : bool :=
  match s with
  | EmptyString => true
  | String c r => isdigit c && all_digits r
  end.

(** A host with an optional port and an optional path, as text. *)
Definition website_text (host : string) (port path : option string) : string :=
  (host ++ match port with Some ds => ":" ++ ds | None => "" end
        ++ match path with Some p => "/" ++ p | None => "" end)%string.

(** A response that arrives in two buffers. *)
Definition two_chunks : list (list byte) := [[x48; x54; x54]; [x50; x2f]].

(** *** Moving the response *)

Section Streaming.

(** [MAXLINE] of [csapp.h], the size of the I/O buffers. *)
Variable MAXLINE : Z.

(** Whether [rio_writen] to the client writes a buffer in full. *)
Variable client_write_ok : list byte → bool.

(** The loop of [web_to_client].  [reads] are the results of the
    successive calls of [rio_readnb]: the bytes read, [None] for an error;
    an empty buffer or the end of the list is the end of the response.
    [sent] lists the buffers written to the client; [cacheBuf] is the side
    buffer, [None] when its [malloc] returned [NULL], otherwise the bytes
    copied so far ([cacheBufHead - cacheBuf] of them).  The loop ends with
    [true] at the end of the response and with [false] where the function
    returns [-1]; the result is [None] when [memcpy] writes through
    [NULL]. *)
Fixpoint web_to_client_loop (reads : list (option (list byte)))
    (sent : list (list byte)) (cacheBuf : option (list byte))
    (cacheBufSize : Z)
    : option (bool * list (list byte) * option (list byte) * Z) :=
  match reads with
  | [] => Some (true, sent, cacheBuf, cacheBufSize)
  | None :: _ => Some (false, sent, cacheBuf, cacheBufSize)
  | Some buf :: rest =>
      let len := Z.of_nat (length buf) in
      if len =? 0 then Some (true, sent, cacheBuf, cacheBufSize)
      else if negb (client_write_ok buf)
      then Some (false, sent, cacheBuf, cacheBufSize)
      else
        let sent := sent ++ [buf] in
        if negb (cacheBufSize =? -1) then
          let cacheBufSize := cacheBufSize + len in
          if cacheBufSize <=? Cache.MAX_OBJECT_SIZE then
            match cacheBuf with
            | Some copied =>
                web_to_client_loop rest sent (Some (copied ++ buf))
                  cacheBufSize
            | None => None
            end
          else web_to_client_loop rest sent cacheBuf (-1)
        else web_to_client_loop rest sent cacheBuf cacheBufSize
  end.

(** [web_to_client]: the return value, the buffers written to the client
    and the cache afterwards; [None] when the process does not survive
    (a write through [NULL], a failed assertion in [cache_insert]).
    [cacheBuf] is what [malloc (MAX_OBJECT_SIZE)] returned. *)
Definition web_to_client (cacheBuf : option (list byte))
    (reads : list (option (list byte))) (now : Z) (webStore : Cache.cache)
    (name dir : string) (port : Z)
    : option (Z * list (list byte) * Cache.cache) :=
  match web_to_client_loop reads [] cacheBuf 0 with
  | None => None
  | Some (false, sent, _, _) => Some (-1, sent, webStore)
  | Some (true, sent, cacheBuf, cacheBufSize) =>
      if negb (cacheBufSize =? -1) then
        match Cache.cache_insert now webStore name dir port
                (default [] cacheBuf) cacheBufSize with
        | Some C => Some (0, sent, C)
        | None => None
        end
      else Some (0, sent, webStore)
  end.

Definition min (x y : Z) : Z := if x <? y then x else y.

(** How a call of [cache_to_client] ends: it returns, or its assertion
    fails, or (only when [MAXLINE] is not positive) the loop makes no
    progress. *)
Inductive sent_result :=
  | Returned (ret : Z) (sent : list (list byte))
  | Assert_failed
  | No_progress.

(** The loop of [cache_to_client]; [data] is what the pointer [data] still
    points to, [n] bounds the rounds.  The loop ends with [true] when
    [dataTransfer] has reached [dataSize] and with [false] where the
    function returns [-1]; [None] when the rounds are used up. *)
Fixpoint cache_to_client_loop (n : nat) (data : list byte)
    (dataSize dataTransfer : Z) (sent : list (list byte))
    : option (bool * Z * list (list byte)) :=
  if dataTransfer <? dataSize then
    match n with
    | O => None
    | S n' =>
        let len := min MAXLINE (dataSize - dataTransfer) in
        let buf := take (Z.to_nat len) data in
        if negb (client_write_ok buf) then Some (false, dataTransfer, sent)
        else cache_to_client_loop n' (drop (Z.to_nat len) data) dataSize
               (dataTransfer + len) (sent ++ [buf])
    end
  else Some (true, dataTransfer, sent).

(** [cache_to_client].  A round with [MAXLINE > 0] moves at least one
    byte, so [dataSize] rounds are enough. *)
Definition cache_to_client (data : list byte) (dataSize : Z) : sent_result :=
  match cache_to_client_loop (Z.to_nat dataSize) data dataSize 0 [] with
  | None => No_progress
  | Some (false, _, sent) => Returned (-1) sent
  | Some (true, dataTransfer, sent) =>
      if dataTransfer =? dataSize then Returned 0 sent else Assert_failed
  end.

End Streaming.

End Proxy.

(** ** The allocator

    The contracts of [contracts.h] ([REQUIRES], [ENSURES], [ASSERT]) and
    the calls of [checkheap] are compiled out, as in a build with [NDEBUG]
    and without [DEBUG]; they have no effect on the heap. *)

Module Mm.

(** [uint32_t] and [size_t] arithmetic wraps around. *)
Definition wrap32 (z : Z) : Z := z mod 2 ^ 32.
Definition wrap64 (z : Z) : Z := z mod 2 ^ 64.

Definition SMALLBINS : Z := 8.
Definition MEDBINS : Z := 2.
Definition BIGBINS : Z := 8.
Definition CHUNKSIZE : Z := 400.
Definition MINALLOC : Z := 8.
Definition HSIZE : Z := 8.
Definition ALIGNMENT : Z := 8.
Definition LISTZONE : Z := SMALLBINS + MEDBINS + BIGBINS.
Definition FIRST : Z := LISTZONE * 4 + 4.

(** The heap image and the two globals.  [mem] maps a word offset from
    [heapStart] to the 32-bit word stored there (a word never written
    reads [0]); [wildPtr] is a word offset; [brk] is the size of the heap
    in bytes; [sbrk_calls] records the calls of [mem_sbrk], latest first,
    each with its increment and whether it succeeded.

    The map has a word at every offset, so a store is the program's store
    only while the offset lies in the heap.  The program leaves the heap
    when its 32-bit size arithmetic wraps around (a request of [2^32 - 31]
    bytes or more in [wild_alloc] and [place], a [memset] longer than the
    block); the statements about [malloc] and [calloc] therefore bound
    the request. *)
Record heap := mk_heap {
  mem : gmap Z Z;
  wildPtr : Z;
  brk : Z;
  sbrk_calls : list (Z * bool)
}.

Definition empty_heap : heap :=
  {| mem := ∅; wildPtr := 0; brk := 0; sbrk_calls := [] |}.

Definition word (h : heap) (p : Z) : Z := default 0 (mem h !! p).

Definition store (h : heap) (p v : Z) : heap :=
  {| mem := <[p := wrap32 v]> (mem h); wildPtr := wildPtr h; brk := brk h;
     sbrk_calls := sbrk_calls h |}.

Definition set_wildPtr (h : heap) (p : Z) : heap :=
  {| mem := mem h; wildPtr := p; brk := brk h; sbrk_calls := sbrk_calls h |}.

(** *** Block functions *)

Definition block_size (h : heap) (block : Z) : Z :=
  Z.land (word h block) 0xFFFFFFF8.

Definition block_free (h : heap) (block : Z) : Z :=
  Z.land (word h block) 1.

Definition block_mark (h : heap) (block fr : Z) : heap :=
  store h block (Z.land (word h block) 0xFFFFFFFE + fr).

Definition block_pack (h : heap) (block size fr : Z) : heap :=
  store h block (size + fr).

Definition block_mem (block : Z) : Z := block + 1.

Definition block_prev (h : heap) (block : Z) : Z :=
  block - block_size h (block - 1) / 4.

Definition block_next (h : heap) (block : Z) : Z :=
  block + block_size h block / 4.

Definition block_left (h : heap) (block : Z) : Z := word h (block + 1).
Definition block_right (h : heap) (block : Z) : Z := word h (block + 2).

Definition edit_left (h : heap) (block left : Z) : heap :=
  store h (block + 1) left.
Definition edit_right (h : heap) (block right : Z) : heap :=
  store h (block + 2) right.

(** *** Bins *)

Definition get_bin (size : Z) : Z :=
  if size <? 16 + SMALLBINS * 8 then wrap32 (size / 8 - 2)
  else if size <? 16 + SMALLBINS * 8 + MEDBINS * 64 then
    wrap32 ((size - (16 + SMALLBINS * 8)) / 64 + SMALLBINS)
  else if size <? 16 + SMALLBINS * 8 + MEDBINS * 64 + BIGBINS * 3072 then
    wrap32 ((size - (16 + SMALLBINS * 8 + MEDBINS * 64)) / 3072
            + SMALLBINS + MEDBINS)
  else SMALLBINS + MEDBINS + BIGBINS.

(** *** Free lists *)

Definition list_insert (h : heap) (freePtr : Z) : heap :=
  let bidx := get_bin (block_size h freePtr) in
  let listHead := bidx in
  let listFirst := word h listHead in
  if listFirst =? listHead then
    let h1 := store h listHead freePtr in
    let h2 := edit_left h1 freePtr listHead in
    edit_right h2 freePtr listHead
  else
    let h1 := store h listHead freePtr in
    let h2 := edit_left h1 freePtr listHead in
    let h3 := edit_right h2 freePtr listFirst in
    edit_left h3 listFirst freePtr.

Definition list_delete (h : heap) (freePtr : Z) : heap :=
  let left := word h (freePtr + 1) in
  let right := word h (freePtr + 2) in
  let h1 := if left <=? LISTZONE then store h left right
            else store h (left + 2) right in
  if right >? LISTZONE then store h1 (right + 1) left else h1.

(** [place]: the heap afterwards and the pointer returned. *)
Definition place (h : heap) (ptr size : Z) : heap * Z :=
  let h1 := list_delete h ptr in
  let bsize := block_size h1 ptr in
  if bsize >=? wrap32 (size + MINALLOC + HSIZE) then
    let h2 := block_pack h1 ptr size 0 in
    let freePtr := ptr + size / 4 in
    let h3 := block_pack h2 (freePtr - 1) size 0 in
    let bsize := wrap32 (bsize - size) in
    let h4 := block_pack h3 freePtr bsize 1 in
    let h5 := block_pack h4 (freePtr + (bsize / 4 - 1)) bsize 1 in
    (list_insert h5 freePtr, ptr + 1)
  else (block_mark h1 ptr 0, ptr + 1).

Definition list_alloc_exact (h : heap) (start size : Z) : heap * option Z :=
  let curPtr := word h start in
  if negb (curPtr =? start) then
    let '(h', p) := place h curPtr size in (h', Some p)
  else (h, None).

(** The best-fit search of [list_alloc_best].  [n] counts the rounds that
    [ctr <= 5] still allows. *)
Fixpoint best_fit (n : nat) (h : heap) (start size curPtr best : Z)
    (bestPtr : option Z) : option Z :=
  match n with
  | O => bestPtr
  | S n' =>
      if negb (curPtr =? start) then
        if (block_size h curPtr >=? size) && (block_size h curPtr <=? best)
        then best_fit n' h start size (block_right h curPtr)
               (block_size h curPtr) (Some curPtr)
        else best_fit n' h start size (block_right h curPtr) best bestPtr
      else bestPtr
  end.

Definition list_alloc_best (h : heap) (start size : Z) : heap * option Z :=
  match best_fit 6 h start size (word h start) 0xFFFFFFFF None with
  | Some bestPtr => let '(h', p) := place h bestPtr size in (h', Some p)
  | None => (h, None)
  end.

Section Sbrk.

(** Whether [mem_sbrk] grants an increment, given the size of the heap. *)
Variable mem_sbrk_ok : Z → Z → bool.

(** [wild_expand]: the heap afterwards and the bytes gained ([0] on
    failure). *)
Definition wild_expand (h : heap) (size : Z) : heap * Z :=
  let size := if size <? CHUNKSIZE then CHUNKSIZE else size in
  if mem_sbrk_ok (brk h) size then
    ({| mem := mem h; wildPtr := wildPtr h; brk := brk h + size;
        sbrk_calls := (size, true) :: sbrk_calls h |}, size)
  else
    ({| mem := mem h; wildPtr := wildPtr h; brk := brk h;
        sbrk_calls := (size, false) :: sbrk_calls h |}, 0).

(** The second half of [wild_alloc], once the wilderness holds [wpsize]
    bytes. *)
Definition wild_carve (h : heap) (size wpsize : Z) : heap * option Z :=
  let allocPtr := wildPtr h + 1 in
  let h1 := set_wildPtr h (wildPtr h + size / 4) in
  let wpsize := wrap32 (wpsize - size) in
  let h2 := block_pack h1 (allocPtr - 1) size 0 in
  let h3 := block_pack h2 (wildPtr h2 - 1) size 0 in
  let h4 := block_pack h3 (wildPtr h3) wpsize 1 in
  let h5 := block_pack h4 (wildPtr h4 + (wpsize / 4 - 1)) wpsize 1 in
  (h5, Some allocPtr).

Definition wild_alloc (h : heap) (size : Z) : heap * option Z :=
  let wpsize := block_size h (wildPtr h) in
  if wpsize <? wrap32 (size + MINALLOC + HSIZE) then
    let '(h1, inc) :=
      wild_expand h (wrap32 (size - wpsize + MINALLOC + HSIZE)) in
    if inc =? 0 then (h1, None)
    else wild_carve h1 size (wrap32 (wpsize + inc))
  else wild_carve h size wpsize.

(** [mm_init] on the empty heap; [None] for the return value [-1]. *)
Definition mm_init (h : heap) : option heap :=
  let '(h0, size) := wild_expand h (4 + FIRST + HSIZE + MINALLOC) in
  if size =? 0 then None
  else
    let h1 := foldl (λ h b, store h (Z.of_nat b) (Z.of_nat b)) h0
                (seq 0 (Z.to_nat (LISTZONE + 1))) in
    let freeSize := wrap32 (size - (4 + FIRST)) in
    let h2 := set_wildPtr h1 (FIRST / 4) in
    let h3 := block_pack h2 (wildPtr h2) freeSize 1 in
    Some (block_pack h3 (wildPtr h3 + (freeSize / 4 - 1)) freeSize 1).

(** The [for] loop of [malloc] over the bins [b], [b+1], ...; [n] bounds
    the number of rounds. *)
Fixpoint malloc_bins (n : nat) (h : heap) (b newsize : Z)
    : heap * option Z :=
  match n with
  | O => wild_alloc h newsize
  | S n' =>
      if b <=? LISTZONE then
        if negb (word h b =? b) then
          let '(h', p) :=
            if b <? SMALLBINS then list_alloc_exact h b newsize
            else list_alloc_best h b newsize in
          match p with
          | Some _ => (h', p)
          | None => malloc_bins n' h' (b + 1) newsize
          end
        else malloc_bins n' h (b + 1) newsize
      else wild_alloc h newsize
  end.

(** The padded size of a request of [size] bytes. *)
Definition padded (size : Z) : Z :=
  if size <=? MINALLOC then MINALLOC + HSIZE
  else wrap32 (wrap64 (size + HSIZE + ALIGNMENT - 1) / ALIGNMENT * ALIGNMENT).

(** [malloc]: [size] is a [size_t]; the pointer returned is the word
    offset of the payload, [None] for [NULL]. *)
Definition malloc (h : heap) (size : Z) : heap * option Z :=
  if size =? 0 then (h, None)
  else
    let newsize := padded size in
    malloc_bins (Z.to_nat (LISTZONE + 1)) h (get_bin newsize) newsize.

(** [free] *)
Definition free (h : heap) (ptr : option Z) : heap :=
  match ptr with
  | None => h
  | Some p =>
      let bPtr := p - 1 in
      let h := block_mark h bPtr 1 in
      let '(h, bPtr) :=
        if negb (bPtr =? FIRST / 4)
           && negb (block_free h (block_prev h bPtr) =? 0)
        then
          let prev := block_prev h bPtr in
          let h1 := list_delete h prev in
          let newSize := wrap32 (block_size h1 prev + block_size h1 bPtr) in
          let h2 := block_pack h1 prev newSize 1 in
          (block_pack h2 (prev + (newSize / 4 - 1)) newSize 1, prev)
        else (h, bPtr) in
      if block_next h bPtr =? wildPtr h then
        let wildSize :=
          wrap32 (block_size h (wildPtr h) + block_size h bPtr) in
        let h1 := set_wildPtr h bPtr in
        let h2 := block_pack h1 (wildPtr h1) wildSize 1 in
        block_pack h2 (wildPtr h2 + (wildSize / 4 - 1)) wildSize 1
      else
        let h :=
          if negb (block_free h (block_next h bPtr) =? 0) then
            let next := block_next h bPtr in
            let h1 := list_delete h next in
            let newSize := wrap32 (block_size h1 bPtr + block_size h1 next) in
            let h2 := block_pack h1 bPtr newSize 1 in
            block_pack h2 (bPtr + (newSize / 4 - 1)) newSize 1
          else h in
        list_insert h bPtr
  end.

(** [memset (p, 0, n)] on the heap image, for a payload pointer [p]: the
    whole words first, then the low bytes of the last word (the machine is
    little-endian). *)
Fixpoint zero_words (k : nat) (h : heap) (p : Z) : heap :=
  match k with
  | O => h
  | S k' => zero_words k' (store h p 0) (p + 1)
  end.

Definition zero_bytes (h : heap) (p n : Z) : heap :=
  let h1 := zero_words (Z.to_nat (n / 4)) h p in
  if n mod 4 =? 0 then h1
  else
    let w := word h1 (p + n / 4) in
    store h1 (p + n / 4) (w - w mod 2 ^ (8 * (n mod 4))).

(** [memset (ptr, 0, n)]; [None] when it writes through [NULL]. *)
Definition memset (h : heap) (ptr : option Z) (n : Z) : option heap :=
  match ptr with
  | Some p => Some (zero_bytes h p n)
  | None => if n =? 0 then Some h else None
  end.

(** [calloc]; [None] when the process faults. *)
Definition calloc (h : heap) (nmemb size : Z) : option (heap * option Z) :=
  let bytes := wrap64 (nmemb * size) in
  let '(h1, newptr) := malloc h bytes in
  match memset h1 newptr bytes with
  | Some h2 => Some (h2, newptr)
  | None => None
  end.

(** [memcpy (dst, src, n)] between two payloads of the heap that do not
    overlap: the whole words first, then the low bytes of the last word. *)
Fixpoint copy_words (k : nat) (h : heap) (dst src : Z) : heap :=
  match k with
  | O => h
  | S k' => copy_words k' (store h dst (word h src)) (dst + 1) (src + 1)
  end.

Definition memcpy (h : heap) (dst src n : Z) : heap :=
  let h1 := copy_words (Z.to_nat (n / 4)) h dst src in
  if n mod 4 =? 0 then h1
  else
    let d := word h1 (dst + n / 4) in
    let s := word h1 (src + n / 4) in
    store h1 (dst + n / 4)
      (d - d mod 2 ^ (8 * (n mod 4)) + s mod 2 ^ (8 * (n mod 4))).

(** [realloc]; [size] is a [size_t], so [size + HSIZE] wraps at [2^64],
    and [block_size (...) - HSIZE] is a [uint32_t]. *)
Definition realloc (h : heap) (oldptr : option Z) (size : Z)
    : heap * option Z :=
  if size =? 0 then (free h oldptr, None)
  else
    match oldptr with
    | None => malloc h size
    | Some p =>
        let bPtr := p - 1 in
        if block_size h bPtr >=? wrap64 (size + HSIZE) then (h, Some p)
        else
          let '(h1, newptr) := malloc h size in
          match newptr with
          | None => (h1, None)
          | Some q =>
              let oldsize := wrap32 (block_size h1 (p - 1) - HSIZE) in
              let oldsize := if size <? oldsize then size else oldsize in
              (free (memcpy h1 q p oldsize) (Some p), Some q)
          end
    end.

End Sbrk.

(** *** Vocabulary of the statements *)

(** The bin table of the specification, for [S] exact bins, [M] bins of 64
    bytes and [B] bins of 3072 bytes. *)
Definition bin_index (S M B size : Z) : Z :=
  if size <? 16 + 8 * S then size / 8 - 2
  else if size <? 16 + 8 * S + 64 * M then S + (size - 16 - 8 * S) / 64
  else if size <? 16 + 8 * S + 64 * M + 3072 * B
       then S + M + (size - (16 + 8 * S + 64 * M)) / 3072
  else S + M + B.

(** The first [n] blocks of the free list anchored at [start], from
    [curPtr] on. *)
Fixpoint chain (n : nat) (h : heap) (start curPtr : Z) : list Z :=
  match n with
  | O => []
  | S n' =>
      if curPtr =? start then []
      else curPtr :: chain n' h start (block_right h curPtr)
  end.

(** The blocks that [list_alloc_best] looks at. *)
Definition examined (h : heap) (start : Z) : list Z :=
  chain 6 h start (word h start).

(** The state of the best-fit search after the blocks [seen]. *)
Definition best_so_far (h : heap) (size : Z) (seen : list Z) (best : Z)
    (bestPtr : option Z) : Prop :=
  match bestPtr with
  | None => best = 0xFFFFFFFF ∧ Forall (λ q, block_size h q < size) seen
  | Some p =>
      p ∈ seen ∧ best = block_size h p ∧ size ≤ block_size h p ∧
      Forall (λ q, size ≤ block_size h q → block_size h p ≤ block_size h q)
        seen
  end.

(** What a call of [malloc] shows of [mem_sbrk]: a refused call goes with
    [NULL], and a pointer goes with no call or a granted one. *)
Definition sbrk_outcome (h : heap) (r : heap * option Z) : Prop :=
  (snd r = None ∧ ∃ inc, sbrk_calls (fst r) = (inc, false) :: sbrk_calls h)
  ∨ (is_Some (snd r) ∧
     (sbrk_calls (fst r) = sbrk_calls h
      ∨ ∃ inc, sbrk_calls (fst r) = (inc, true) :: sbrk_calls h)).

(** A search of a free list never calls [mem_sbrk]; when it finds nothing
    it leaves the heap as it was. *)
Definition list_outcome (h : heap) (r : heap * option Z) : Prop :=
  (snd r = None ∧ fst r = h)
  ∨ (is_Some (snd r) ∧ sbrk_calls (fst r) = sbrk_calls h).

(** The heap image and the two globals of [h'] are those of [h]; only the
    record of the calls of [mem_sbrk] may differ. *)
Definition same_image (h h' : heap) : Prop :=
  mem h' = mem h ∧ wildPtr h' = wildPtr h ∧ brk h' = brk h.

(** Every free list from bin [b] on is empty. *)
Definition bins_empty_from (h : heap) (b : Z) : Prop :=
  ∀ i, b ≤ i ≤ LISTZONE → word h i = i.

(** Every word of the image lies in the heap: offsets [0] to
    [brk / 4 - 1].  A store outside the heap leaves a word there, so an
    image that is not [in_heap] shows that the program wrote outside its
    heap. *)
Definition in_heap (h : heap) : bool :=
  forallb (λ pv, (0 <=? fst pv) && (4 * fst pv + 4 <=? brk h))
    (map_to_list (mem h)).

(** A byte of the heap image, by byte offset from [heapStart]. *)
Definition byte_at (h : heap) (a : Z) : Z :=
  (word h (a / 4) / 2 ^ (8 * (a mod 4))) mod 256.

(** An [mem_sbrk] that fails once the heap would exceed [max_heap] bytes. *)
Definition limited (max_heap : Z) (brk incr : Z) : bool :=
  (0 <=? incr) && (brk + incr <=? max_heap).

(** The heap after [mm_init]. *)
Definition fresh (max_heap : Z) : heap :=
  default empty_heap (mm_init (limited max_heap) empty_heap).

(** Seven free blocks in bin 8: one of 136 bytes freed first, then six of
    88 bytes, each fenced by an allocated block. *)
Definition seven_in_bin8 : heap :=
  let ok := limited 100000 in
  let alloc '(h, ps) n := let '(h', p) := malloc ok h n in (h', ps ++ [p]) in
  let '(h, ps) :=
    foldl alloc (fresh 100000, [])
      [128; 8; 80; 8; 80; 8; 80; 8; 80; 8; 80; 8; 80; 8] in
  foldl (λ h i, free h (default None (ps !! i))) h
    [0; 2; 4; 6; 8; 10; 12]%nat.

End Mm.

(** ** The readers/writers gate around the cache *)

Module Gate.
Import Cache.

(** The statements of [retrieve_cache] followed by the use of the data in
    [process], one program point per statement. *)
Inductive rpc :=
  | R_P1      (* P(&read_m) *)
  | R_test    (* if (read_cnt == 0) P(&write_m) *)
  | R_inc     (* read_cnt++ *)
  | R_V1      (* V(&read_m) *)
  | R_get     (* data = cache_get (webStore, ...) *)
  | R_P2      (* P(&read_m) *)
  | R_dec     (* read_cnt-- *)
  | R_test2   (* if (read_cnt == 0) V(&write_m) *)
  | R_V2      (* V(&read_m); return data *)
  | R_use     (* if (data != NULL) cache_to_client (data, dataSize, fd) *)
  | R_done.

(** The end of [web_to_client]. *)
Inductive wpc :=
  | W_P       (* if (cacheBufSize != -1) P(&write_m) *)
  | W_insert  (* cache_insert (webStore, ...) *)
  | W_V       (* V(&write_m) *)
  | W_done.

(** A worker on a cache hit path or at the end of a miss path.  A reader
    keeps the address and size that [retrieve_cache] returned. *)
Inductive thread :=
  | Reader (website file : string) (port : Z) (pc : rpc)
      (borrowed : option (nat * Z))
  | Writer (website file : string) (port : Z) (data : list byte)
      (dataSize : Z) (pc : wpc).

(** The shared state: the two semaphores, the reader counter and the
    cache.  [bufs] gives, slot by slot, the address of the buffer that
    [web_data_new] allocated for the entry's data; [freed] lists the
    buffers that [web_data_free] released; [next_buf] is the next address
    [malloc] hands out; [clock] is the next reading of [clock ()];
    [faults] lists the threads that read a released buffer. *)
Record state := mk_state {
  read_m : nat;
  write_m : nat;
  read_cnt : Z;
  webStore : cache;
  bufs : list nat;
  freed : list nat;
  next_buf : nat;
  clock : Z;
  threads : list thread;
  faults : list nat
}.

(** The index of the entry that [vector_get] returns. *)
Fixpoint hit_index (l : list web_data) (website file : option string)
    (port : Z) : option nat :=
  match l with
  | [] => None
  | w :: rest =>
      if web_data_equals w website file port then Some 0%nat
      else S <$> hit_index rest website file port
  end.

(** The loop of [cache_insert] with the buffers it releases. *)
Fixpoint evict_bufs (n : nat) (V : vector) (size dataSize : Z)
    (bufs freed : list nat) : option (vector * Z * list nat * list nat) :=
  if size + dataSize >? MAX_CACHE_SIZE then
    match n with
    | O => None
    | S n' =>
        match vector_find_LRU V, vector_evict_LRU V with
        | Some index, Some (size_freed, V') =>
            evict_bufs n' V' (size - size_freed) dataSize
              (delete index bufs) (default 0%nat (bufs !! index) :: freed)
        | _, _ => None
        end
    end
  else Some (V, size, bufs, freed).

Definition set_thread (s : state) (tid : nat) (t : thread) : state :=
  {| read_m := read_m s; write_m := write_m s; read_cnt := read_cnt s;
     webStore := webStore s; bufs := bufs s; freed := freed s;
     next_buf := next_buf s; clock := clock s;
     threads := <[tid := t]> (threads s); faults := faults s |}.

Definition set_read_m (s : state) (v : nat) : state :=
  {| read_m := v; write_m := write_m s; read_cnt := read_cnt s;
     webStore := webStore s; bufs := bufs s; freed := freed s;
     next_buf := next_buf s; clock := clock s;
     threads := threads s; faults := faults s |}.

Definition set_write_m (s : state) (v : nat) : state :=
  {| read_m := read_m s; write_m := v; read_cnt := read_cnt s;
     webStore := webStore s; bufs := bufs s; freed := freed s;
     next_buf := next_buf s; clock := clock s;
     threads := threads s; faults := faults s |}.

Definition set_read_cnt (s : state) (v : Z) : state :=
  {| read_m := read_m s; write_m := write_m s; read_cnt := v;
     webStore := webStore s; bufs := bufs s; freed := freed s;
     next_buf := next_buf s; clock := clock s;
     threads := threads s; faults := faults s |}.

(** One statement of a reader; [None] when the thread is blocked in [P]
    or has finished. *)
Definition step_reader (s : state) (tid : nat) (website file : string)
    (port : Z) (pc : rpc) (borrowed : option (nat * Z)) : option state :=
  let goto pc' s' := Some (set_thread s' tid (Reader website file port pc' borrowed)) in
  match pc with
  | R_P1 =>
      match read_m s with
      | O => None
      | S v => goto R_test (set_read_m s v)
      end
  | R_test =>
      if read_cnt s =? 0 then
        match write_m s with
        | O => None
        | S v => goto R_inc (set_write_m s v)
        end
      else goto R_inc s
  | R_inc => goto R_V1 (set_read_cnt s (read_cnt s + 1))
  | R_V1 => goto R_get (set_read_m s (S (read_m s)))
  | R_get =>
      let '(C, r) :=
        cache_get (clock s) (webStore s) (Some website) (Some file) port in
      let i := hit_index (arr (items (webStore s))) (Some website) (Some file)
                 port in
      let borrowed' :=
        match r, i with
        | Some (_, size), Some i => Some (default 0%nat (bufs s !! i), size)
        | _, _ => None
        end in
      Some {| read_m := read_m s; write_m := write_m s;
              read_cnt := read_cnt s; webStore := C; bufs := bufs s;
              freed := freed s; next_buf := next_buf s;
              clock := clock s + 1;
              threads := <[tid := Reader website file port R_P2 borrowed']>
                           (threads s);
              faults := faults s |}
  | R_P2 =>
      match read_m s with
      | O => None
      | S v => goto R_dec (set_read_m s v)
      end
  | R_dec => goto R_test2 (set_read_cnt s (read_cnt s - 1))
  | R_test2 =>
      if read_cnt s =? 0 then goto R_V2 (set_write_m s (S (write_m s)))
      else goto R_V2 s
  | R_V2 => goto R_use (set_read_m s (S (read_m s)))
  | R_use =>
      match borrowed with
      | Some (a, _) =>
          Some {| read_m := read_m s; write_m := write_m s;
                  read_cnt := read_cnt s; webStore := webStore s;
                  bufs := bufs s; freed := freed s; next_buf := next_buf s;
                  clock := clock s;
                  threads := <[tid := Reader website file port R_done borrowed]>
                               (threads s);
                  faults := if bool_decide (a ∈ freed s)
                            then tid :: faults s else faults s |}
      | None => goto R_done s
      end
  | R_done => None
  end.

(** One statement of a writer. *)
Definition step_writer (s : state) (tid : nat) (website file : string)
    (port : Z) (data : list byte) (dataSize : Z) (pc : wpc) : option state :=
  let goto pc' s' :=
    Some (set_thread s' tid (Writer website file port data dataSize pc')) in
  match pc with
  | W_P =>
      if dataSize <=? MAX_OBJECT_SIZE then
        match write_m s with
        | O => None
        | S v => goto W_insert (set_write_m s v)
        end
      else goto W_done s
  | W_insert =>
      let C := webStore s in
      match evict_bufs (length (arr (items C))) (items C) (c_size C) dataSize
              (bufs s) (freed s) with
      | None => None
      | Some (V, size, bufs', freed') =>
          let w := web_data_new (clock s) website file port data dataSize in
          Some {| read_m := read_m s; write_m := write_m s;
                  read_cnt := read_cnt s;
                  webStore := {| items := vector_push_back V w;
                                 c_size := size + dataSize |};
                  bufs := bufs' ++ [next_buf s]; freed := freed';
                  next_buf := S (next_buf s); clock := clock s + 1;
                  threads := <[tid := Writer website file port data dataSize W_V]>
                               (threads s);
                  faults := faults s |}
      end
  | W_V => goto W_done (set_write_m s (S (write_m s)))
  | W_done => None
  end.

(** The scheduler runs one statement of thread [tid]. *)
Definition step (s : state) (tid : nat) : option state :=
  match threads s !! tid with
  | Some (Reader website file port pc borrowed) =>
      step_reader s tid website file port pc borrowed
  | Some (Writer website file port data dataSize pc) =>
      step_writer s tid website file port data dataSize pc
  | None => None
  end.

Fixpoint run (s : state) (schedule : list nat) : option state :=
  match schedule with
  | [] => Some s
  | tid :: rest =>
      match step s tid with
      | Some s' => run s' rest
      | None => None
      end
  end.

(** The state after [main] has set up the cache and the semaphores. *)
Definition init (ts : list thread) : state :=
  {| read_m := 1; write_m := 1; read_cnt := 0; webStore := cache_new;
     bufs := []; freed := []; next_buf := 1; clock := 1; threads := ts;
     faults := [] |}.

(** *** Vocabulary of the statements *)

(** The thread is between [P(&read_m)] and [V(&read_m)]. *)
Definition rd_hold (t : thread) : nat :=
  match t with
  | Reader _ _ _ (R_test | R_inc | R_V1 | R_dec | R_test2 | R_V2) _ => 1
  | _ => 0
  end.

(** The thread has executed [read_cnt++] and not yet [read_cnt--]. *)
Definition counted (t : thread) : nat :=
  match t with
  | Reader _ _ _ (R_V1 | R_get | R_P2 | R_dec) _ => 1
  | _ => 0
  end.

(** The reader has passed the entry test and is about to count itself. *)
Definition entering (t : thread) : nat :=
  match t with
  | Reader _ _ _ R_inc _ => 1
  | _ => 0
  end.

(** The reader has uncounted itself and is about to run the exit test. *)
Definition leaving (t : thread) : nat :=
  match t with
  | Reader _ _ _ R_test2 _ => 1
  | _ => 0
  end.

(** The thread is between [P(&write_m)] and [V(&write_m)] of an insert. *)
Definition wr_hold (t : thread) : nat :=
  match t with
  | Writer _ _ _ _ _ (W_insert | W_V) => 1
  | _ => 0
  end.

Definition total (f : thread → nat) (ts : list thread) : nat :=
  sum_list (map f ts).

(** The readers as a group hold [write_m]. *)
Definition readers_in (s : state) : nat :=
  if (0 <? read_cnt s) || (0 <? total entering (threads s))%nat
     || (0 <? total leaving (threads s))%nat
  then 1 else 0.

(** The invariant of the gate. *)
Definition gate_inv (s : state) : Prop :=
  (read_m s + total rd_hold (threads s) = 1)%nat ∧
  read_cnt s = Z.of_nat (total counted (threads s)) ∧
  (write_m s + total wr_hold (threads s) + readers_in s = 1)%nat.

(** No thread has started. *)
Definition at_start (t : thread) : Prop :=
  match t with
  | Reader _ _ _ pc _ => pc = R_P1
  | Writer _ _ _ _ _ pc => pc = W_P
  end.

(** *** A scenario: twenty responses of [MAX_OBJECT_SIZE] bytes and one
    reader *)

Definition site (i : nat) : string :=
  String (ascii_of_nat (65 + i)) ".example".

Definition page : list byte := replicate (Z.to_nat MAX_OBJECT_SIZE) x31.

Definition writer (i : nat) : thread :=
  Writer (site i) "index.html" 80 page MAX_OBJECT_SIZE W_P.

(** Threads 0 to 9 cache sites 0 to 9, thread 10 requests site 0, threads
    11 to 20 cache ten more sites. *)
Definition workers : list thread :=
  map writer (seq 0 10) ++ [Reader (site 0) "index.html" 80 R_P1 None]
  ++ map writer (seq 10 10).

(** Threads 0 to 9 run to completion; the reader runs [retrieve_cache] to
    its [return]; threads 11 to 20 run to completion; the reader sends the
    data. *)
Definition schedule : list nat :=
  flat_map (λ i, [i; i; i]) (seq 0 10) ++ replicate 9 10%nat
  ++ flat_map (λ i, [i; i; i]) (seq 11 10) ++ [10%nat].

End Gate.

(** ** Properties of the object cache *)

(** ** The cache simulator

    [main] of the simulator [csim], once the command line is read: [s],
    [E] and [b] are the numbers of set index bits, of lines per set and of
    block offset bits, with [1 <= s <= 30], [1 <= E <= 30] and [1 <= b];
    the shifts are defined for [b + s < 64].
    The trace is the list of the lines as [sscanf] parsed them.  The
    counters and [curTime] are [int]s; they stay in range on a trace of
    fewer than [2^30] lines. *)

Module Csim.

(** [mask (i)], for [0 <= i < 64]. *)
Definition mask (i : Z) : Z := Mm.wrap64 (Z.shiftl 1 i - 1).

(** A line of the trace: [op], [address] (an [unsigned long long]) and
    [size]. *)
Record access := mk_access { op : ascii; address : Z; size : Z }.

(** The two arrays of arrays, the clock and the three counters. *)
Record sim := mk_sim {
  cacheTag : list (list Z);
  timeStamp : list (list Z);
  curTime : Z;
  misses : Z;
  hits : Z;
  evictions : Z
}.

Definition at_index (l : list Z) (i : nat) : Z := default 0 (l !! i).

(** The search of the set for the tag: [n] lines are left, from line [i]
    on. *)
Fixpoint search (n i : nat) (curSetTag curSetStamp : list Z) (tag : Z)
    : option nat :=
  match n with
  | O => None
  | S n' =>
      if negb (at_index curSetStamp i =? 0) && (at_index curSetTag i =? tag)
      then Some i
      else search n' (S i) curSetTag curSetStamp tag
  end.

(** The search for the least recently used line. *)
Fixpoint find_lru (n i lruIdx : nat) (curSetStamp : list Z) : nat :=
  match n with
  | O => lruIdx
  | S n' =>
      find_lru n' (S i)
        (if at_index curSetStamp i <=? at_index curSetStamp lruIdx
         then i else lruIdx)
        curSetStamp
  end.

Definition set_line (rows : list (list Z)) (setIndex : Z) (i : nat) (v : Z)
    : list (list Z) :=
  <[Z.to_nat setIndex := <[i := v]> (default [] (rows !! Z.to_nat setIndex))]>
    rows.

(** The set index and the tag of an address.  In the program the shifts
    and [mask] are defined for [b + s < 64] only, which the check of the
    arguments does not ensure. *)
Definition setIndex_of (s b : Z) (a : Z) : Z :=
  Z.land (Z.shiftr a b) (mask s).

Definition tag_of (s b : Z) (a : Z) : Z :=
  Z.land (Z.shiftr a (b + s)) (mask (64 - b - s)).

(** One round of the [while] loop: a line of the trace. *)
Definition simulate_line (s : Z) (E : nat) (b : Z) (st : sim) (l : access)
    : sim :=
  if Ascii.eqb (op l) "I" then st
  else
    let setIndex := setIndex_of s b (address l) in
    let curSetTag := default [] (cacheTag st !! Z.to_nat setIndex) in
    let curSetStamp := default [] (timeStamp st !! Z.to_nat setIndex) in
    let tag := tag_of s b (address l) in
    let st1 :=
      match search E 0 curSetTag curSetStamp tag with
      | Some tagIdx =>
          {| cacheTag := cacheTag st;
             timeStamp := set_line (timeStamp st) setIndex tagIdx (curTime st);
             curTime := curTime st;
             misses := misses st;
             hits := hits st + 1;
             evictions := evictions st |}
      | None =>
          let lruIdx := find_lru E 0 0 curSetStamp in
          {| cacheTag := set_line (cacheTag st) setIndex lruIdx tag;
             timeStamp := set_line (timeStamp st) setIndex lruIdx (curTime st);
             curTime := curTime st;
             misses := misses st + 1;
             hits := hits st;
             evictions :=
               if negb (at_index curSetStamp lruIdx =? 0)
               then evictions st + 1 else evictions st |}
      end in
    {| cacheTag := cacheTag st1;
       timeStamp := timeStamp st1;
       curTime := curTime st1 + 1;
       misses := misses st1;
       hits := if Ascii.eqb (op l) "M" then hits st1 + 1 else hits st1;
       evictions := evictions st1 |}.

(** The state before the first line: the rows of [cacheTag] come from
    [xmalloc] and hold whatever the memory held ([junk]); those of
    [timeStamp] come from [xcalloc]. *)
Definition start (s : Z) (E : nat) (junk : list (list Z)) : sim :=
  {| cacheTag := junk;
     timeStamp := replicate (Z.to_nat (Z.shiftl 1 s)) (replicate E 0);
     curTime := 1; misses := 0; hits := 0; evictions := 0 |}.

(** What [printSummary] is given. *)
Definition summary (st : sim) : Z * Z * Z := (hits st, misses st, evictions st).

Definition simulate (s : Z) (E : nat) (b : Z) (junk : list (list Z))
    (trace : list access) : Z * Z * Z :=
  summary (foldl (simulate_line s E b) (start s E junk) trace).

(** *** Vocabulary of the statements *)

(** The lines that are not instruction loads, and those that modify. *)
Definition data_lines (trace : list access) : list access :=
  List.filter (λ l, negb (Ascii.eqb (op l) "I")) trace.

Definition modify_lines (trace : list access) : list access :=
  List.filter (λ l, Ascii.eqb (op l) "M") trace.

(** [rows] has [2^s] rows of [E] entries. *)
Definition shaped (s : Z) (E : nat) (rows : list (list Z)) : Prop :=
  length rows = Z.to_nat (Z.shiftl 1 s) ∧
  Forall (λ r, length r = E) rows.

(** The tags of two runs agree wherever the stamp is not zero. *)
Definition agree (stamps tags1 tags2 : list (list Z)) : Prop :=
  ∀ k, length (default [] (tags1 !! k)) = length (default [] (tags2 !! k)) ∧
       ∀ i, at_index (default [] (stamps !! k)) i ≠ 0 →
            at_index (default [] (tags1 !! k)) i
            = at_index (default [] (tags2 !! k)) i.

Definition similar (st1 st2 : sim) : Prop :=
  timeStamp st1 = timeStamp st2 ∧ curTime st1 = curTime st2 ∧
  summary st1 = summary st2 ∧
  agree (timeStamp st1) (cacheTag st1) (cacheTag st2).

(** The trace [yi.trace] of the hand-out. *)
Definition yi_trace : list access :=
  [mk_access "L" 0x10 1; mk_access "M" 0x20 1; mk_access "L" 0x22 1;
   mk_access "S" 0x18 1; mk_access "L" 0x110 1; mk_access "L" 0x210 1;
   mk_access "M" 0x12 1].

End Csim.

(** * Properties *)

Module CacheProps.
Import Cache.

Section FindLRU.
Variable l : list web_data.

Lemma find_LRU_loop_inv n : ∀ i best,
  first_min_upto l i best →
  first_min_upto l (i + n) (find_LRU_loop l n i best).
Proof.
  induction n as [|n IH]; intros i best (Hlt & Hmin & Hfst); simpl.
  - replace (i + 0)%nat with i by lia. by repeat split.
  - replace (i + S n)%nat with (S i + n)%nat by lia.
    destruct (acc_at l i <? acc_at l best) eqn:E; apply IH.
    + apply Z.ltb_lt in E. repeat split; [lia| |].
      * intros j Hj. destruct (decide (j = i)) as [->|]; [lia|].
        specialize (Hmin j ltac:(lia)). lia.
      * intros j Hj. specialize (Hmin j ltac:(lia)). lia.
    + apply Z.ltb_ge in E. repeat split; [lia| |done].
      intros j Hj. destruct (decide (j = i)) as [->|]; [lia|].
      apply Hmin. lia.
Qed.
End FindLRU.

Lemma vector_find_LRU_spec V :
  (0 < length (arr V))%nat →
  ∃ i, vector_find_LRU V = Some i ∧
       first_min_upto (arr V) (length (arr V)) i.
Proof.
  intros Hne. unfold vector_find_LRU, vsize.
  destruct (0 <? Z.of_nat (length (arr V))) eqn:E;
    [|apply Z.ltb_ge in E; lia].
  eexists; split; [done|].
  pose proof (find_LRU_loop_inv (arr V) (length (arr V) - 1) 1 0) as H.
  replace (1 + (length (arr V) - 1))%nat with (length (arr V)) in H by lia.
  apply H. repeat split; [lia| |lia].
  intros j Hj. replace j with 0%nat by lia. lia.
Qed.

Lemma acc_at_lookup l i w : l !! i = Some w → acc_at l i = acc_time w.
Proof. unfold acc_at. by intros ->. Qed.

(** What one eviction does. *)
Lemma vector_evict_LRU_spec V :
  (0 < length (arr V))%nat →
  ∃ i w,
    arr V !! i = Some w ∧
    vector_evict_LRU V =
      Some (data_size w, {| arr := delete i (arr V); capacity := capacity V |}) ∧
    (∀ j w', arr V !! j = Some w' → acc_time w ≤ acc_time w') ∧
    (∀ j w', (j < i)%nat → arr V !! j = Some w' → acc_time w < acc_time w').
Proof.
  intros Hne.
  destruct (vector_find_LRU_spec V Hne) as (i & Hfind & Hlt & Hmin & Hfst).
  destruct (lookup_lt_is_Some_2 (arr V) i Hlt) as [w Hw].
  exists i, w. split; [done|]. split.
  - unfold vector_evict_LRU, vector_pop, vsize. rewrite Hfind, Hw. simpl.
    destruct (0 <? Z.of_nat (length (arr V))) eqn:E1;
      [|apply Z.ltb_ge in E1; lia].
    destruct (0 <=? Z.of_nat i) eqn:E2; [|apply Z.leb_gt in E2; lia].
    destruct (Z.of_nat i <? Z.of_nat (length (arr V))) eqn:E3;
      [|apply Z.ltb_ge in E3; lia].
    simpl. by rewrite Nat2Z.id.
  - split.
    + intros j w' Hj. pose proof (lookup_lt_Some _ _ _ Hj) as Hjl.
      specialize (Hmin j Hjl).
      by rewrite (acc_at_lookup _ _ _ Hw), (acc_at_lookup _ _ _ Hj) in Hmin.
    + intros j w' Hji Hj. specialize (Hfst j Hji).
      by rewrite (acc_at_lookup _ _ _ Hw), (acc_at_lookup _ _ _ Hj) in Hfst.
Qed.

Lemma vector_evict_LRU_empty V : arr V = [] → vector_evict_LRU V = None.
Proof. intros H. unfold vector_evict_LRU, vsize. by rewrite H. Qed.

Lemma total_size_app l1 l2 :
  total_size (l1 ++ l2) = total_size l1 + total_size l2.
Proof. induction l1 as [|w l1 IH]; simpl; [done|]. rewrite IH. lia. Qed.

Lemma total_size_delete l : ∀ i w,
  l !! i = Some w → total_size (delete i l) = total_size l - data_size w.
Proof.
  induction l as [|x l IH]; intros [|i] w H; simplify_eq/=; [lia|].
  rewrite (IH _ _ H). lia.
Qed.

(** The loop ends without a failed assertion when the running total is the
    sum of the sizes and the new object alone fits the budget. *)
Lemma evict_loop_total dataSize n : ∀ V,
  n = length (arr V) →
  dataSize ≤ MAX_CACHE_SIZE →
  Forall (λ w, 0 ≤ data_size w) (arr V) →
  ∃ V1, evict_loop n V (total_size (arr V)) dataSize
          = Some (V1, total_size (arr V1)) ∧
        Forall (λ w, 0 ≤ data_size w) (arr V1) ∧
        total_size (arr V1) + dataSize ≤ MAX_CACHE_SIZE.
Proof.
  induction n as [|n IH]; intros V Hn Hd Hpos; simpl;
    destruct (total_size (arr V) + dataSize >? MAX_CACHE_SIZE) eqn:E;
    rewrite Z.gtb_ltb in E.
  - destruct (arr V); [|done]. simpl in E. lia.
  - exists V. repeat split; [done|]. lia.
  - destruct (vector_evict_LRU_spec V ltac:(lia)) as (i & w & Hw & -> & _).
    rewrite <- (total_size_delete _ _ _ Hw).
    set (V' := {| arr := delete i (arr V); capacity := capacity V |}).
    destruct (IH V') as (V1 & H1 & H2 & H3); [| done | | by exists V1].
    + simpl. rewrite length_delete by eauto. lia.
    + simpl. by apply Forall_delete.
  - exists V. repeat split; [done|]. lia.
Qed.

Lemma total_size_nonneg l :
  Forall (λ w, 0 ≤ data_size w) l → 0 ≤ total_size l.
Proof. induction 1; simpl; lia. Qed.

Lemma vector_get_loop_sizes now website file port l :
  map data_size (fst (vector_get_loop now l website file port))
  = map data_size l.
Proof.
  induction l as [|w l IH]; simpl; [done|].
  destruct (web_data_equals w website file port); simpl; [done|].
  destruct (vector_get_loop now l website file port); simpl in *.
  by rewrite IH.
Qed.

Lemma total_size_map l : total_size l = foldr Z.add 0 (map data_size l).
Proof. induction l as [|w l IH]; simpl; [done|]. by rewrite IH. Qed.

Lemma vector_push_back_arr V w : arr (vector_push_back V w) = arr V ++ [w].
Proof. unfold vector_push_back. by destruct (vsize V =? capacity V). Qed.

Lemma cache_get_inv now C website file port :
  cache_inv C → cache_inv (fst (cache_get now C website file port)).
Proof.
  intros (Hs & Hpos & Hle). unfold cache_get, vector_get.
  pose proof (vector_get_loop_sizes now website file port (arr (items C))) as Hm.
  destruct (vector_get_loop now (arr (items C)) website file port) as [l r].
  simpl in *. unfold cache_inv; simpl.
  assert (total_size l = total_size (arr (items C))) as Ht
    by (by rewrite !total_size_map, Hm).
  rewrite Ht. repeat split; [done| |done].
  apply (proj1 (List.Forall_map data_size (λ z, 0 ≤ z) l)).
  rewrite Hm. by apply List.Forall_map.
Qed.

Lemma cache_insert_inv now C website file port data dataSize :
  cache_inv C → 0 ≤ dataSize ≤ MAX_CACHE_SIZE →
  ∃ C', cache_insert now C website file port data dataSize = Some C' ∧
        cache_inv C'.
Proof.
  intros (Hs & Hpos & Hle) Hd. unfold cache_insert. rewrite Hs.
  destruct (evict_loop_total dataSize _ (items C) eq_refl (proj2 Hd) Hpos)
    as (V1 & -> & Hpos1 & Hle1).
  eexists; split; [done|]. unfold cache_inv. cbn [items c_size].
  rewrite vector_push_back_arr, total_size_app. simpl.
  repeat split; [lia| |lia].
  apply Forall_app; split; [done|]. repeat constructor. simpl. lia.
Qed.

Lemma run_inv ops : ∀ C,
  cache_inv C → Forall op_fits ops →
  ∃ C', run C ops = Some C' ∧ cache_inv C'.
Proof.
  induction ops as [|o ops IH]; intros C HC Hops; simpl; [by exists C|].
  inversion Hops as [|? ? Ho Hops']; subst.
  destruct o as [now ws f p|now ws f p d ds]; simpl.
  - apply IH; [|done]. by apply cache_get_inv.
  - destruct (cache_insert_inv now C ws f p d ds HC Ho) as (C1 & -> & HC1).
    by apply IH.
Qed.

Lemma evict_loop_makes_room dataSize n : ∀ V size r,
  evict_loop n V size dataSize = Some r →
  makes_room dataSize (V, size) r ∧ snd r + dataSize ≤ MAX_CACHE_SIZE.
Proof.
  induction n as [|n IH]; intros V size r; simpl;
    destruct (size + dataSize >? MAX_CACHE_SIZE) eqn:E;
    rewrite Z.gtb_ltb in E.
  - done.
  - intros [= <-]. simpl. apply Z.ltb_ge in E. split; [by constructor|done].
  - apply Z.ltb_lt in E.
    destruct (decide (arr V = [])) as [Hnil|Hnil].
    { by rewrite vector_evict_LRU_empty. }
    destruct (vector_evict_LRU_spec V) as (i & w & Hw & -> & Hmin & Hfst).
    { destruct (arr V); [done|simpl; lia]. }
    intros Hr. destruct (IH _ _ _ Hr) as [Hs Hle]. split; [|done].
    eapply makes_room_evict; [lia| |exact Hs]. by repeat split.
  - intros [= <-]. simpl. apply Z.ltb_ge in E. split; [by constructor|done].
Qed.

(** Fuel beyond the number of entries changes nothing: the loop stops by
    itself, at the latest on the empty vector. *)
Lemma evict_loop_fuel dataSize k : ∀ n V size,
  n = length (arr V) →
  evict_loop (n + k) V size dataSize = evict_loop n V size dataSize.
Proof.
  intros n; induction n as [|n IH]; intros V size Hn.
  - destruct k as [|k]; simpl; [done|].
    destruct (size + dataSize >? MAX_CACHE_SIZE); [|done].
    rewrite vector_evict_LRU_empty; [done|]. by destruct (arr V).
  - simpl. destruct (size + dataSize >? MAX_CACHE_SIZE); [|done].
    destruct (vector_evict_LRU_spec V ltac:(lia)) as (i & w & Hw & -> & _).
    apply IH. simpl. rewrite length_delete by eauto. lia.
Qed.

(** *** Lookup *)

Lemma web_data_equals_true w website file port :
  web_data_equals w website file port = true ↔
  website = Some (Cache.website w) ∧ file = Some (Cache.file w) ∧
  port = Cache.port w.
Proof.
  unfold web_data_equals. destruct website as [s|], file as [f|];
    try (split; [done|intros (H1 & H2 & H3); discriminate]).
  rewrite !andb_true_iff, !String.eqb_eq, Z.eqb_eq. split.
  - by intros [[-> ->] ->].
  - by intros ([= ->] & [= ->] & ->).
Qed.

Lemma web_data_equals_stamp now w website file port :
  web_data_equals (web_data_update_acc_time now w) website file port
  = web_data_equals w website file port.
Proof. done. Qed.

Lemma vector_get_loop_spec now website file port l :
  match vector_get_loop now l website file port with
  | (l', Some r) =>
      ∃ i w, l !! i = Some w ∧
        web_data_equals w website file port = true ∧
        Forall (λ w', web_data_equals w' website file port = false) (take i l) ∧
        r = web_data_update_acc_time now w ∧
        l' = <[i := r]> l
  | (l', None) =>
      l' = l ∧ Forall (λ w', web_data_equals w' website file port = false) l
  end.
Proof.
  induction l as [|x l IH]; simpl; [done|].
  destruct (web_data_equals x website file port) eqn:E.
  - exists 0%nat, x. simpl. repeat split; done.
  - destruct (vector_get_loop now l website file port) as [l' [r|]].
    + destruct IH as (i & w & Hi & Hw & Hbefore & -> & ->).
      exists (S i), w. simpl. repeat split; try done. by constructor.
    + destruct IH as [-> Hall]. split; [done|by constructor].
Qed.

Lemma vector_get_loop_find now website file port l :
  snd (vector_get_loop now l website file port)
  = web_data_update_acc_time now <$> find_entry l website file port.
Proof.
  induction l as [|x l IH]; simpl; [done|].
  destruct (web_data_equals x website file port); [done|].
  by destruct (vector_get_loop now l website file port).
Qed.

Lemma cache_get_find now C website file port :
  snd (cache_get now C website file port)
  = (λ w, (data w, data_size w)) <$>
      find_entry (arr (items C)) website file port.
Proof.
  unfold cache_get, vector_get.
  pose proof (vector_get_loop_find now website file port (arr (items C))) as H.
  destruct (vector_get_loop now (arr (items C)) website file port) as [l r].
  simpl in *. rewrite H.
  by destruct (find_entry (arr (items C)) website file port).
Qed.

(** A lookup changes access times only, so the first match of any key
    keeps its bytes. *)
Lemma find_entry_after_get now l website file port ws f p :
  (λ w, (data w, data_size w)) <$>
    find_entry (fst (vector_get_loop now l website file port)) ws f p
  = (λ w, (data w, data_size w)) <$> find_entry l ws f p.
Proof.
  induction l as [|x l IH]; simpl; [done|].
  destruct (web_data_equals x website file port) eqn:E; simpl.
  - rewrite web_data_equals_stamp. by destruct (web_data_equals x ws f p).
  - destruct (vector_get_loop now l website file port) as [l' r]; simpl in *.
    by destruct (web_data_equals x ws f p).
Qed.

Lemma find_entry_app l x website file port w :
  find_entry l website file port = Some w →
  find_entry (l ++ [x]) website file port = Some w.
Proof.
  induction l as [|y l IH]; simpl; [done|].
  by destruct (web_data_equals y website file port).
Qed.

Lemma cache_insert_fits now C website file port data dataSize :
  c_size C + dataSize ≤ MAX_CACHE_SIZE →
  cache_insert now C website file port data dataSize
  = Some {| items := vector_push_back (items C)
                       (web_data_new now website file port data dataSize);
            c_size := c_size C + dataSize |}.
Proof.
  intros Hfit. unfold cache_insert.
  assert (evict_loop (length (arr (items C))) (items C) (c_size C) dataSize
          = Some (items C, c_size C)) as ->; [|done].
  destruct (length (arr (items C))); simpl;
    by destruct (c_size C + dataSize >? MAX_CACHE_SIZE) eqn:E;
      [rewrite Z.gtb_ltb in E; apply Z.ltb_lt in E; lia|].
Qed.

(** Operations that evict nothing keep the first match of a key. *)
Lemma run_keeps_first ws f p d : ∀ ops C C',
  no_evictions C ops →
  run C ops = Some C' →
  (λ w, (data w, data_size w)) <$> find_entry (arr (items C)) ws f p = Some d →
  (λ w, (data w, data_size w)) <$> find_entry (arr (items C')) ws f p = Some d.
Proof.
  induction ops as [|o ops IH]; intros C C' Hne Hrun Hfind; simpl in *.
  - by simplify_eq.
  - destruct Hne as [Hfit Hne].
    destruct o as [now ws' f' p'|now ws' f' p' dt ds]; simpl in *.
    + eapply IH; [exact Hne|exact Hrun|].
      unfold cache_get, vector_get.
      pose proof (find_entry_after_get now (arr (items C)) ws' f' p' ws f p) as H.
      destruct (vector_get_loop now (arr (items C)) ws' f' p') as [l r].
      simpl in *. by rewrite H.
    + rewrite cache_insert_fits in Hrun, Hne by done.
      eapply IH; [exact Hne|exact Hrun|]. cbn [items].
      rewrite vector_push_back_arr.
      destruct (find_entry (arr (items C)) ws f p) as [w|] eqn:E; [|done].
      by rewrite (find_entry_app _ _ _ _ _ _ E).
Qed.

Lemma is_LRU_unique l i w i' w' :
  is_LRU l i w → is_LRU l i' w' → i = i' ∧ w = w'.
Proof.
  intros (Hw & Hmin & Hfst) (Hw' & Hmin' & Hfst').
  assert (i = i') as <-.
  { destruct (Nat.lt_trichotomy i i') as [Hlt|[->|Hlt]]; [|done|].
    - specialize (Hfst' _ _ Hlt Hw). specialize (Hmin _ _ Hw'). lia.
    - specialize (Hfst _ _ Hlt Hw'). specialize (Hmin' _ _ Hw). lia. }
  split; [done|congruence].
Qed.

(** *** The claims about the cache *)

(** C3. Starting from the empty cache, after every prefix of a sequence of
    lookups and of inserts of objects of at most [MAX_CACHE_SIZE] bytes,
    no assertion has failed, the recorded total is the sum of the sizes of
    the cached objects, and that sum is at most [MAX_CACHE_SIZE]. *)
Theorem cache_total_within_budget (ops : list op) (k : nat) :
  Forall op_fits ops →
  ∃ C, run cache_new (take k ops) = Some C ∧
       c_size C = total_size (arr (items C)) ∧
       0 ≤ total_size (arr (items C)) ≤ MAX_CACHE_SIZE.
Proof.
  intros Hops.
  destruct (run_inv (take k ops) cache_new) as (C & HC & Hs & Hpos & Hle).
  - repeat split; [constructor|]. simpl. unfold MAX_CACHE_SIZE. lia.
  - by apply Forall_take.
  - exists C. repeat split; try done. by apply total_size_nonneg.
Qed.

Lemma cache_total_within_budget_witness :
  Forall op_fits test_ops ∧
  ∃ C, run cache_new (take 5 test_ops) = Some C ∧
       c_size C = total_size (arr (items C)) ∧
       0 ≤ total_size (arr (items C)) ≤ MAX_CACHE_SIZE.
Proof.
  assert (Forall op_fits test_ops) as H.
  { repeat constructor; unfold BIG, MAX_CACHE_SIZE; lia. }
  split; [exact H|]. exact (cache_total_within_budget test_ops 5 H).
Defined.

(** C4. When [cache_insert] returns, the entries that left the cache were
    evicted one per round while the total plus the new size exceeded the
    budget; each evicted entry had the least access time of the entries
    then present and was the first such entry in the scan; the rounds end
    once the total plus the new size fits, and the new entry is appended. *)
Theorem insert_evicts_least_recently_used
    now C website file port data dataSize C' :
  cache_insert now C website file port data dataSize = Some C' →
  ∃ V size,
    makes_room dataSize (items C, c_size C) (V, size) ∧
    size + dataSize ≤ MAX_CACHE_SIZE ∧
    C' = {| items := vector_push_back V
                       (web_data_new now website file port data dataSize);
            c_size := size + dataSize |}.
Proof.
  unfold cache_insert. intros H.
  destruct (evict_loop _ _ _ _) as [[V size]|] eqn:E; [|done].
  destruct (evict_loop_makes_room _ _ _ _ _ E) as [Hroom Hfit].
  exists V, size. by simplify_eq.
Qed.

Lemma insert_evicts_least_recently_used_witness :
  ∃ V size,
    makes_room BIG (items two_sites, c_size two_sites) (V, size) ∧
    size + BIG ≤ MAX_CACHE_SIZE ∧
    {| items := {| arr := [web_data_new 2 youtube "/" 80 (large_string x31) BIG;
                           web_data_new 3 google "/" 80 (large_string x32) BIG];
                   capacity := 5 |};
       c_size := 2 * BIG |}
    = {| items := vector_push_back V
                    (web_data_new 3 google "/" 80 (large_string x32) BIG);
         c_size := size + BIG |}.
Proof.
  apply (insert_evicts_least_recently_used 3 two_sites google "/" 80
           (large_string x32) BIG).
  cbv -[large_string take Z.to_nat]. reflexivity.
Defined.

(** C7. A lookup either hits the first entry whose website and file equal
    the given strings and whose port equals the given port, sets the
    access time of that entry (and of no other) to the clock reading of
    the call, leaves its other fields as they were, and returns its data
    and size; or it finds no such entry, returns nothing and leaves the
    cache, every access time included, as it was. *)
Theorem lookup_stamps_first_match now C website file port :
  (∃ i w,
      arr (items C) !! i = Some w ∧
      website = Some (Cache.website w) ∧ file = Some (Cache.file w) ∧
      port = Cache.port w ∧
      Forall (λ w', web_data_equals w' website file port = false)
        (take i (arr (items C))) ∧
      cache_get now C website file port =
        ({| items :=
              {| arr := <[i := {| Cache.website := Cache.website w;
                                  Cache.file := Cache.file w;
                                  Cache.port := Cache.port w;
                                  data := data w;
                                  data_size := data_size w;
                                  acc_time := now |}]>
                          (arr (items C));
                 capacity := capacity (items C) |};
            c_size := c_size C |},
         Some (data w, data_size w)) ∧
      acc_time
        <$> arr (items (fst (cache_get now C website file port))) !! i
        = Some now ∧
      ∀ j, j ≠ i →
        arr (items (fst (cache_get now C website file port))) !! j
        = arr (items C) !! j)
  ∨ (Forall (λ w', web_data_equals w' website file port = false)
       (arr (items C)) ∧
     cache_get now C website file port = (C, None)).
Proof.
  unfold cache_get, vector_get.
  pose proof (vector_get_loop_spec now website file port (arr (items C))) as H.
  destruct (vector_get_loop now (arr (items C)) website file port)
    as [l [r|]].
  - left. destruct H as (i & w & Hi & Hw & Hbefore & -> & ->).
    apply web_data_equals_true in Hw as (-> & -> & ->).
    exists i, w. cbn [fst items arr].
    split; [done|]. split; [done|]. split; [done|]. split; [done|].
    split; [done|]. split; [done|]. split.
    + rewrite list_lookup_insert_eq by (by eapply lookup_lt_Some). done.
    + intros j Hj. by rewrite list_lookup_insert_ne.
  - right. destruct H as [-> Hall]. split; [done|].
    by destruct C as [[? ?] ?].
Qed.

(** On the cache of the scenario a lookup of [youtube] at clock reading 5
    hits slot 1 and leaves 5 there. *)
Lemma lookup_stamps_first_match_witness :
  ∃ i w,
    arr (items two_sites) !! i = Some w ∧
    snd (cache_get 5 two_sites (Some youtube) (Some "/"%string) 80)
      = Some (data w, data_size w) ∧
    acc_time
      <$> arr (items (fst (cache_get 5 two_sites (Some youtube)
                             (Some "/"%string) 80))) !! i
      = Some 5.
Proof.
  destruct (lookup_stamps_first_match 5 two_sites (Some youtube)
              (Some "/"%string) 80)
    as [(i & w & Hi & _ & _ & _ & _ & Hget & Hstamp & _)|[Hmiss _]].
  - exists i, w. split; [exact Hi|]. split; [by rewrite Hget|exact Hstamp].
  - exfalso. apply Forall_cons_1 in Hmiss as [_ Hmiss].
    apply Forall_cons_1 in Hmiss as [Hmiss _]. discriminate Hmiss.
Defined.

Lemma evict_loop_sublist dataSize n : ∀ V size V' size',
  evict_loop n V size dataSize = Some (V', size') →
  arr V' `sublist_of` arr V.
Proof.
  induction n as [|n IH]; intros V size V' size'; simpl;
    destruct (size + dataSize >? MAX_CACHE_SIZE); try done;
    try (by intros [= <- <-]).
  destruct (decide (arr V = [])) as [Hnil|Hnil].
  { by rewrite vector_evict_LRU_empty. }
  destruct (vector_evict_LRU_spec V) as (i & w & Hw & -> & _).
  { destruct (arr V); [done|simpl; lia]. }
  intros H. apply IH in H. simpl in H.
  etrans; [exact H|]. apply sublist_delete.
Qed.

(** C10, amended. An insert under the key of a cached entry never
    replaces or updates that entry in place: whenever [cache_insert]
    returns, the array is what is left of the old array after the
    evictions, the same entries in the same order, followed by the new
    entry.  When the new object fits without eviction, nothing is removed,
    so the cache holds two entries with that key; from then on, as long as
    no insert has to evict, every lookup of the key returns the bytes and
    the size of the entry that was inserted first.  (Sizes are byte
    counts, [0 <= dataSize].) *)
Theorem duplicate_key_first_entry_wins
    now C website file port data dataSize w0 :
  find_entry (arr (items C)) (Some website) (Some file) port = Some w0 →
  0 ≤ dataSize →
  (∀ C',
     cache_insert now C website file port data dataSize = Some C' →
     ∃ kept,
       kept `sublist_of` arr (items C) ∧
       arr (items C')
         = kept ++ [web_data_new now website file port data dataSize]) ∧
  (c_size C + dataSize ≤ MAX_CACHE_SIZE →
   ∃ C',
     cache_insert now C website file port data dataSize = Some C' ∧
     arr (items C')
       = arr (items C) ++ [web_data_new now website file port data dataSize] ∧
     web_data_equals (web_data_new now website file port data dataSize)
       (Some website) (Some file) port = true ∧
     ∀ ops C'' now',
       no_evictions C' ops → run C' ops = Some C'' →
       snd (cache_get now' C'' (Some website) (Some file) port)
       = Some (Cache.data w0, data_size w0)).
Proof.
  intros Hfind Hsize. split.
  { intros C'. unfold cache_insert.
    destruct (evict_loop _ _ _ _) as [[V size]|] eqn:E; [|done].
    intros [= <-]. exists (arr V). split; [by eapply evict_loop_sublist|].
    cbn [items]. apply vector_push_back_arr. }
  intros Hfit. eexists. split; [by apply cache_insert_fits|].
  cbn [items]. rewrite vector_push_back_arr. split; [done|]. split.
  { apply web_data_equals_true. by repeat split. }
  intros ops C'' now' Hne Hrun. rewrite cache_get_find.
  eapply run_keeps_first; [exact Hne|exact Hrun|].
  cbn [items]. rewrite vector_push_back_arr.
  by rewrite (find_entry_app _ _ _ _ _ _ Hfind).
Qed.

Lemma duplicate_key_first_entry_wins_witness :
  find_entry (arr (items one_site)) (Some google) (Some "/"%string) 80
    = Some (web_data_new 1 google "/" 80 (large_string x31) BIG) ∧
  0 ≤ BIG ∧
  c_size one_site + BIG ≤ MAX_CACHE_SIZE ∧
  ∃ C',
    cache_insert 2 one_site google "/" 80 (large_string x32) BIG = Some C' ∧
    arr (items C')
      = arr (items one_site)
        ++ [web_data_new 2 google "/" 80 (large_string x32) BIG] ∧
    web_data_equals (web_data_new 2 google "/" 80 (large_string x32) BIG)
      (Some google) (Some "/"%string) 80 = true ∧
    ∀ ops C'' now',
      no_evictions C' ops → run C' ops = Some C'' →
      snd (cache_get now' C'' (Some google) (Some "/"%string) 80)
      = Some (Cache.data (web_data_new 1 google "/" 80 (large_string x31) BIG),
              data_size (web_data_new 1 google "/" 80 (large_string x31) BIG)).
Proof.
  assert (find_entry (arr (items one_site)) (Some google) (Some "/"%string) 80
          = Some (web_data_new 1 google "/" 80 (large_string x31) BIG)) as H1
    by reflexivity.
  assert (0 ≤ BIG) as H0 by (unfold BIG; lia).
  assert (c_size one_site + BIG ≤ MAX_CACHE_SIZE) as H2
    by (unfold one_site, BIG, MAX_CACHE_SIZE; simpl; lia).
  split; [exact H1|]. split; [exact H0|]. split; [exact H2|].
  exact (proj2 (duplicate_key_first_entry_wins 2 one_site google "/" 80
                  (large_string x32) BIG _ H1 H0) H2).
Defined.

Lemma large_string_head b : hd x00 (take (Z.to_nat BIG) (large_string b)) = b.
Proof.
  unfold large_string. rewrite take_replicate, Nat.min_id.
  replace (Z.to_nat BIG) with (S (Z.to_nat (BIG - 1)))
    by (unfold BIG; lia).
  done.
Qed.

(** C10 as stated fails when the insert itself has to make room: with
    google.com (the least recently used entry) and youtube.com cached, a
    second insert under google.com's key evicts the first google.com entry;
    the cache then holds one entry with that key, and a lookup returns the
    bytes of the entry inserted last. *)
Lemma duplicate_key_eviction_counterexample :
  find_entry (arr (items two_sites)) (Some google) (Some "/"%string) 80
    = Some (web_data_new 1 google "/" 80 (large_string x31) BIG) ∧
  ∃ C',
    cache_insert 3 two_sites google "/" 80 (large_string x32) BIG = Some C' ∧
    length (List.filter
              (λ w, web_data_equals w (Some google) (Some "/"%string) 80)
              (arr (items C'))) = 1%nat ∧
    snd (cache_get 4 C' (Some google) (Some "/"%string) 80)
      = Some (take (Z.to_nat BIG) (large_string x32), BIG) ∧
    take (Z.to_nat BIG) (large_string x32)
      ≠ take (Z.to_nat BIG) (large_string x31).
Proof.
  split; [reflexivity|]. eexists. split.
  { cbv -[large_string take Z.to_nat]. reflexivity. }
  split; [reflexivity|]. split; [reflexivity|].
  intros H. apply (f_equal (hd x00)) in H.
  rewrite !large_string_head in H. discriminate.
Qed.

(** *** Further properties of the cache *)

(** [cache_insert] only removes entries and appends the new one: the
    entries that stay keep their order, their bytes and their access
    times. *)
Theorem insert_keeps_survivors now C website file port data dataSize C' :
  cache_insert now C website file port data dataSize = Some C' →
  ∃ kept,
    kept `sublist_of` arr (items C) ∧
    arr (items C')
      = kept ++ [web_data_new now website file port data dataSize].
Proof.
  unfold cache_insert.
  destruct (evict_loop _ _ _ _) as [[V size]|] eqn:E; [|done].
  intros [= <-]. exists (arr V). split; [by eapply evict_loop_sublist|].
  cbn [items]. apply vector_push_back_arr.
Qed.

Lemma insert_keeps_survivors_witness :
  ∃ kept,
    kept `sublist_of` arr (items two_sites) ∧
    [web_data_new 2 youtube "/" 80 (large_string x31) BIG;
     web_data_new 3 google "/" 80 (large_string x32) BIG]
      = kept ++ [web_data_new 3 google "/" 80 (large_string x32) BIG].
Proof.
  apply (insert_keeps_survivors 3 two_sites google "/" 80 (large_string x32)
           BIG {| items := {| arr := _; capacity := 5 |};
                  c_size := 2 * BIG |}).
  cbv -[large_string take Z.to_nat]. reflexivity.
Defined.

Lemma find_entry_none l website file port :
  find_entry l website file port = None ↔
  Forall (λ w, web_data_equals w website file port = false) l.
Proof.
  induction l as [|x l IH]; simpl; [by split|].
  destruct (web_data_equals x website file port) eqn:E.
  - split; [done|]. inversion 1; congruence.
  - rewrite IH. split; [by constructor|by inversion 1].
Qed.

Lemma find_entry_app_none l x website file port :
  find_entry l website file port = None →
  find_entry (l ++ [x]) website file port
  = if web_data_equals x website file port then Some x else None.
Proof.
  induction l as [|y l IH]; simpl; [done|].
  by destruct (web_data_equals y website file port).
Qed.

Lemma find_after_insert now now' C website file port data dataSize C' :
  find_entry (arr (items C)) (Some website) (Some file) port = None →
  cache_insert now C website file port data dataSize = Some C' →
  snd (cache_get now' C' (Some website) (Some file) port)
  = Some (take (Z.to_nat dataSize) data, dataSize).
Proof.
  intros Hnone Hins. unfold cache_insert in Hins.
  destruct (evict_loop _ _ _ _) as [[V size]|] eqn:E; [|done].
  injection Hins as <-.
  pose proof (evict_loop_sublist _ _ _ _ _ _ E) as Hsub.
  rewrite cache_get_find. cbn [items]. rewrite vector_push_back_arr.
  rewrite find_entry_app_none.
  - assert (web_data_equals (web_data_new now website file port data dataSize)
              (Some website) (Some file) port = true) as ->; [|done].
    apply web_data_equals_true. by repeat split.
  - apply find_entry_none. apply find_entry_none in Hnone.
    apply Forall_forall. intros w Hw.
    apply (proj1 (Forall_forall _ _) Hnone).
    by eapply elem_of_sublist.
Qed.

(** Insert, then look up: when no entry with the key is cached, a lookup
    after a successful insert returns the [dataSize] bytes that were
    inserted, whatever the insert had to evict. *)
Theorem lookup_after_insert now now' C website file port data dataSize C' :
  find_entry (arr (items C)) (Some website) (Some file) port = None →
  cache_insert now C website file port data dataSize = Some C' →
  snd (cache_get now' C' (Some website) (Some file) port)
  = Some (take (Z.to_nat dataSize) data, dataSize).
Proof. apply find_after_insert. Qed.

Lemma lookup_after_insert_witness :
  find_entry (arr (items two_sites)) (Some "www.youtube2.com"%string)
    (Some "/"%string) 80 = None ∧
  snd (cache_get 9
         {| items := {| arr := [web_data_new 2 youtube "/" 80
                                  (large_string x31) BIG;
                                web_data_new 3 "www.youtube2.com" "/" 80
                                  (large_string x32) BIG];
                        capacity := 5 |};
            c_size := 2 * BIG |}
         (Some "www.youtube2.com"%string) (Some "/"%string) 80)
  = Some (take (Z.to_nat BIG) (large_string x32), BIG).
Proof.
  assert (find_entry (arr (items two_sites)) (Some "www.youtube2.com"%string)
            (Some "/"%string) 80 = None) as H by reflexivity.
  split; [exact H|].
  apply (lookup_after_insert 3 9 two_sites "www.youtube2.com" "/" 80
           (large_string x32) BIG _ H).
  cbv -[large_string take Z.to_nat]. reflexivity.
Defined.

(** A lookup changes what no lookup returns: after a lookup of any key, a
    lookup of any key finds the bytes it would have found before, and the
    recorded total and the number of entries are the same. *)
Theorem lookup_does_not_disturb now1 now2 C ws1 f1 p1 ws2 f2 p2 :
  let C1 := fst (cache_get now1 C ws1 f1 p1) in
  snd (cache_get now2 C1 ws2 f2 p2) = snd (cache_get now2 C ws2 f2 p2) ∧
  c_size C1 = c_size C ∧
  length (arr (items C1)) = length (arr (items C)).
Proof.
  simpl. rewrite !cache_get_find. unfold cache_get, vector_get.
  pose proof (find_entry_after_get now1 (arr (items C)) ws1 f1 p1 ws2 f2 p2)
    as Hf.
  pose proof (vector_get_loop_sizes now1 ws1 f1 p1 (arr (items C))) as Hs.
  destruct (vector_get_loop now1 (arr (items C)) ws1 f1 p1) as [l r].
  simpl in *. split; [done|]. split; [done|].
  apply (f_equal length) in Hs. by rewrite !length_map in Hs.
Qed.

Lemma find_entry_first l website file port : ∀ i w,
  l !! i = Some w → web_data_equals w website file port = true →
  Forall (λ w', web_data_equals w' website file port = false) (take i l) →
  find_entry l website file port = Some w.
Proof.
  induction l as [|x l IH]; intros [|i] w Hi Hw Hb; simplify_eq/=.
  - by rewrite Hw.
  - inversion Hb as [|? ? Hx Hb']; subst. rewrite Hx. by eapply IH.
Qed.

Lemma find_entry_delete_other l website file port : ∀ i j w,
  l !! i = Some w → web_data_equals w website file port = true →
  Forall (λ w', web_data_equals w' website file port = false) (take i l) →
  j ≠ i →
  find_entry (delete j l) website file port = Some w.
Proof.
  induction l as [|x l IH]; intros [|i] [|j] w Hi Hw Hb Hij;
    simplify_eq/=.
  - by rewrite Hw.
  - inversion Hb; subst. by eapply find_entry_first.
  - inversion Hb as [|? ? Hx Hb']; subst. rewrite Hx.
    eapply IH; [done..|lia].
Qed.

(** A hit protects an entry from the next eviction: when the clock reading
    of the lookup is later than every access time in the cache and the
    cache holds at least two entries, the eviction that follows removes
    another entry, and a later lookup of the key finds the same bytes. *)
Theorem recently_used_survives now now' C website file port d :
  snd (cache_get now C website file port) = Some d →
  Forall (λ w, acc_time w < now) (arr (items C)) →
  (2 ≤ length (arr (items C)))%nat →
  ∃ freed V',
    vector_evict_LRU (items (fst (cache_get now C website file port)))
      = Some (freed, V') ∧
    snd (cache_get now' {| items := V'; c_size := c_size C - freed |}
           website file port) = Some d.
Proof.
  unfold cache_get at 1 2, vector_get.
  pose proof (vector_get_loop_spec now website file port (arr (items C))) as H.
  destruct (vector_get_loop now (arr (items C)) website file port)
    as [l' [r|]]; [|done].
  destruct H as (i & w & Hi & Hw & Hbefore & -> & ->).
  cbn [fst snd items]. intros [= <-] Hold Hlen.
  set (V1 := {| arr := <[i:=web_data_update_acc_time now w]> (arr (items C));
                capacity := capacity (items C) |}).
  destruct (vector_evict_LRU_spec V1) as (j & wj & Hj & Hev & Hmin & _).
  { simpl. rewrite length_insert. lia. }
  simpl in Hj, Hev, Hmin.
  assert (j ≠ i) as Hji.
  { intros ->.
    pose proof (lookup_lt_Some _ _ _ Hi) as Hil.
    rewrite list_lookup_insert_eq in Hj by done. injection Hj as <-.
    set (m := if decide (i = 0%nat) then 1%nat else 0%nat).
    assert (m ≠ i ∧ (m < length (arr (items C)))%nat) as [Hmi Hml].
    { unfold m. case_decide; lia. }
    destruct (lookup_lt_is_Some_2 _ _ Hml) as [wm Hwm].
    specialize (Hmin m wm).
    rewrite list_lookup_insert_ne in Hmin by done.
    specialize (Hmin Hwm). simpl in Hmin.
    pose proof (proj1 (Forall_forall _ _) Hold wm) as Hlt.
    assert (wm ∈ arr (items C)) as Hin
      by (apply list_elem_of_lookup; eauto).
    specialize (Hlt Hin). simpl in Hlt. lia. }
  eexists _, _. split; [exact Hev|].
  rewrite cache_get_find. cbn [items arr].
  rewrite (find_entry_delete_other _ _ _ _ i j
             (web_data_update_acc_time now w)); [done| | | |exact Hji].
  - apply list_lookup_insert_eq. by eapply lookup_lt_Some.
  - by rewrite web_data_equals_stamp.
  - by rewrite take_insert_ge by lia.
Qed.

Lemma recently_used_survives_witness :
  snd (cache_get 5 two_sites (Some google) (Some "/"%string) 80)
    = Some (take (Z.to_nat BIG) (large_string x31), BIG) ∧
  Forall (λ w, acc_time w < 5) (arr (items two_sites)) ∧
  (2 ≤ length (arr (items two_sites)))%nat ∧
  ∃ freed V',
    vector_evict_LRU
      (items (fst (cache_get 5 two_sites (Some google) (Some "/"%string) 80)))
      = Some (freed, V') ∧
    snd (cache_get 6 {| items := V'; c_size := c_size two_sites - freed |}
           (Some google) (Some "/"%string) 80)
    = Some (take (Z.to_nat BIG) (large_string x31), BIG).
Proof.
  assert (snd (cache_get 5 two_sites (Some google) (Some "/"%string) 80)
          = Some (take (Z.to_nat BIG) (large_string x31), BIG)) as H1
    by reflexivity.
  assert (Forall (λ w, acc_time w < 5) (arr (items two_sites))) as H2
    by (repeat constructor; simpl; lia).
  assert (2 ≤ length (arr (items two_sites)))%nat as H3 by (simpl; lia).
  split; [exact H1|]. split; [exact H2|]. split; [exact H3|].
  exact (recently_used_survives 5 6 two_sites _ _ _ _ H1 H2 H3).
Defined.

(** *** The array of the vector *)

Lemma vector_push_back_alt V w :
  vector_push_back V w
  = {| arr := arr (push_target V) ++ [w];
       capacity := capacity (push_target V) |}.
Proof. done. Qed.

Lemma vec_inv_push V w :
  vec_inv V →
  vsize V < capacity (push_target V) ∧ vec_inv (vector_push_back V w).
Proof.
  intros [Hle Hcap]. rewrite vector_push_back_alt.
  unfold push_target, vector_resize. unfold vec_inv, vsize in *. simpl.
  destruct (Z.eqb_spec (Z.of_nat (length (arr V))) (capacity V));
    simpl; rewrite length_app; simpl; lia.
Qed.

Lemma evict_loop_capacity dataSize n : ∀ V size V' size',
  evict_loop n V size dataSize = Some (V', size') →
  capacity V' = capacity V.
Proof.
  induction n as [|n IH]; intros V size V' size'; simpl;
    destruct (size + dataSize >? MAX_CACHE_SIZE); try done;
    try (by intros [= <- <-]).
  destruct (decide (arr V = [])) as [Hnil|Hnil].
  { by rewrite vector_evict_LRU_empty. }
  destruct (vector_evict_LRU_spec V) as (i & w & Hw & -> & _).
  { destruct (arr V); [done|simpl; lia]. }
  intros H. by apply IH in H.
Qed.

Lemma step_vec_inv C o C' :
  vec_inv (items C) → step C o = Some C' → vec_inv (items C').
Proof.
  intros [Hle Hcap]. destruct o as [now ws f p|now ws f p d ds]; simpl.
  - intros [= <-]. unfold cache_get, vector_get.
    pose proof (vector_get_loop_sizes now ws f p (arr (items C))) as Hs.
    apply (f_equal length) in Hs. rewrite !length_map in Hs.
    destruct (vector_get_loop now (arr (items C)) ws f p) as [l r].
    unfold vec_inv, vsize in *. simpl in *. by rewrite Hs.
  - unfold cache_insert.
    destruct (evict_loop _ _ _ _) as [[V size]|] eqn:E; [|done].
    intros [= <-]. cbn [items]. apply vec_inv_push.
    pose proof (evict_loop_capacity _ _ _ _ _ _ E) as Hc.
    pose proof (sublist_length _ _ (evict_loop_sublist _ _ _ _ _ _ E)) as Hl.
    unfold vec_inv, vsize in *. lia.
Qed.

(** From [cache_new] on, whatever is looked up and inserted, the entries
    fit the array ([size <= capacity]), and the slot that the next
    [vector_push_back] writes lies inside the array it writes to. *)
Theorem vector_stays_in_bounds ops C :
  run cache_new ops = Some C →
  vec_inv (items C) ∧
  vsize (items C) < capacity (push_target (items C)).
Proof.
  assert (∀ ops C0 C, vec_inv (items C0) → run C0 ops = Some C →
                      vec_inv (items C)) as Hrun.
  { clear. induction ops as [|o ops IH]; intros C0 C H0; simpl.
    - by intros [= <-].
    - destruct (step C0 o) as [C1|] eqn:E; [|done].
      apply IH. by eapply step_vec_inv. }
  intros H.
  assert (vec_inv (items C)) as HC.
  { eapply Hrun; [|exact H]. unfold vec_inv, vsize. simpl. lia. }
  split; [done|].
  apply (vec_inv_push _ (web_data_new 0 "" "" 0 [] 0)). done.
Qed.

Lemma vector_stays_in_bounds_witness :
  ∃ C,
    run cache_new six_inserts = Some C ∧
    vec_inv (items C) ∧
    vsize (items C) < capacity (push_target (items C)).
Proof.
  eexists. split; [reflexivity|].
  exact (vector_stays_in_bounds six_inserts _ eq_refl).
Defined.

(** *** An object larger than the budget *)

Lemma evict_loop_oversize dataSize n : ∀ V,
  n = length (arr V) →
  MAX_CACHE_SIZE < dataSize →
  Forall (λ w, 0 ≤ data_size w) (arr V) →
  evict_loop n V (total_size (arr V)) dataSize = None.
Proof.
  induction n as [|n IH]; intros V Hn Hd Hpos; simpl;
    pose proof (total_size_nonneg _ Hpos);
    (destruct (Z.gtb_spec (total_size (arr V) + dataSize) MAX_CACHE_SIZE);
     [|lia]); [done|].
  destruct (vector_evict_LRU_spec V ltac:(lia)) as (i & w & Hw & -> & _).
  rewrite <- (total_size_delete _ _ _ Hw).
  apply (IH {| arr := delete i (arr V); capacity := capacity V |}); simpl.
  - rewrite length_delete by eauto. lia.
  - done.
  - by apply Forall_delete.
Qed.

(** [cache_insert] of an object larger than [MAX_CACHE_SIZE] does not
    return: the loop evicts every entry and then calls [vector_evict_LRU]
    on the empty vector, whose assertion fails. *)
Theorem oversize_insert_aborts now C website file port data dataSize :
  cache_inv C → MAX_CACHE_SIZE < dataSize →
  cache_insert now C website file port data dataSize = None.
Proof.
  intros (Hs & Hpos & _) Hd. unfold cache_insert. rewrite Hs.
  by rewrite evict_loop_oversize.
Qed.

Lemma oversize_insert_aborts_witness :
  cache_inv cache_new ∧ MAX_CACHE_SIZE < MAX_CACHE_SIZE + 1 ∧
  cache_insert 1 cache_new google "/" 80 [] (MAX_CACHE_SIZE + 1) = None.
Proof.
  assert (cache_inv cache_new) as H1.
  { repeat split; [constructor|]. simpl. unfold MAX_CACHE_SIZE. lia. }
  assert (MAX_CACHE_SIZE < MAX_CACHE_SIZE + 1) as H2 by lia.
  split; [exact H1|]. split; [exact H2|].
  exact (oversize_insert_aborts 1 cache_new google "/" 80 [] _ H1 H2).
Defined.

End CacheProps.

Module ProxyProps.
Import Proxy.

Example forward_two_hosts :
  forward_request (λ _, true) "index.html" "a.example" two_hosts
  = Some [ request_line "index.html"; host_hdr "a.example";
           host_hdr "b.example";
           user_agent_hdr; accept_hdr; accept_encoding_hdr; connect_hdr;
           proxy_connect_hdr; CRLF ].
Proof. reflexivity. Qed.













Lemma host_hdr_header name n :
  is_header n (host_hdr name) = (strcasecmp "Host" n =? 0).
Proof. done. Qed.

Section Forwarding.
Variable rio_writen_ok : string → bool.




End Forwarding.




(** *** The claim about the forwarded headers *)








(** *** Parsing the request URI *)

Example uri_examples :
  map get_uri_info
    ["http://www.cmu.edu:8080/hub/index.html"; "http://www.cmu.edu/a:b";
     "www.cmu.edu"; "www.cmu.edu:81"; "a.com/go?u=http://b.com/y"]%string
  = [("www.cmu.edu", "hub/index.html", 8080); ("www.cmu.edu", "a:b", 80);
     ("www.cmu.edu", "", 80); ("www.cmu.edu", "", 81);
     ("b.com", "y", 80)]%string.
Proof. reflexivity. Qed.

Lemma avoids_cons bad c r :
  avoids bad (String c r) = true →
  Forall (λ b, Ascii.eqb c b = false) bad ∧ avoids bad r = true.
Proof.
  simpl. rewrite andb_true_iff, negb_true_iff. intros [Hc Hr].
  split; [|done]. apply Forall_forall. intros b Hb.
  destruct (Ascii.eqb c b) eqn:E; [|done].
  assert (existsb (Ascii.eqb c) bad = true); [|congruence].
  apply existsb_exists. exists b. split; [|done]. by apply list_elem_of_In.
Qed.

Lemma avoids_weaken bad bad' s :
  forallb (λ b, existsb (Ascii.eqb b) bad) bad' = true →
  avoids bad s = true → avoids bad' s = true.
Proof.
  intros Hsub. induction s as [|c r IH]; [done|]. intros H.
  apply avoids_cons in H as [Hc Hr]. simpl.
  rewrite IH by done. rewrite andb_true_r, negb_true_iff.
  destruct (existsb (Ascii.eqb c) bad') eqn:E; [|done].
  apply existsb_exists in E as (b & Hb & Hcb).
  apply Ascii.eqb_eq in Hcb as <-.
  pose proof (proj1 (forallb_forall _ _) Hsub c Hb) as Hin.
  apply existsb_exists in Hin as (b' & Hb' & Hcb').
  apply Ascii.eqb_eq in Hcb' as <-.
  apply list_elem_of_In in Hb'.
  pose proof (proj1 (Forall_forall _ _) Hc c Hb') as Hne. simpl in Hne.
  by rewrite Ascii.eqb_refl in Hne.
Qed.

Lemma cstr_avoids s : avoids [NUL] s = true → cstr s = s.
Proof.
  induction s as [|c r IH]; [done|]. intros H.
  apply avoids_cons in H as [Hc Hr]. inversion Hc as [|? ? H0 _]; subst.
  simpl. rewrite H0. by rewrite IH.
Qed.

Lemma cstr_app_avoids pre rest :
  avoids [NUL] pre = true → cstr (pre ++ rest) = (pre ++ cstr rest)%string.
Proof.
  induction pre as [|c r IH]; [done|]. intros H.
  apply avoids_cons in H as [Hc Hr]. inversion Hc as [|? ? H0 _]; subst.
  simpl. rewrite H0. by rewrite IH.
Qed.

Lemma strchr_found c pre rest :
  avoids [c; NUL] pre = true →
  strchr (pre ++ String c rest) c = Some (String.length pre).
Proof.
  induction pre as [|a r IH]; intros H.
  - simpl. by rewrite Ascii.eqb_refl.
  - apply avoids_cons in H as [Hc Hr].
    inversion Hc as [|? ? H1 Hc']; inversion Hc' as [|? ? H2 _]; subst.
    simpl. rewrite H1, H2, IH by done. done.
Qed.

Lemma strchr_past c d pre rest :
  avoids [c; NUL] pre = true →
  Ascii.eqb d c = false → Ascii.eqb d NUL = false →
  strchr (pre ++ String d rest) c
  = (λ k, (String.length pre + 1 + k)%nat) <$> strchr rest c.
Proof.
  intros Hpre Hdc Hd0. induction pre as [|a r IH].
  - simpl. rewrite Hdc, Hd0. by destruct (strchr rest c).
  - apply avoids_cons in Hpre as [Hc Hr].
    inversion Hc as [|? ? H1 Hc']; inversion Hc' as [|? ? H2 _]; subst.
    simpl. rewrite H1, H2, IH by done. by destruct (strchr rest c).
Qed.

Lemma strchr_absent c s : avoids [c] s = true → strchr s c = None.
Proof.
  induction s as [|a r IH]; [done|]. intros H.
  apply avoids_cons in H as [Hc Hr]. inversion Hc as [|? ? H1 _]; subst.
  simpl. rewrite H1, IH by done. by destruct (Ascii.eqb a NUL).
Qed.

Lemma substring_prefix pre rest :
  substring 0 (String.length pre) (pre ++ rest) = pre.
Proof.
  induction pre as [|a r IH]; simpl; [by destruct rest|]. by rewrite IH.
Qed.

Lemma skip_prefix pre rest : skip (String.length pre) (pre ++ rest) = rest.
Proof. induction pre as [|a r IH]; simpl; [done|]. exact IH. Qed.

Lemma skip_add n m s : skip (n + m) s = skip m (skip n s).
Proof.
  revert s. induction n as [|n IH]; intros s; simpl; [done|].
  destruct s; [by destruct m|]. apply IH.
Qed.

Lemma string_app_assoc (a b c : string) :
  ((a ++ b) ++ c = a ++ (b ++ c))%string.
Proof.
  induction a as [|x a IH]; [done|].
  change (String x ((a ++ b) ++ c) = String x (a ++ (b ++ c)))%string.
  by f_equal.
Qed.

Lemma string_app_nil_r (a : string) : (a ++ "")%string = a.
Proof.
  induction a as [|x a IH]; [done|].
  change (String x (a ++ "") = String x a)%string. by f_equal.
Qed.

Lemma string_app_length (a b : string) :
  String.length (a ++ b) = (String.length a + String.length b)%nat.
Proof.
  induction a as [|x a IH]; [done|].
  change (S (String.length (a ++ b))
          = S (String.length a + String.length b)). by f_equal.
Qed.

Lemma strstr_found pre rest :
  avoids [":"%char; NUL] pre = true →
  strstr (pre ++ "://" ++ rest) "://" = Some (String.length pre).
Proof.
  induction pre as [|a r IH]; intros H; [reflexivity|].
  apply avoids_cons in H as [Hc Hr].
  inversion Hc as [|? ? H1 Hc']; inversion Hc' as [|? ? H2 _]; subst.
  change ((String a r ++ "://" ++ rest)%string)
    with (String a (r ++ "://" ++ rest)%string).
  cbn [strstr starts_with]. rewrite Ascii.eqb_sym, H1. cbn [andb].
  rewrite H2, IH by done. done.
Qed.

Lemma strstr_absent s :
  avoids [":"%char] s = true → strstr s "://" = None.
Proof.
  induction s as [|a r IH]; [done|]. intros H.
  apply avoids_cons in H as [Hc Hr]. inversion Hc as [|? ? H1 _]; subst.
  cbn [strstr starts_with]. rewrite Ascii.eqb_sym, H1. cbn [andb].
  rewrite IH by done. by destruct (Ascii.eqb a NUL).
Qed.

(** [get_website] keeps what follows the first ["://"] of the URI,
    whatever precedes it (a scheme, or a host and the start of a path), so
    [get_uri_info] reads host, port and path from there; a URI without
    colon is read from its start. *)
Theorem uri_read_after_first_marker pre rest :
  avoids [":"%char; NUL] pre = true →
  get_uri_info (pre ++ "://" ++ rest) = split_website rest ∧
  (avoids [":"%char] rest = true → get_uri_info rest = split_website rest).
Proof.
  intros Hpre. unfold get_uri_info, get_website. split.
  - rewrite strstr_found by done.
    rewrite skip_add, skip_prefix. done.
  - intros Hrest. by rewrite strstr_absent.
Qed.

Lemma uri_read_after_first_marker_witness :
  avoids [":"%char; NUL] "a.com/go?u=http" = true ∧
  get_uri_info ("a.com/go?u=http" ++ "://" ++ "b.com/y")
    = split_website "b.com/y".
Proof.
  assert (avoids [":"%char; NUL] "a.com/go?u=http" = true) as H
    by reflexivity.
  split; [exact H|].
  exact (proj1 (uri_read_after_first_marker "a.com/go?u=http" "b.com/y" H)).
Defined.

Lemma avoids_app bad a b :
  avoids bad (a ++ b) = avoids bad a && avoids bad b.
Proof.
  induction a as [|x a IH]; [done|].
  change (avoids bad (String x (a ++ b)%string)
          = avoids bad (String x a) && avoids bad b).
  simpl. by rewrite IH, andb_assoc.
Qed.

Lemma isdigit_plain c :
  isdigit c = true →
  isspace c = false ∧ Ascii.eqb c ":" = false ∧ Ascii.eqb c "/" = false ∧
  Ascii.eqb c NUL = false.
Proof.
  destruct c as [[] [] [] [] [] [] [] []]; try discriminate;
    intros _; repeat split.
Qed.

Lemma all_digits_avoids ds :
  all_digits ds = true → avoids [":"%char; "/"%char; NUL] ds = true.
Proof.
  induction ds as [|c r IH]; [done|]. simpl.
  rewrite andb_true_iff. intros [Hc Hr].
  destruct (isdigit_plain c Hc) as (_ & H1 & H2 & H3).
  rewrite H1, H2, H3. simpl. by apply IH.
Qed.

Lemma atoi_digits_slash ds rest : ∀ acc,
  all_digits ds = true →
  atoi_digits (ds ++ String "/" rest) acc = atoi_digits ds acc.
Proof.
  induction ds as [|c r IH]; intros acc; [done|]. simpl.
  rewrite andb_true_iff. intros [Hc Hr].
  change (atoi_digits (String c (r ++ String "/" rest)%string) acc
          = atoi_digits (String c r) acc).
  simpl. rewrite Hc. by apply IH.
Qed.

Lemma strtol_slash ds rest :
  all_digits ds = true → strtol (ds ++ String "/" rest) = strtol ds.
Proof.
  destruct ds as [|c r]; [done|]. intros H.
  pose proof H as H'. simpl in H'. apply andb_true_iff in H' as [Hc Hr].
  change (strtol (String c (r ++ String "/" rest)%string)
          = strtol (String c r)).
  unfold strtol. cbn [skip_spaces].
  destruct (isdigit_plain c Hc) as [-> _].
  assert (atoi_digits (String c (r ++ String "/" rest)%string) 0
          = atoi_digits (String c r) 0) as Hd
    by (apply (atoi_digits_slash (String c r)); done).
  destruct c as [[] [] [] [] [] [] [] []]; try discriminate; by rewrite Hd.
Qed.

(** [atoi] stops at the slash that ends the port. *)
Lemma atoi_slash ds rest :
  all_digits ds = true → atoi (ds ++ String "/" rest) = atoi ds.
Proof. intros H. unfold atoi. by rewrite strtol_slash. Qed.

Example atoi_examples :
  map atoi ["8080"; " 42"; "-7"; "99999999999"; "99999999999999999999"]%string
  = [8080; 42; -7; 1215752191; -1].
Proof. reflexivity. Qed.

Lemma skip_all (s : string) : skip (String.length s) s = ""%string.
Proof. induction s as [|a r IH]; [done|]. exact IH. Qed.

Lemma split_website_text host port path :
  avoids [":"%char; "/"%char; NUL] host = true →
  (∀ ds, port = Some ds → all_digits ds = true) →
  (∀ p, path = Some p → avoids [NUL] p = true) →
  split_website (website_text host port path)
  = (host, default ""%string path,
     match port with Some ds => atoi ds | None => 80 end).
Proof.
  intros Hhost Hport Hpath.
  assert (avoids [":"%char; NUL] host = true) as Hh1
    by (eapply avoids_weaken; [|exact Hhost]; reflexivity).
  assert (avoids ["/"%char; NUL] host = true) as Hh2
    by (eapply avoids_weaken; [|exact Hhost]; reflexivity).
  assert (avoids [NUL] host = true) as Hh0
    by (eapply avoids_weaken; [|exact Hhost]; reflexivity).
  unfold website_text, split_website.
  destruct port as [ds|], path as [p|].
  - (* host:port/path *)
    specialize (Hport ds eq_refl). specialize (Hpath p eq_refl).
    pose proof (all_digits_avoids ds Hport) as Hds.
    assert (avoids ["/"%char; NUL] ds = true) as Hd2
      by (eapply avoids_weaken; [|exact Hds]; reflexivity).
    change ((host ++ (":" ++ ds) ++ "/" ++ p)%string)
      with ((host ++ String ":" (ds ++ String "/" p))%string).
    rewrite strchr_found by done.
    rewrite (strchr_past "/" ":" host) by done.
    rewrite strchr_found by done. cbn [fmap option_fmap option_map].
    destruct (Z.ltb_spec 0
                (Z.of_nat (String.length host + 1 + String.length ds)
                 - Z.of_nat (String.length host))); [|lia].
    rewrite substring_prefix.
    rewrite (skip_add (String.length host) 1), skip_prefix. cbn [skip].
    rewrite atoi_slash by done.
    replace (String.length host + 1 + String.length ds + 1)%nat
      with (String.length host + (1 + (String.length ds + 1)))%nat by lia.
    rewrite skip_add, skip_prefix. cbn [skip Nat.add].
    rewrite (skip_add (String.length ds) 1), skip_prefix. cbn [skip].
    by rewrite cstr_avoids.
  - (* host:port *)
    specialize (Hport ds eq_refl).
    pose proof (all_digits_avoids ds Hport) as Hds.
    assert (avoids ["/"%char] (host ++ String ":" ds) = true) as Hno.
    { rewrite avoids_app, andb_true_iff. split.
      - eapply avoids_weaken; [|exact Hhost]. reflexivity.
      - change (avoids ["/"%char] ds = true).
        eapply avoids_weaken; [|exact Hds]. reflexivity. }
    assert (avoids [NUL] (host ++ String ":" ds) = true) as Hno0.
    { rewrite avoids_app, andb_true_iff. split; [done|].
      change (avoids [NUL] ds = true).
      eapply avoids_weaken; [|exact Hds]. reflexivity. }
    change ((host ++ (":" ++ ds) ++ "")%string)
      with ((host ++ String ":" (ds ++ ""))%string).
    rewrite string_app_nil_r.
    rewrite strchr_found by done. rewrite strchr_absent by done.
    rewrite cstr_avoids by done.
    rewrite string_app_length. cbn [String.length].
    destruct (Z.ltb_spec 0
                (Z.of_nat (String.length host + S (String.length ds))
                 - Z.of_nat (String.length host))); [|lia].
    rewrite string_app_assoc, substring_prefix.
    rewrite (skip_add (String.length host) 1), skip_prefix. cbn [skip].
    change ((String ":" ds ++ "/")%string) with (String ":" (ds ++ "/")%string).
    cbn [skip]. rewrite atoi_slash by done.
    replace (String.length host + S (String.length ds) + 1)%nat
      with (String.length host + (1 + (String.length ds + 1)))%nat by lia.
    rewrite skip_add, skip_prefix. cbn [skip Nat.add].
    rewrite (skip_add (String.length ds) 1), skip_prefix. done.
  - (* host/path *)
    specialize (Hpath p eq_refl).
    change ((host ++ "" ++ "/" ++ p)%string)
      with ((host ++ String "/" p)%string).
    rewrite (strchr_past ":" "/" host) by done.
    rewrite strchr_found by done.
    rewrite (skip_add (String.length host) 1), skip_prefix. cbn [skip].
    rewrite cstr_avoids by done. rewrite substring_prefix.
    destruct (strchr p ":") as [k|]; cbn [fmap option_fmap option_map];
      [|done].
    destruct (Z.ltb_spec 0
                (Z.of_nat (String.length host)
                 - Z.of_nat (String.length host + 1 + k))); [lia|done].
  - (* host *)
    change ((host ++ "" ++ "")%string) with ((host ++ "")%string).
    rewrite string_app_nil_r.
    rewrite !strchr_absent
      by (eapply avoids_weaken; [|exact Hhost]; reflexivity).
    rewrite cstr_avoids by done. rewrite substring_prefix.
    rewrite (skip_add (String.length host) 1), skip_prefix. done.
Qed.

(** [get_uri_info] on a URI with a scheme, [scheme://host[:port][/path]]:
    the name is the host, the directory is the path without its leading
    slash (empty when there is none), and the port is [atoi] of the digits
    after the colon, 80 when there is none; a colon or a ["://"] inside the
    path changes nothing.  Without the scheme the same holds when the text
    holds no ["://"]. *)
Theorem split_website_parts scheme host port path :
  avoids [":"%char; NUL] scheme = true →
  avoids [":"%char; "/"%char; NUL] host = true →
  (∀ ds, port = Some ds → all_digits ds = true) →
  (∀ p, path = Some p → avoids [NUL] p = true) →
  get_uri_info (scheme ++ "://" ++ website_text host port path)
  = (host, default ""%string path,
     match port with Some ds => atoi ds | None => 80 end) ∧
  (strstr (website_text host port path) "://" = None →
   get_uri_info (website_text host port path)
   = (host, default ""%string path,
      match port with Some ds => atoi ds | None => 80 end)).
Proof.
  intros Hscheme Hhost Hport Hpath.
  rewrite <- (split_website_text host port path Hhost Hport Hpath).
  unfold get_uri_info, get_website. split.
  - rewrite strstr_found by done. by rewrite skip_add, skip_prefix.
  - by intros ->.
Qed.

Lemma split_website_parts_witness :
  avoids [":"%char; NUL] "http" = true ∧
  avoids [":"%char; "/"%char; NUL] "www.cmu.edu" = true ∧
  get_uri_info
    ("http" ++ "://"
     ++ website_text "www.cmu.edu" (Some "8080"%string)
          (Some "hub/a?u=http://b.com/y"%string))
  = ("www.cmu.edu"%string, "hub/a?u=http://b.com/y"%string, atoi "8080").
Proof.
  assert (avoids [":"%char; NUL] "http" = true) as H0 by reflexivity.
  assert (avoids [":"%char; "/"%char; NUL] "www.cmu.edu" = true) as H
    by reflexivity.
  split; [exact H0|]. split; [exact H|].
  apply (split_website_parts "http" "www.cmu.edu" (Some "8080"%string)
           (Some "hub/a?u=http://b.com/y"%string) H0 H).
  - intros ds [= <-]. reflexivity.
  - intros p [= <-]. reflexivity.
Defined.

(** *** Moving the response *)

Section Streaming.
Variable MAXLINE : Z.
Variable client_write_ok : list byte → bool.

(** The loop of [web_to_client] on a response read and written without
    error, from a side buffer that is not poisoned. *)
Lemma web_to_client_loop_ok chunks : ∀ sent copied,
  Forall (λ c, c ≠ []) chunks →
  Forall (λ c, client_write_ok c = true) chunks →
  Z.of_nat (length copied) ≤ Cache.MAX_OBJECT_SIZE →
  ∃ copied' size',
    web_to_client_loop client_write_ok (map Some chunks) sent (Some copied)
      (Z.of_nat (length copied))
    = Some (true, sent ++ chunks, Some copied', size') ∧
    Z.of_nat (length copied') ≤ Cache.MAX_OBJECT_SIZE ∧
    (if Z.of_nat (length (copied ++ concat chunks)) <=? Cache.MAX_OBJECT_SIZE
     then copied' = copied ++ concat chunks ∧
          size' = Z.of_nat (length copied')
     else size' = -1).
Proof.
  assert (∀ chunks sent copied,
            Forall (λ c, c ≠ []) chunks →
            Forall (λ c, client_write_ok c = true) chunks →
            web_to_client_loop client_write_ok (map Some chunks) sent
              (Some copied) (-1)
            = Some (true, sent ++ chunks, Some copied, -1)) as Hpoisoned.
  { clear. induction chunks as [|c chunks IH]; intros sent copied Hne Hok;
      simpl; [by rewrite app_nil_r|].
    inversion Hne as [|? ? Hc Hne']; inversion Hok as [|? ? Hw Hok']; subst.
    destruct (Z.eqb_spec (Z.of_nat (length c)) 0) as [E|_].
    { destruct c; [done|simpl in E; lia]. }
    rewrite Hw. simpl. rewrite IH by done. by rewrite <- app_assoc. }
  induction chunks as [|c chunks IH]; intros sent copied Hne Hok Hfit; simpl.
  - exists copied, (Z.of_nat (length copied)). rewrite !app_nil_r.
    split; [done|]. split; [done|].
    by destruct (Z.leb_spec (Z.of_nat (length copied)) Cache.MAX_OBJECT_SIZE);
      [|lia].
  - inversion Hne as [|? ? Hc Hne']; inversion Hok as [|? ? Hw Hok']; subst.
    destruct (Z.eqb_spec (Z.of_nat (length c)) 0) as [E|_].
    { destruct c; [done|simpl in E; lia]. }
    rewrite Hw. simpl.
    destruct (Z.eqb_spec (Z.of_nat (length copied)) (-1)); [lia|]. simpl.
    rewrite <- Nat2Z.inj_add, <- length_app.
    destruct (Z.leb_spec (Z.of_nat (length (copied ++ c)))
                Cache.MAX_OBJECT_SIZE) as [Hle|Hgt].
    + destruct (IH (sent ++ [c]) (copied ++ c) Hne' Hok' Hle)
        as (copied' & size' & -> & Hb & Hres).
      exists copied', size'. rewrite <- !app_assoc in *. by repeat split.
    + rewrite Hpoisoned by done. exists copied, (-1).
      rewrite <- app_assoc. split; [done|]. split; [done|].
      destruct (Z.leb_spec (Z.of_nat (length (copied ++ c ++ concat chunks)))
                  Cache.MAX_OBJECT_SIZE) as [Hle'|]; [|done].
      rewrite !length_app in *. lia.
Qed.

Lemma web_to_client_ok chunks now webStore name dir port :
  Forall (λ c, c ≠ []) chunks →
  Forall (λ c, client_write_ok c = true) chunks →
  web_to_client client_write_ok (Some []) (map Some chunks) now webStore
    name dir port
  = if Z.of_nat (length (concat chunks)) <=? Cache.MAX_OBJECT_SIZE
    then
      match Cache.cache_insert now webStore name dir port (concat chunks)
              (Z.of_nat (length (concat chunks))) with
      | Some C => Some (0, chunks, C)
      | None => None
      end
    else Some (0, chunks, webStore).
Proof.
  intros Hne Hok. unfold web_to_client.
  destruct (web_to_client_loop_ok chunks [] [] Hne Hok)
    as (copied' & size' & Hloop & Hb & Hres).
  { simpl. unfold Cache.MAX_OBJECT_SIZE. lia. }
  change (Z.of_nat (length (@nil byte))) with 0 in Hloop.
  cbn [app] in Hloop, Hres. rewrite Hloop.
  destruct (Z.of_nat (length (concat chunks)) <=? Cache.MAX_OBJECT_SIZE).
  - destruct Hres as [-> ->].
    destruct (Z.eqb_spec (Z.of_nat (length (concat chunks))) (-1)); [lia|].
    done.
  - by subst size'.
Qed.

(** [web_to_client] on a response that is read and written without error:
    the client receives every buffer, in order; a response of at most
    [MAX_OBJECT_SIZE] bytes is inserted into the cache whole, under the
    key of the request; a longer one leaves the cache as it was. *)
Theorem web_to_client_tee chunks now webStore name dir port :
  Forall (λ c, c ≠ []) chunks →
  Forall (λ c, client_write_ok c = true) chunks →
  web_to_client client_write_ok (Some []) (map Some chunks) now webStore
    name dir port
  = if Z.of_nat (length (concat chunks)) <=? Cache.MAX_OBJECT_SIZE
    then
      match Cache.cache_insert now webStore name dir port (concat chunks)
              (Z.of_nat (length (concat chunks))) with
      | Some C => Some (0, chunks, C)
      | None => None
      end
    else Some (0, chunks, webStore).
Proof. apply web_to_client_ok. Qed.

(** A failed read or a failed write to the client ends [web_to_client]
    with [-1] (or with a write through [NULL]) and never with an insert:
    whenever [web_to_client] returns [-1] the cache is as it was. *)
Lemma web_to_client_error cacheBuf reads now webStore name dir port sent C :
  web_to_client client_write_ok cacheBuf reads now webStore name dir port
    = Some (-1, sent, C) →
  C = webStore.
Proof.
  unfold web_to_client.
  destruct (web_to_client_loop _ _ _ _ _) as [[[[[] ?] ?] ?]|]; [| |done].
  - destruct (negb _); [|done].
    by destruct (Cache.cache_insert _ _ _ _ _ _ _).
  - by intros [= _ <-].
Qed.

Lemma take_take_drop {A} (l : list A) n m :
  take n l ++ take m (drop n l) = take (n + m) l.
Proof.
  revert l. induction n as [|n IH]; intros [|x l]; simpl; try done.
  - by rewrite take_nil.
  - by rewrite IH.
Qed.

(** The loop of [cache_to_client] when every write succeeds:
    [dataSize - dataTransfer] rounds move the bytes that are left. *)
Lemma cache_to_client_loop_ok dataSize n : ∀ data dataTransfer sent,
  0 < MAXLINE →
  (∀ c, client_write_ok c = true) →
  0 ≤ dataTransfer ≤ dataSize →
  dataSize - dataTransfer ≤ Z.of_nat n →
  dataSize - dataTransfer ≤ Z.of_nat (length data) →
  ∃ sent',
    cache_to_client_loop MAXLINE client_write_ok n data dataSize dataTransfer
      sent = Some (true, dataSize, sent ++ sent') ∧
    concat sent' = take (Z.to_nat (dataSize - dataTransfer)) data ∧
    Forall (λ c, 0 < Z.of_nat (length c) ≤ MAXLINE) sent'.
Proof.
  induction n as [|n IH]; intros data dataTransfer sent HM Hok Ht Hn Hd;
    simpl; destruct (Z.ltb_spec dataTransfer dataSize) as [Hlt|Hge];
    try lia.
  - exists []. rewrite app_nil_r.
    replace dataTransfer with dataSize by lia.
    by replace (dataSize - dataSize) with 0 by lia.
  - rewrite Hok. simpl.
    set (len := min MAXLINE (dataSize - dataTransfer)).
    assert (0 < len ≤ MAXLINE ∧ len ≤ dataSize - dataTransfer) as (Hl1 & Hl2).
    { unfold len, min. destruct (Z.ltb_spec MAXLINE (dataSize - dataTransfer));
        lia. }
    destruct (IH (drop (Z.to_nat len) data) (dataTransfer + len)
                (sent ++ [take (Z.to_nat len) data]) HM Hok)
      as (sent' & -> & Hcat & Hall); [lia| lia | rewrite length_drop; lia |].
    exists (take (Z.to_nat len) data :: sent').
    rewrite <- app_assoc. split; [done|]. split.
    + simpl. rewrite Hcat, take_take_drop. f_equal. lia.
    + constructor; [|done]. rewrite length_take. lia.
  - exists []. rewrite app_nil_r.
    replace dataTransfer with dataSize by lia.
    by replace (dataSize - dataSize) with 0 by lia.
Qed.

Lemma cache_to_client_sends_all_aux data :
  0 < MAXLINE → (∀ c, client_write_ok c = true) →
  ∃ sent,
    cache_to_client MAXLINE client_write_ok data (Z.of_nat (length data))
      = Returned 0 sent ∧
    concat sent = data.
Proof.
  intros HM Hok. unfold cache_to_client.
  destruct (cache_to_client_loop_ok (Z.of_nat (length data))
              (Z.to_nat (Z.of_nat (length data))) data 0 [] HM Hok)
    as (sent & -> & Hcat & Hall); [lia..|].
  exists sent. simpl. rewrite Z.eqb_refl. split; [done|].
  by rewrite Hcat, Z.sub_0_r, Nat2Z.id, firstn_all.
Qed.

(** [cache_to_client] sends exactly the [dataSize] bytes it is given, in
    buffers of at most [MAXLINE] bytes, and returns [0], when no write
    fails. *)
Theorem cache_to_client_sends_all data dataSize :
  0 < MAXLINE →
  (∀ c, client_write_ok c = true) →
  0 ≤ dataSize ≤ Z.of_nat (length data) →
  ∃ sent,
    cache_to_client MAXLINE client_write_ok data dataSize = Returned 0 sent ∧
    concat sent = take (Z.to_nat dataSize) data ∧
    Forall (λ c, 0 < Z.of_nat (length c) ≤ MAXLINE) sent.
Proof.
  intros HM Hok Hd. unfold cache_to_client.
  destruct (cache_to_client_loop_ok dataSize (Z.to_nat dataSize) data 0 []
              HM Hok) as (sent & -> & Hcat & Hall); [lia..|].
  exists sent. simpl. rewrite Z.eqb_refl. rewrite Z.sub_0_r in Hcat.
  by repeat split.
Qed.

(** A response fetched on a miss is what the next request for the same
    key receives: after [web_to_client] has streamed a response of at most
    [MAX_OBJECT_SIZE] bytes under a key that was not cached, [cache_get]
    finds exactly the bytes of that response, and [cache_to_client] sends
    them. *)
Theorem fetched_then_served chunks now now' webStore name dir port sent C :
  0 < MAXLINE →
  (∀ c, client_write_ok c = true) →
  Forall (λ c, c ≠ []) chunks →
  Z.of_nat (length (concat chunks)) ≤ Cache.MAX_OBJECT_SIZE →
  Cache.find_entry (Cache.arr (Cache.items webStore)) (Some name) (Some dir)
    port = None →
  web_to_client client_write_ok (Some []) (map Some chunks) now webStore
    name dir port = Some (0, sent, C) →
  sent = chunks ∧
  snd (Cache.cache_get now' C (Some name) (Some dir) port)
    = Some (concat chunks, Z.of_nat (length (concat chunks))) ∧
  ∃ sent',
    cache_to_client MAXLINE client_write_ok (concat chunks)
      (Z.of_nat (length (concat chunks))) = Returned 0 sent' ∧
    concat sent' = concat chunks.
Proof.
  intros HM Hok Hne Hsmall Hnew Hw.
  rewrite web_to_client_ok in Hw by (done || by apply Forall_forall).
  destruct (Z.leb_spec (Z.of_nat (length (concat chunks)))
              Cache.MAX_OBJECT_SIZE); [|lia].
  destruct (Cache.cache_insert _ _ _ _ _ _ _) as [C1|] eqn:Hins; [|done].
  injection Hw as <- <-. split; [done|]. split.
  - rewrite (CacheProps.find_after_insert _ _ _ _ _ _ _ _ _ Hnew Hins).
    by rewrite Nat2Z.id, firstn_all.
  - by apply cache_to_client_sends_all_aux.
Qed.

(** The loop of [web_to_client] over buffers that are read and written
    without error, whatever follows them. *)
Lemma web_to_client_loop_app chunks tl : ∀ sent copied size,
  Forall (λ c, c ≠ []) chunks →
  Forall (λ c, client_write_ok c = true) chunks →
  size = -1 ∨ size = Z.of_nat (length copied) →
  ∃ copied' size',
    web_to_client_loop client_write_ok (map Some chunks ++ tl) sent
      (Some copied) size
    = web_to_client_loop client_write_ok tl (sent ++ chunks) (Some copied')
        size' ∧
    (size' = -1 ∨ size' = Z.of_nat (length copied')).
Proof.
  induction chunks as [|c chunks IH]; intros sent copied size Hne Hok Hsize.
  - exists copied, size. by rewrite app_nil_r.
  - inversion Hne as [|? ? Hc Hne']; inversion Hok as [|? ? Hw Hok']; subst.
    cbn [map app web_to_client_loop].
    destruct (Z.eqb_spec (Z.of_nat (length c)) 0) as [E|_].
    { destruct c; [done|simpl in E; lia]. }
    rewrite Hw. cbn [negb].
    assert (∀ copied1 size1,
              size1 = -1 ∨ size1 = Z.of_nat (length copied1) →
              ∃ copied' size',
                web_to_client_loop client_write_ok (map Some chunks ++ tl)
                  (sent ++ [c]) (Some copied1) size1
                = web_to_client_loop client_write_ok tl (sent ++ c :: chunks)
                    (Some copied') size' ∧
                (size' = -1 ∨ size' = Z.of_nat (length copied'))) as Hnext.
    { intros copied1 size1 H1.
      destruct (IH (sent ++ [c]) copied1 size1 Hne' Hok' H1)
        as (copied' & size' & Heq & H').
      exists copied', size'. by rewrite <- app_assoc in Heq. }
    destruct (Z.eqb_spec size (-1)) as [->|Hs]; cbn [negb].
    + apply Hnext. by left.
    + destruct Hsize as [Hm | ->]; [done|].
      destruct (_ <=? _).
      * apply Hnext. right. rewrite length_app. lia.
      * apply Hnext. by left.
Qed.

(** A failed read or a failed write ends [web_to_client] at once: the
    buffers before the failure have been sent, the function returns [-1],
    and nothing is inserted into the cache. *)
Theorem web_to_client_failure chunks bad rest now webStore name dir port :
  Forall (λ c, c ≠ []) chunks →
  Forall (λ c, client_write_ok c = true) chunks →
  match bad with
  | None => True
  | Some c => c ≠ [] ∧ client_write_ok c = false
  end →
  web_to_client client_write_ok (Some []) (map Some chunks ++ bad :: rest)
    now webStore name dir port
  = Some (-1, chunks, webStore).
Proof.
  intros Hne Hok Hbad. unfold web_to_client.
  destruct (web_to_client_loop_app chunks (bad :: rest) [] [] 0 Hne Hok)
    as (copied' & size' & -> & _); [by right|].
  destruct bad as [c|]; cbn [web_to_client_loop app]; [|done].
  destruct Hbad as [Hc Hw].
  destruct (Z.eqb_spec (Z.of_nat (length c)) 0) as [E|_].
  { destruct c; [done|simpl in E; lia]. }
  by rewrite Hw.
Qed.

(** A [NULL] from the [malloc] of the side buffer is not checked: the
    first buffer of the response that is written to the client and fits
    [MAX_OBJECT_SIZE] is copied through the null pointer. *)
Theorem web_to_client_null_buffer buf reads now webStore name dir port :
  buf ≠ [] →
  client_write_ok buf = true →
  Z.of_nat (length buf) ≤ Cache.MAX_OBJECT_SIZE →
  web_to_client client_write_ok None (Some buf :: reads) now webStore name
    dir port = None.
Proof.
  intros Hne Hok Hfit. unfold web_to_client. simpl.
  destruct (Z.eqb_spec (Z.of_nat (length buf)) 0) as [E|_].
  { destruct buf; [done|simpl in E; lia]. }
  rewrite Hok. cbn [negb]. change (0 =? -1) with false. cbn [negb].
  rewrite Z.add_0_l.
  by destruct (Z.leb_spec (Z.of_nat (length buf)) Cache.MAX_OBJECT_SIZE);
    [|lia].
Qed.

End Streaming.

Lemma web_to_client_tee_witness :
  Forall (λ c, c ≠ []) two_chunks ∧
  Forall (λ c, (λ _ : list byte, true) c = true) two_chunks ∧
  web_to_client (λ _, true) (Some []) (map Some two_chunks) 1
    Cache.cache_new "a.example" "index.html" 80
  = if Z.of_nat (length (concat two_chunks)) <=? Cache.MAX_OBJECT_SIZE
    then
      match Cache.cache_insert 1 Cache.cache_new "a.example" "index.html" 80
              (concat two_chunks) (Z.of_nat (length (concat two_chunks))) with
      | Some C => Some (0, two_chunks, C)
      | None => None
      end
    else Some (0, two_chunks, Cache.cache_new).
Proof.
  assert (Forall (λ c : list byte, c ≠ []) two_chunks) as H1
    by (repeat constructor; discriminate).
  assert (Forall (λ c, (λ _ : list byte, true) c = true) two_chunks) as H2
    by (repeat constructor).
  split; [exact H1|]. split; [exact H2|].
  exact (web_to_client_tee (λ _, true) two_chunks 1 Cache.cache_new
           "a.example" "index.html" 80 H1 H2).
Defined.

Lemma web_to_client_failure_witness :
  Forall (λ c, c ≠ []) two_chunks ∧
  Forall (λ c, (λ c : list byte, negb (length c =? 1)%nat) c = true)
    two_chunks ∧
  ([x0a] ≠ [] ∧ (λ c : list byte, negb (length c =? 1)%nat) [x0a] = false) ∧
  web_to_client (λ c, negb (length c =? 1)%nat) (Some [])
    (map Some two_chunks ++ Some [x0a] :: [Some [x48; x54]]) 1
    Cache.cache_new "a.example" "index.html" 80
  = Some (-1, two_chunks, Cache.cache_new).
Proof.
  assert (Forall (λ c : list byte, c ≠ []) two_chunks) as H1
    by (repeat constructor; discriminate).
  assert (Forall (λ c, (λ c : list byte, negb (length c =? 1)%nat) c = true)
            two_chunks) as H2 by (repeat constructor).
  assert ([x0a] ≠ [] ∧
          (λ c : list byte, negb (length c =? 1)%nat) [x0a] = false) as H3
    by (split; [discriminate|reflexivity]).
  split; [exact H1|]. split; [exact H2|]. split; [exact H3|].
  exact (web_to_client_failure (λ c, negb (length c =? 1)%nat) two_chunks
           (Some [x0a]) [Some [x48; x54]] 1 Cache.cache_new "a.example"
           "index.html" 80 H1 H2 H3).
Defined.

Lemma web_to_client_null_buffer_witness :
  [x48] ≠ [] ∧ (λ _ : list byte, true) [x48] = true ∧
  Z.of_nat (length [x48]) ≤ Cache.MAX_OBJECT_SIZE ∧
  web_to_client (λ _, true) None [Some [x48]] 1 Cache.cache_new "a.example"
    "index.html" 80 = None.
Proof.
  assert ([x48] ≠ @nil byte) as H1 by discriminate.
  assert (Z.of_nat (length [x48]) ≤ Cache.MAX_OBJECT_SIZE) as H3
    by (vm_compute; discriminate).
  split; [exact H1|]. split; [reflexivity|]. split; [exact H3|].
  exact (web_to_client_null_buffer (λ _, true) [x48] [] 1 Cache.cache_new
           "a.example" "index.html" 80 H1 eq_refl H3).
Defined.

Lemma cache_to_client_sends_all_witness :
  0 < 2 ∧ (∀ c, (λ _ : list byte, true) c = true) ∧
  0 ≤ 4 ≤ Z.of_nat (length (concat two_chunks)) ∧
  ∃ sent,
    cache_to_client 2 (λ _, true) (concat two_chunks) 4 = Returned 0 sent ∧
    concat sent = take (Z.to_nat 4) (concat two_chunks) ∧
    Forall (λ c, 0 < Z.of_nat (length c) ≤ 2) sent.
Proof.
  assert (0 < 2) as H1 by lia.
  assert (∀ c, (λ _ : list byte, true) c = true) as H2 by reflexivity.
  assert (0 ≤ 4 ≤ Z.of_nat (length (concat two_chunks))) as H3
    by (simpl; lia).
  split; [exact H1|]. split; [exact H2|]. split; [exact H3|].
  exact (cache_to_client_sends_all 2 (λ _, true) (concat two_chunks) 4
           H1 H2 H3).
Defined.

Lemma fetched_then_served_witness :
  ∃ C,
    web_to_client (λ _, true) (Some []) (map Some two_chunks) 1
      Cache.cache_new "a.example" "index.html" 80
      = Some (0, two_chunks, C) ∧
    (two_chunks = two_chunks ∧
     snd (Cache.cache_get 2 C (Some "a.example"%string)
            (Some "index.html"%string) 80)
       = Some (concat two_chunks, Z.of_nat (length (concat two_chunks))) ∧
     ∃ sent',
       cache_to_client 2 (λ _, true) (concat two_chunks)
         (Z.of_nat (length (concat two_chunks))) = Returned 0 sent' ∧
       concat sent' = concat two_chunks).
Proof.
  eexists. 
  assert (0 < 2) as H1 by lia.
  assert (∀ c, (λ _ : list byte, true) c = true) as H2 by reflexivity.
  assert (Forall (λ c : list byte, c ≠ []) two_chunks) as H3
    by (repeat constructor; discriminate).
  assert (Z.of_nat (length (concat two_chunks)) ≤ Cache.MAX_OBJECT_SIZE)
    as H4 by (vm_compute; discriminate).
  assert (Cache.find_entry (Cache.arr (Cache.items Cache.cache_new))
            (Some "a.example"%string) (Some "index.html"%string) 80 = None)
    as H5 by reflexivity.
  split; [reflexivity|].
  exact (fetched_then_served 2 (λ _, true) two_chunks 1 2 Cache.cache_new
           "a.example" "index.html" 80 _ _ H1 H2 H3 H4 H5 eq_refl).
Defined.

End ProxyProps.

Module MmProps.
Import Mm.

Example ex_init : (wildPtr (fresh 100000), block_size (fresh 100000) 19,
   brk (fresh 100000)) = (19, 320, 400).
Proof. vm_compute. reflexivity. Qed.

Example ex_reuse :
  let '(h1, a) := malloc (limited 100000) (fresh 100000) 24 in
  let '(h2, b) := malloc (limited 100000) h1 24 in
  let h3 := free h2 a in
  let '(h4, c) := malloc (limited 100000) h3 24 in
  (a, b, c) = (Some 20, Some 28, Some 20).
Proof. vm_compute. reflexivity. Qed.

Example ex_reuse_big :
  let '(h1, a) := malloc (limited 100000) (fresh 100000) 3000 in
  let '(h2, b) := malloc (limited 100000) h1 3000 in
  let '(h3, c) := malloc (limited 100000) h2 3000 in
  let h4 := free h3 b in
  let '(h5, d) := malloc (limited 100000) h4 3000 in
  (b, d, sbrk_calls h5) = (Some 772, Some 772, [(3008,true);(3008,true);(2704,true);(400,true)]).
Proof. vm_compute. reflexivity. Qed.

Example ex_coalesce :
  let '(h1, a) := malloc (limited 100000) (fresh 100000) 24 in
  let '(h2, b) := malloc (limited 100000) h1 24 in
  let h3 := free h2 a in
  let h4 := free h3 b in
  (wildPtr h4, block_size h4 19, map (word h4) [0;1;2;3;18]) = (19, 320, [0;1;2;3;18]).
Proof. vm_compute. reflexivity. Qed.

Example ex_seven :
  chain 7 seven_in_bin8 8 (word seven_in_bin8 8)
    = [187; 161; 135; 109; 83; 57; 19] ∧
  map (block_size seven_in_bin8) [187; 161; 135; 109; 83; 57; 19]
    = [88; 88; 88; 88; 88; 88; 136] ∧
  wildPtr seven_in_bin8 = 213.
Proof. vm_compute. done. Qed.

(** *** Bins *)

Lemma wrap32_small z : 0 ≤ z < 2 ^ 32 → wrap32 z = z.
Proof. intros. unfold wrap32. by apply Z.mod_small. Qed.

(** C5. For every block size [s] of at least 16 (a [uint32_t]), [get_bin]
    is the bin table of the specification with [S = 8], [M = 2], [B = 8]:
    [s/8 - 2] below 80, [8 + (s - 80)/64] from 80 to below 208,
    [10 + (s - 208)/3072] from 208 to below 24784, and 18 from there on. *)
Theorem get_bin_table s :
  16 ≤ s < 2 ^ 32 →
  get_bin s = bin_index 8 2 8 s ∧
  (s < 80 → get_bin s = s / 8 - 2) ∧
  (80 ≤ s < 208 → get_bin s = 8 + (s - 80) / 64) ∧
  (208 ≤ s < 24784 → get_bin s = 10 + (s - 208) / 3072) ∧
  (24784 ≤ s → get_bin s = 18).
Proof.
  intros Hs.
  assert (get_bin s = bin_index 8 2 8 s) as Heq.
  { unfold get_bin, bin_index, SMALLBINS, MEDBINS, BIGBINS, wrap32.
    repeat match goal with
           | |- context [?a <? ?b] => destruct (Z.ltb_spec a b)
           end; try lia;
      rewrite Z.mod_small by (Z.div_mod_to_equations; lia);
      Z.div_mod_to_equations; lia. }
  split; [exact Heq|]. rewrite Heq. unfold bin_index.
  repeat split; intros H;
    repeat match goal with
           | |- context [?a <? ?b] => destruct (Z.ltb_spec a b)
           end; try lia; Z.div_mod_to_equations; lia.
Qed.

Lemma get_bin_table_witness :
  16 ≤ 3008 < 2 ^ 32 ∧ get_bin 3008 = bin_index 8 2 8 3008 ∧
  get_bin 3008 = 10 + (3008 - 208) / 3072.
Proof.
  assert (16 ≤ 3008 < 2 ^ 32) as H by lia.
  split; [exact H|]. split; [exact (proj1 (get_bin_table 3008 H))|].
  apply (get_bin_table 3008 H). lia.
Defined.

(** *** Bounded best fit *)

Lemma block_size_range h p : 0 ≤ block_size h p < 2 ^ 32.
Proof.
  unfold block_size.
  assert (Z.land (word h p) 0xFFFFFFF8
          = Z.land (word h p) 0xFFFFFFF8 mod 2 ^ 32) as ->.
  { rewrite <- Z.land_ones by lia. rewrite <- Z.land_assoc. done. }
  apply Z.mod_pos_bound. lia.
Qed.

Lemma best_so_far_step h size seen q best bestPtr :
  best_so_far h size seen best bestPtr →
  (if (block_size h q >=? size) && (block_size h q <=? best)
   then best_so_far h size (seen ++ [q]) (block_size h q) (Some q)
   else best_so_far h size (seen ++ [q]) best bestPtr).
Proof.
  pose proof (block_size_range h q) as Hq. intros Hinv.
  destruct (block_size h q >=? size) eqn:E1; simpl.
  - apply Z.geb_le in E1.
    destruct (block_size h q <=? best) eqn:E2;
      [apply Z.leb_le in E2|apply Z.leb_gt in E2].
    + repeat split; [apply elem_of_app; right; constructor|done|].
      apply Forall_app; split; [|by repeat constructor].
      destruct bestPtr as [p|]; simpl in Hinv.
      * destruct Hinv as (_ & -> & _ & Hall).
        eapply Forall_impl; [exact Hall|]. simpl. intros x Hx Hs.
        specialize (Hx Hs). lia.
      * destruct Hinv as [_ Hall].
        eapply Forall_impl; [exact Hall|]. simpl. intros; lia.
    + destruct bestPtr as [p|]; simpl in *.
      * destruct Hinv as (Hin & -> & Hfit & Hall).
        repeat split; [apply elem_of_app; by left|done|].
        apply Forall_app; split; [done|]. repeat constructor. lia.
      * destruct Hinv as [-> _]. lia.
  - rewrite Z.geb_leb in E1. apply Z.leb_gt in E1.
    destruct bestPtr as [p|]; simpl in *.
    + destruct Hinv as (Hin & -> & Hfit & Hall).
      repeat split; [apply elem_of_app; by left|done|].
      apply Forall_app; split; [done|]. repeat constructor. lia.
    + destruct Hinv as [-> Hall]. split; [done|].
      apply Forall_app; split; [done|]. by repeat constructor.
Qed.

(** The search ends in the state that describes all the blocks of the
    chain it walked. *)
Lemma best_fit_spec h start size n : ∀ curPtr seen best bestPtr,
  best_so_far h size seen best bestPtr →
  ∃ best',
    best_so_far h size (seen ++ chain n h start curPtr) best'
      (best_fit n h start size curPtr best bestPtr).
Proof.
  induction n as [|n IH]; intros curPtr seen best bestPtr Hinv; simpl.
  - exists best. by rewrite app_nil_r.
  - destruct (curPtr =? start); simpl.
    + exists best. by rewrite app_nil_r.
    + pose proof (best_so_far_step h size seen curPtr best bestPtr Hinv) as Hs.
      rewrite (cons_middle curPtr), app_assoc.
      destruct (_ && _); by apply IH.
Qed.

Lemma chain_length n h start : ∀ curPtr,
  (length (chain n h start curPtr) ≤ n)%nat.
Proof.
  induction n as [|n IH]; intros curPtr; simpl; [done|].
  destruct (curPtr =? start); simpl; [lia|]. specialize (IH (block_right h curPtr)). lia.
Qed.

Lemma place_ptr h ptr size : snd (place h ptr size) = ptr + 1.
Proof. unfold place. by destruct (_ >=? _). Qed.

(** C6. When [malloc] reaches a non-exact bin [b] whose list is not
    empty, the search looks at no more than the first six blocks of the
    list.  If one of them holds the padded request, the block placed into
    is one of them, holds the request, and is no larger than any examined
    block that holds it.  If none of the six does, the loop goes on with
    bin [b + 1] (the wilderness after the last bin), whatever the rest of
    the list contains. *)
Theorem bounded_best_fit ok h b size n :
  SMALLBINS ≤ b ≤ LISTZONE → word h b ≠ b →
  (length (examined h b) ≤ 6)%nat ∧
  match best_fit 6 h b size (word h b) 0xFFFFFFFF None with
  | Some p =>
      p ∈ examined h b ∧ size ≤ block_size h p ∧
      Forall (λ q, size ≤ block_size h q → block_size h p ≤ block_size h q)
        (examined h b) ∧
      malloc_bins ok (S n) h b size = (fst (place h p size), Some (p + 1))
  | None =>
      Forall (λ q, block_size h q < size) (examined h b) ∧
      malloc_bins ok (S n) h b size = malloc_bins ok n h (b + 1) size
  end.
Proof.
  intros [Hlo Hhi] Hne. split; [apply chain_length|].
  destruct (best_fit_spec h b size 6 (word h b) [] 0xFFFFFFFF None)
    as [best' Hinv]; [by split|].
  change ([] ++ chain 6 h b (word h b)) with (examined h b) in Hinv.
  assert (malloc_bins ok (S n) h b size =
          match list_alloc_best h b size with
          | (h', Some p) => (h', Some p)
          | (h', None) => malloc_bins ok n h' (b + 1) size
          end) as Hloop.
  { cbn [malloc_bins].
    destruct (Z.leb_spec b LISTZONE); [|lia].
    destruct (Z.eqb_spec (word h b) b); [done|]. cbn [negb].
    destruct (Z.ltb_spec b SMALLBINS); [lia|].
    by destruct (list_alloc_best h b size) as [h' [p|]]. }
  rewrite Hloop. unfold list_alloc_best.
  destruct (best_fit 6 h b size (word h b) 0xFFFFFFFF None) as [p|];
    simpl in Hinv.
  - destruct Hinv as (Hin & _ & Hfit & Hmin). repeat split; try done.
    pose proof (place_ptr h p size) as Hp.
    destruct (place h p size) as [h' q]. simpl in *. by subst.
  - by destruct Hinv as [_ Hall].
Qed.

Lemma bounded_best_fit_witness :
  SMALLBINS ≤ 8 ≤ LISTZONE ∧ word seven_in_bin8 8 ≠ 8 ∧
  (length (examined seven_in_bin8 8) ≤ 6)%nat ∧
  match best_fit 6 seven_in_bin8 8 128 (word seven_in_bin8 8) 0xFFFFFFFF None
  with
  | Some p =>
      p ∈ examined seven_in_bin8 8 ∧ 128 ≤ block_size seven_in_bin8 p ∧
      Forall (λ q, 128 ≤ block_size seven_in_bin8 q →
                   block_size seven_in_bin8 p ≤ block_size seven_in_bin8 q)
        (examined seven_in_bin8 8) ∧
      malloc_bins (limited 100000) 19 seven_in_bin8 8 128
      = (fst (place seven_in_bin8 p 128), Some (p + 1))
  | None =>
      Forall (λ q, block_size seven_in_bin8 q < 128)
        (examined seven_in_bin8 8) ∧
      malloc_bins (limited 100000) 19 seven_in_bin8 8 128
      = malloc_bins (limited 100000) 18 seven_in_bin8 9 128
  end.
Proof.
  assert (SMALLBINS ≤ 8 ≤ LISTZONE) as H1 by (vm_compute; split; discriminate).
  assert (word seven_in_bin8 8 ≠ 8) as H2 by (vm_compute; discriminate).
  split; [exact H1|]. split; [exact H2|].
  exact (bounded_best_fit (limited 100000) seven_in_bin8 8 128 18 H1 H2).
Defined.

(** The seventh block of bin 8 holds 136 bytes and is free, yet a request
    padded to 128 bytes is served from the wilderness. *)
Example seventh_block_is_skipped :
  examined seven_in_bin8 8 = [187; 161; 135; 109; 83; 57] ∧
  chain 7 seven_in_bin8 8 (word seven_in_bin8 8)
    = examined seven_in_bin8 8 ++ [19] ∧
  block_size seven_in_bin8 19 = 136 ∧ block_free seven_in_bin8 19 = 1 ∧
  padded 120 = 128 ∧ get_bin 128 = 8 ∧
  snd (malloc (limited 100000) seven_in_bin8 120)
    = Some (wildPtr seven_in_bin8 + 1).
Proof. vm_compute. done. Qed.

(** *** Failure of [malloc] *)

Lemma calls_list_insert h p : sbrk_calls (list_insert h p) = sbrk_calls h.
Proof. unfold list_insert. by destruct (_ =? _). Qed.

Lemma calls_list_delete h p : sbrk_calls (list_delete h p) = sbrk_calls h.
Proof. unfold list_delete. by destruct (_ <=? _), (_ >? _). Qed.

Lemma calls_place h p size :
  sbrk_calls (fst (place h p size)) = sbrk_calls h.
Proof.
  unfold place. destruct (_ >=? _); simpl;
    rewrite ?calls_list_insert; simpl; apply calls_list_delete.
Qed.

Lemma list_alloc_exact_outcome h start size :
  list_outcome h (list_alloc_exact h start size).
Proof.
  unfold list_alloc_exact. destruct (negb _); [|by left].
  pose proof (calls_place h (word h start) size) as Hc.
  destruct (place h (word h start) size) as [h' p]. right. by split.
Qed.

Lemma list_alloc_best_outcome h start size :
  list_outcome h (list_alloc_best h start size).
Proof.
  unfold list_alloc_best. destruct (best_fit _ _ _ _ _ _ _) as [p|]; [|by left].
  pose proof (calls_place h p size) as Hc.
  destruct (place h p size) as [h' q]. right. by split.
Qed.

Section Sbrk.
Variable mem_sbrk_ok : Z → Z → bool.

Lemma wild_alloc_outcome h size :
  sbrk_outcome h (wild_alloc mem_sbrk_ok h size).
Proof.
  unfold wild_alloc, wild_expand, wild_carve, sbrk_outcome.
  destruct (_ <? _); simpl; [|right; split; [done|by left]].
  set (inc := if _ <? CHUNKSIZE then CHUNKSIZE else _).
  assert (inc ≠ 0) as Hinc.
  { unfold inc, CHUNKSIZE.
    destruct (_ <? 400) eqn:E; [lia|apply Z.ltb_ge in E; lia]. }
  destruct (mem_sbrk_ok (brk h) inc); simpl.
  - destruct (Z.eqb_spec inc 0); [done|]. simpl.
    right. split; [done|]. right. by exists inc.
  - left. split; [done|]. by exists inc.
Qed.

Lemma malloc_bins_outcome n : ∀ h b size,
  sbrk_outcome h (malloc_bins mem_sbrk_ok n h b size).
Proof.
  induction n as [|n IH]; intros h b size; simpl;
    [apply wild_alloc_outcome|].
  destruct (b <=? LISTZONE); [|apply wild_alloc_outcome].
  destruct (negb _); [|apply IH].
  assert (list_outcome h
            (if b <? SMALLBINS then list_alloc_exact h b size
             else list_alloc_best h b size)) as Hl.
  { destruct (b <? SMALLBINS);
      [apply list_alloc_exact_outcome|apply list_alloc_best_outcome]. }
  destruct (if b <? SMALLBINS then _ else _) as [h' [p|]].
  - destruct Hl as [[? _]|[_ Hc]]; [done|].
    right. simpl in *. split; [done|by left].
  - destruct Hl as [[_ Hh]|[[? ?] _]]; [|done].
    simpl in Hh. subst h'. apply IH.
Qed.

(** The bound on the rounds of [malloc]'s loop is never what ends it:
    from a bin index on, [LISTZONE + 1] rounds reach the end of the
    directory, and more rounds change nothing. *)
Lemma malloc_bins_fuel k : ∀ n h b size,
  LISTZONE + 1 - b ≤ Z.of_nat n →
  malloc_bins mem_sbrk_ok (n + k) h b size
  = malloc_bins mem_sbrk_ok n h b size.
Proof.
  intros n. induction n as [|n IH]; intros h b size Hb.
  - destruct k as [|k]; simpl; [done|].
    destruct (Z.leb_spec b LISTZONE); [lia|done].
  - simpl. destruct (b <=? LISTZONE); [|done].
    destruct (negb _); [|apply IH; lia].
    destruct (if b <? SMALLBINS then _ else _) as [h' [p|]]; [done|].
    apply IH. lia.
Qed.

End Sbrk.

Lemma get_bin_nonneg size : 0 ≤ get_bin size.
Proof.
  unfold get_bin, wrap32.
  repeat match goal with
         | |- context [?a <? ?b] => destruct (Z.ltb_spec a b)
         end; try (apply Z.mod_pos_bound; lia).
  unfold SMALLBINS, MEDBINS, BIGBINS. lia.
Qed.

(** C1. [malloc (0)] returns [NULL]. For a request of [n > 0] bytes whose
    padded size leaves the 32-bit comparison of [wild_alloc] and [place]
    ([size + MINALLOC + HSIZE]) without wrap-around, that is for
    [n < 2^32 - 31], [malloc] returns [NULL] exactly when it called
    [mem_sbrk] and the call failed; a call that returns a pointer made no
    call of [mem_sbrk] or a successful one. *)
Theorem malloc_nil_iff_sbrk_fails mem_sbrk_ok h n :
  snd (malloc mem_sbrk_ok h 0) = None ∧
  (0 < n →
   n + HSIZE + ALIGNMENT - 1 + MINALLOC + HSIZE < 2 ^ 32 →
   padded n + MINALLOC + HSIZE < 2 ^ 32 ∧
   (snd (malloc mem_sbrk_ok h n) = None ↔
    ∃ inc, sbrk_calls (fst (malloc mem_sbrk_ok h n))
           = (inc, false) :: sbrk_calls h) ∧
   (is_Some (snd (malloc mem_sbrk_ok h n)) →
    sbrk_calls (fst (malloc mem_sbrk_ok h n)) = sbrk_calls h ∨
    ∃ inc, sbrk_calls (fst (malloc mem_sbrk_ok h n))
           = (inc, true) :: sbrk_calls h)).
Proof.
  split; [done|]. intros Hn Hbound.
  assert (padded n + MINALLOC + HSIZE < 2 ^ 32) as Hpad.
  { unfold padded, wrap32, wrap64, MINALLOC, HSIZE, ALIGNMENT in *.
    change (2 ^ 32) with 4294967296 in *.
    change (2 ^ 64) with 18446744073709551616.
    destruct (Z.leb_spec n 8); [lia|].
    rewrite (Z.mod_small (n + 8 + 8 - 1)) by lia.
    rewrite (Z.mod_small (_ * 8) 4294967296)
      by (Z.div_mod_to_equations; lia).
    Z.div_mod_to_equations; lia. }
  split; [exact Hpad|]. unfold malloc.
  destruct (Z.eqb_spec n 0); [lia|].
  destruct (malloc_bins_outcome mem_sbrk_ok (Z.to_nat (LISTZONE + 1)) h
              (get_bin (padded n)) (padded n)) as [[Hnil Hc]|[Hp Hc]].
  - split; [by split|]. rewrite Hnil. by intros [? ?].
  - split; [|done].
    destruct Hp as [p Hp]. rewrite Hp. split; [done|]. intros [inc Hinc].
    rewrite Hinc in Hc. destruct Hc as [Hc|[inc' Hc]]; [|done].
    apply (f_equal length) in Hc. simpl in Hc. lia.
Qed.

Lemma malloc_nil_iff_sbrk_fails_witness :
  0 < 1000 ∧
  1000 + HSIZE + ALIGNMENT - 1 + MINALLOC + HSIZE < 2 ^ 32 ∧
  (snd (malloc (limited 400) (fresh 400) 1000) = None ↔
   ∃ inc, sbrk_calls (fst (malloc (limited 400) (fresh 400) 1000))
          = (inc, false) :: sbrk_calls (fresh 400)).
Proof.
  assert (0 < 1000) as H by lia.
  assert (1000 + HSIZE + ALIGNMENT - 1 + MINALLOC + HSIZE < 2 ^ 32) as H'
    by (vm_compute; reflexivity).
  split; [exact H|]. split; [exact H'|].
  exact (proj1 (proj2 (proj2 (malloc_nil_iff_sbrk_fails (limited 400)
                                (fresh 400) 1000) H H'))).
Defined.

(** Beyond the bound of C1: for a request of [2^32 - 16] bytes the sum
    [size + MINALLOC + HSIZE] of [wild_alloc] wraps to [8], the wilderness
    of 320 bytes seems large enough, [mem_sbrk] is not called, and the
    footer of the block is written a gigaword past the heap. *)
Example huge_request_leaves_heap :
  let h := fresh 100000 in
  let r := malloc (limited 100000) h (2 ^ 32 - 16) in
  in_heap h = true ∧ padded (2 ^ 32 - 16) = 2 ^ 32 - 8 ∧
  snd r = Some 20 ∧ sbrk_calls (fst r) = sbrk_calls h ∧
  brk (fst r) = 400 ∧
  mem (fst r) !! (19 + (2 ^ 32 - 8) / 4 - 1) = Some (2 ^ 32 - 8) ∧
  in_heap (fst r) = false.
Proof. vm_compute. by repeat split. Qed.

Example malloc_out_of_memory :
  malloc (limited 400) (fresh 400) 1000
  = ({| mem := mem (fresh 400); wildPtr := 19; brk := 400;
        sbrk_calls := [(704, false); (400, true)] |}, None).
Proof. vm_compute. done. Qed.

(** *** [calloc] *)

Lemma word_store h p v q :
  word (store h p v) q = if decide (p = q) then wrap32 v else word h q.
Proof.
  unfold word, store. simpl. rewrite lookup_insert. by case_decide.
Qed.

Ltac order_cases :=
  repeat match goal with
         | |- context [?a <=? ?b] => destruct (Z.leb_spec a b)
         | |- context [?a <? ?b] => destruct (Z.ltb_spec a b)
         end.

Lemma zero_words_word k : ∀ h p q,
  word (zero_words k h p) q
  = if (p <=? q) && (q <? p + Z.of_nat k) then 0 else word h q.
Proof.
  induction k as [|k IH]; intros h p q.
  - cbn [zero_words]. order_cases; simpl; try done; lia.
  - cbn [zero_words]. rewrite IH, word_store.
    order_cases; simpl; try lia; case_decide; try lia; done.
Qed.

(** After [memset (p, 0, n)] the [n] bytes from the payload pointer [p] on
    are zero. *)
Lemma zero_bytes_zero h p n a :
  0 ≤ n → 4 * p ≤ a < 4 * p + n → byte_at (zero_bytes h p n) a = 0.
Proof.
  intros Hn Ha. unfold byte_at, zero_bytes.
  assert (0 ≤ n / 4) as Hq by (apply Z.div_pos; lia).
  assert (0 ≤ a mod 4 < 4) as Hj by (apply Z.mod_pos_bound; lia).
  assert (0 ≤ n mod 4 < 4) as Hr by (apply Z.mod_pos_bound; lia).
  pose proof (Z.div_mod n 4 ltac:(lia)) as Hdn.
  pose proof (Z.div_mod a 4 ltac:(lia)) as Hda.
  destruct (Z.eqb_spec (n mod 4) 0) as [Hr0|Hr0].
  - rewrite zero_words_word, Z2Nat.id by done.
    order_cases; simpl; try lia. by rewrite Z.div_0_l by lia.
  - rewrite word_store. case_decide as Hlast.
    + set (w := word _ _). clearbody w.
      assert (a mod 4 < n mod 4) as Hlt by lia.
      unfold wrap32.
      generalize dependent (n mod 4). generalize dependent (a mod 4).
      intros j Hj _ r Hr _ _ Hlt.
      assert (r = 1 ∨ r = 2 ∨ r = 3) as Hrs by lia.
      assert (j = 0 ∨ j = 1 ∨ j = 2) as Hjs by lia.
      destruct Hrs as [Hr'|[Hr'|Hr']], Hjs as [Hj'|[Hj'|Hj']]; subst r j;
        try lia; change (2 ^ 32) with 4294967296; simpl (2 ^ _);
        Z.div_mod_to_equations; lia.
    + rewrite zero_words_word, Z2Nat.id by done.
      order_cases; simpl; try lia. by rewrite Z.div_0_l by lia.
Qed.

Section Sbrk.
Variable mem_sbrk_ok : Z → Z → bool.

Lemma calloc_zeroes_bytes h nmemb size h1 p :
  malloc mem_sbrk_ok h (wrap64 (nmemb * size)) = (h1, Some p) →
  calloc mem_sbrk_ok h nmemb size
    = Some (zero_bytes h1 p (wrap64 (nmemb * size)), Some p) ∧
  ∀ a, 4 * p ≤ a < 4 * p + wrap64 (nmemb * size) →
       byte_at (zero_bytes h1 p (wrap64 (nmemb * size))) a = 0.
Proof.
  intros Hm. unfold calloc. rewrite Hm. simpl. split; [done|].
  intros a Ha. apply zero_bytes_zero; [|done].
  unfold wrap64. apply Z.mod_pos_bound. lia.
Qed.

(** When the allocation of a positive number of bytes fails, [calloc] does
    not return: [memset] writes through the [NULL] it got. *)
Lemma calloc_nil_faults h nmemb size :
  wrap64 (nmemb * size) ≠ 0 →
  snd (malloc mem_sbrk_ok h (wrap64 (nmemb * size))) = None →
  calloc mem_sbrk_ok h nmemb size = None.
Proof.
  intros Hb Hm. unfold calloc.
  destruct (malloc mem_sbrk_ok h (wrap64 (nmemb * size))) as [h1 ptr].
  simpl in Hm. subst ptr. simpl. by destruct (Z.eqb_spec (wrap64 (nmemb * size)) 0).
Qed.

End Sbrk.

(** C8, on the code: on a heap that [mem_sbrk] cannot extend, the
    allocation behind [calloc (1, 1000)] fails, and [calloc] faults in
    [memset] instead of returning [NULL]. *)
Theorem calloc_faults_when_out_of_memory :
  snd (malloc (limited 400) (fresh 400) (wrap64 (1 * 1000))) = None ∧
  calloc (limited 400) (fresh 400) 1 1000 = None.
Proof. vm_compute. done. Qed.

(** *** The padded size *)

Lemma padded_arith size :
  0 < size → size + HSIZE + ALIGNMENT - 1 < 2 ^ 32 →
  padded size mod 8 = 0 ∧ size + HSIZE ≤ padded size ∧
  MINALLOC + HSIZE ≤ padded size ∧ padded size < size + HSIZE + ALIGNMENT.
Proof.
  unfold padded, wrap32, wrap64, HSIZE, ALIGNMENT, MINALLOC.
  change (2 ^ 32) with 4294967296. change (2 ^ 64) with 18446744073709551616.
  intros H1 H2.
  destruct (Z.leb_spec size 8); [split; [reflexivity|lia]|].
  rewrite (Z.mod_small (size + 8 + 8 - 1)) by lia.
  rewrite (Z.mod_small (_ * 8) 4294967296) by (Z.div_mod_to_equations; lia).
  Z.div_mod_to_equations; lia.
Qed.

(** The three [ASSERT]s of [malloc] on [newsize] hold for every request
    whose padded size fits 32 bits: [newsize] is a multiple of 8, at least
    [size + HSIZE] and at least [MINALLOC + HSIZE]; it exceeds
    [size + HSIZE] by less than [ALIGNMENT]. *)
Theorem padded_keeps_asserts size :
  0 < size → size + HSIZE + ALIGNMENT - 1 < 2 ^ 32 →
  padded size mod 8 = 0 ∧ size + HSIZE ≤ padded size ∧
  MINALLOC + HSIZE ≤ padded size ∧ padded size < size + HSIZE + ALIGNMENT.
Proof. apply padded_arith. Qed.

Lemma padded_keeps_asserts_witness :
  0 < 13 ∧ 13 + HSIZE + ALIGNMENT - 1 < 2 ^ 32 ∧
  padded 13 mod 8 = 0 ∧ 13 + HSIZE ≤ padded 13 ∧
  MINALLOC + HSIZE ≤ padded 13 ∧ padded 13 < 13 + HSIZE + ALIGNMENT.
Proof.
  assert (0 < 13) as H1 by lia.
  assert (13 + HSIZE + ALIGNMENT - 1 < 2 ^ 32) as H2 by (vm_compute; done).
  split; [exact H1|]. split; [exact H2|].
  exact (padded_keeps_asserts 13 H1 H2).
Defined.

(** From [2^32 - 15] bytes on, the padded size is truncated to 32 bits
    and is smaller than the request: [ASSERT (newsize >= size+HSIZE)],
    which compares in [size_t], does not hold.  (In the last 8 values of
    [size_t] the sum [size+HSIZE] wraps as well.) *)
Theorem padded_truncates size :
  2 ^ 32 - 15 ≤ size < 2 ^ 64 - 8 →
  padded size < wrap64 (size + HSIZE).
Proof.
  unfold padded, wrap32, wrap64, HSIZE, ALIGNMENT, MINALLOC.
  change (2 ^ 32) with 4294967296. change (2 ^ 64) with 18446744073709551616.
  intros H.
  destruct (Z.leb_spec size 8); [lia|].
  rewrite (Z.mod_small (size + 8) 18446744073709551616) by lia.
  assert (wrap: ∀ z, (z / 8 * 8) mod 4294967296 ≤ 4294967296 - 8).
  { intros z. Z.div_mod_to_equations; lia. }
  specialize (wrap ((size + 8 + 8 - 1) mod 18446744073709551616)). lia.
Qed.

Lemma padded_truncates_witness :
  2 ^ 32 - 15 ≤ 2 ^ 32 < 2 ^ 64 - 8 ∧
  padded (2 ^ 32) < wrap64 (2 ^ 32 + HSIZE).
Proof.
  assert (2 ^ 32 - 15 ≤ 2 ^ 32 < 2 ^ 64 - 8) as H by (vm_compute; done).
  split; [exact H|]. exact (padded_truncates (2 ^ 32) H).
Defined.

(** *** The order of the bins *)

(** A larger block is never in an earlier bin, which is why [malloc]
    searches the bins from [get_bin (newsize)] upwards; and no index
    exceeds [LISTZONE], the last word of the directory. *)
Theorem get_bin_monotone s1 s2 :
  16 ≤ s1 → s1 ≤ s2 → s2 < 2 ^ 32 →
  get_bin s1 ≤ get_bin s2 ∧ get_bin s2 ≤ LISTZONE.
Proof.
  intros H1 H2 H3.
  unfold get_bin, wrap32, LISTZONE, SMALLBINS, MEDBINS, BIGBINS.
  repeat match goal with
         | |- context [?a <? ?b] => destruct (Z.ltb_spec a b)
         end; try lia;
    rewrite ?Z.mod_small by (Z.div_mod_to_equations; lia);
    Z.div_mod_to_equations; lia.
Qed.

Lemma get_bin_monotone_witness :
  16 ≤ 24 ∧ 24 ≤ 4000 ∧ 4000 < 2 ^ 32 ∧
  get_bin 24 ≤ get_bin 4000 ∧ get_bin 4000 ≤ LISTZONE.
Proof.
  assert (16 ≤ 24) as H1 by lia. assert (24 ≤ 4000) as H2 by lia.
  assert (4000 < 2 ^ 32) as H3 by lia.
  split; [exact H1|]. split; [exact H2|]. split; [exact H3|].
  exact (get_bin_monotone 24 4000 H1 H2 H3).
Defined.

(** A bin below [SMALLBINS] holds blocks of one size only, so
    [list_alloc_exact] may take the first block without looking at its
    size. *)
Theorem small_bins_are_exact s :
  16 ≤ s < 2 ^ 32 → s mod 8 = 0 → get_bin s < SMALLBINS →
  s = 8 * get_bin s + 16.
Proof.
  intros H1 H2. unfold get_bin, wrap32, SMALLBINS, MEDBINS, BIGBINS.
  repeat match goal with
         | |- context [?a <? ?b] => destruct (Z.ltb_spec a b)
         end; try lia;
    rewrite ?Z.mod_small by (Z.div_mod_to_equations; lia);
    Z.div_mod_to_equations; lia.
Qed.

Lemma small_bins_are_exact_witness :
  16 ≤ 48 < 2 ^ 32 ∧ 48 mod 8 = 0 ∧ get_bin 48 < SMALLBINS ∧
  48 = 8 * get_bin 48 + 16.
Proof.
  assert (16 ≤ 48 < 2 ^ 32) as H1 by lia.
  assert (48 mod 8 = 0) as H2 by reflexivity.
  assert (get_bin 48 < SMALLBINS) as H3 by reflexivity.
  split; [exact H1|]. split; [exact H2|]. split; [exact H3|].
  exact (small_bins_are_exact 48 H1 H2 H3).
Defined.

(** *** A failed allocation *)

Section Sbrk.
Variable mem_sbrk_ok : Z → Z → bool.

Lemma wild_alloc_nil h size :
  snd (wild_alloc mem_sbrk_ok h size) = None →
  same_image h (fst (wild_alloc mem_sbrk_ok h size)).
Proof.
  unfold wild_alloc, wild_expand, wild_carve.
  destruct (_ <? _); simpl; [|done].
  set (inc := if _ <? CHUNKSIZE then CHUNKSIZE else _).
  assert (inc ≠ 0) as Hinc.
  { unfold inc, CHUNKSIZE.
    destruct (_ <? 400) eqn:E; [lia|apply Z.ltb_ge in E; lia]. }
  destruct (mem_sbrk_ok (brk h) inc); simpl; [|done].
  by destruct (Z.eqb_spec inc 0).
Qed.

Lemma malloc_bins_nil n : ∀ h b size,
  snd (malloc_bins mem_sbrk_ok n h b size) = None →
  same_image h (fst (malloc_bins mem_sbrk_ok n h b size)).
Proof.
  induction n as [|n IH]; intros h b size; simpl;
    [apply wild_alloc_nil|].
  destruct (b <=? LISTZONE); [|apply wild_alloc_nil].
  destruct (negb _); [|apply IH].
  assert (list_outcome h
            (if b <? SMALLBINS then list_alloc_exact h b size
             else list_alloc_best h b size)) as Hl.
  { destruct (b <? SMALLBINS);
      [apply list_alloc_exact_outcome|apply list_alloc_best_outcome]. }
  destruct (if b <? SMALLBINS then _ else _) as [h' [p|]]; [done|].
  destruct Hl as [[_ Hh]|[[? ?] _]]; [|done].
  simpl in Hh. subst h'. apply IH.
Qed.

Lemma malloc_nil h size :
  snd (malloc mem_sbrk_ok h size) = None →
  same_image h (fst (malloc mem_sbrk_ok h size)).
Proof.
  unfold malloc. destruct (size =? 0); [done|]. apply malloc_bins_nil.
Qed.

(** A call of [malloc] that returns [NULL] leaves the heap image,
    [wildPtr] and the break as they were: the free lists it searched are
    untouched, and the only call of [mem_sbrk] was refused. *)
Theorem failed_malloc_leaves_heap h size :
  snd (malloc mem_sbrk_ok h size) = None →
  same_image h (fst (malloc mem_sbrk_ok h size)).
Proof. apply malloc_nil. Qed.

(** [realloc] to a positive size that returns [NULL] leaves the heap
    image as it was: the old block and its contents are untouched. *)
Theorem failed_realloc_leaves_heap h oldptr size :
  size ≠ 0 →
  snd (realloc mem_sbrk_ok h oldptr size) = None →
  same_image h (fst (realloc mem_sbrk_ok h oldptr size)).
Proof.
  intros Hs. unfold realloc. destruct (Z.eqb_spec size 0); [done|].
  destruct oldptr as [p|].
  - destruct (_ >=? _); [done|].
    pose proof (malloc_nil h size) as Hm.
    destruct (malloc mem_sbrk_ok h size) as [h1 [q|]]; [done|].
    intros _. by apply Hm.
  - apply malloc_nil.
Qed.

End Sbrk.

Lemma failed_malloc_leaves_heap_witness :
  snd (malloc (limited 400) (fresh 400) 1000) = None ∧
  same_image (fresh 400) (fst (malloc (limited 400) (fresh 400) 1000)).
Proof.
  assert (snd (malloc (limited 400) (fresh 400) 1000) = None) as H
    by (vm_compute; reflexivity).
  split; [exact H|].
  exact (failed_malloc_leaves_heap (limited 400) (fresh 400) 1000 H).
Defined.

Lemma failed_realloc_leaves_heap_witness :
  let h := fst (malloc (limited 400) (fresh 400) 24) in
  1000 ≠ 0 ∧
  snd (realloc (limited 400) h (Some 20) 1000) = None ∧
  same_image h (fst (realloc (limited 400) h (Some 20) 1000)).
Proof.
  intros h.
  assert (1000 ≠ 0) as H1 by lia.
  assert (snd (realloc (limited 400) h (Some 20) 1000) = None) as H2
    by (vm_compute; reflexivity).
  split; [exact H1|]. split; [exact H2|].
  exact (failed_realloc_leaves_heap (limited 400) h (Some 20) 1000 H1 H2).
Defined.

(** *** Headers *)

Lemma land_high k x :
  0 ≤ k ≤ 32 → 0 ≤ x < 2 ^ 32 →
  Z.land x (2 ^ 32 - 2 ^ k) = x - x mod 2 ^ k.
Proof.
  intros Hk Hx.
  assert (2 ^ 32 - 2 ^ k = Z.ldiff (Z.ones 32) (Z.ones k)) as ->.
  { rewrite Z.ldiff_ones_r by lia.
    rewrite Z.shiftr_div_pow2, Z.shiftl_mul_pow2 by lia.
    rewrite Z.ones_equiv. unfold Z.pred.
    assert (2 ^ 32 = 2 ^ k * 2 ^ (32 - k)) as ->.
    { rewrite <- Z.pow_add_r by lia. f_equal. lia. }
    assert (0 < 2 ^ k) by (apply Z.pow_pos_nonneg; lia).
    assert (0 < 2 ^ (32 - k)) by (apply Z.pow_pos_nonneg; lia).
    generalize dependent (2 ^ k). generalize dependent (2 ^ (32 - k)).
    intros Q HQ P HP.
    replace (P * Q + -1) with ((Q - 1) * P + (P - 1)) by lia.
    rewrite Z.div_add_l by lia. rewrite (Z.div_small (P - 1)) by lia. lia. }
  assert (Z.land x (Z.ldiff (Z.ones 32) (Z.ones k))
          = Z.ldiff (Z.land x (Z.ones 32)) (Z.ones k)) as ->.
  { apply Z.bits_inj'. intros n Hn.
    rewrite !Z.land_spec, !Z.ldiff_spec, Z.land_spec.
    by destruct (Z.testbit x n), (Z.testbit (Z.ones 32) n),
      (Z.testbit (Z.ones k) n). }
  rewrite Z.land_ones, Z.mod_small by lia.
  rewrite Z.ldiff_ones_r by lia.
  rewrite Z.shiftr_div_pow2, Z.shiftl_mul_pow2 by lia.
  assert (0 < 2 ^ k) by (apply Z.pow_pos_nonneg; lia).
  Z.div_mod_to_equations; lia.
Qed.

Lemma mask_size x : 0 ≤ x < 2 ^ 32 → Z.land x 0xFFFFFFF8 = x - x mod 8.
Proof. apply (land_high 3). lia. Qed.

Lemma mask_mark x : 0 ≤ x < 2 ^ 32 → Z.land x 0xFFFFFFFE = x - x mod 2.
Proof. apply (land_high 1). lia. Qed.

Lemma mask_free x : Z.land x 1 = x mod 2.
Proof. apply (Z.land_ones x 1). lia. Qed.

Lemma block_pack_read h b size fr q :
  0 ≤ size < 2 ^ 32 - 8 → size mod 8 = 0 → 0 ≤ fr ≤ 1 →
  block_size (block_pack h b size fr) b = size ∧
  block_free (block_pack h b size fr) b = fr ∧
  (q ≠ b → word (block_pack h b size fr) q = word h q).
Proof.
  intros Hs Hm Hf. unfold block_size, block_free, block_pack.
  rewrite !word_store. rewrite decide_True by done.
  rewrite wrap32_small by lia.
  rewrite mask_size, mask_free by lia.
  split; [|split].
  - Z.div_mod_to_equations; lia.
  - Z.div_mod_to_equations; lia.
  - intros Hq. by rewrite decide_False by done.
Qed.

Lemma block_size_mult8 h p : block_size h p mod 8 = 0.
Proof.
  unfold block_size. rewrite <- (Z.land_ones _ 3) by lia.
  rewrite <- Z.land_assoc. apply Z.land_0_r.
Qed.

Lemma header_size h p v :
  word h p = v → 0 ≤ v < 2 ^ 32 → block_size h p = v - v mod 8.
Proof. intros <- Hv. by apply mask_size. Qed.

Lemma header_free h p : block_free h p = word h p mod 2.
Proof. apply mask_free. Qed.

(** Headers round trip: what [block_pack] writes, [block_size] and
    [block_free] read back, and no other word changes; [block_mark] sets
    the free bit and keeps the size. *)
Theorem block_header_round_trip h b size fr q :
  0 ≤ size < 2 ^ 32 - 8 → size mod 8 = 0 → 0 ≤ fr ≤ 1 →
  0 ≤ word h b < 2 ^ 32 →
  (block_size (block_pack h b size fr) b = size ∧
   block_free (block_pack h b size fr) b = fr ∧
   (q ≠ b → word (block_pack h b size fr) q = word h q)) ∧
  (block_size (block_mark h b fr) b = block_size h b ∧
   block_free (block_mark h b fr) b = fr).
Proof.
  intros Hs Hm Hf Hw. split; [by apply block_pack_read|].
  unfold block_size, block_free, block_mark.
  rewrite !word_store, decide_True by done.
  rewrite mask_mark by done.
  change (2 ^ 32) with 4294967296 in *.
  rewrite wrap32_small by (Z.div_mod_to_equations; lia).
  rewrite !mask_size, mask_free
    by (change (2 ^ 32) with 4294967296; Z.div_mod_to_equations; lia).
  split; Z.div_mod_to_equations; lia.
Qed.

Lemma block_header_round_trip_witness :
  0 ≤ 32 < 2 ^ 32 - 8 ∧ 32 mod 8 = 0 ∧ 0 ≤ 1 ≤ 1 ∧
  0 ≤ word (fresh 100000) 19 < 2 ^ 32 ∧
  (block_size (block_pack (fresh 100000) 19 32 1) 19 = 32 ∧
   block_free (block_pack (fresh 100000) 19 32 1) 19 = 1 ∧
   (18 ≠ 19 →
    word (block_pack (fresh 100000) 19 32 1) 18 = word (fresh 100000) 18)) ∧
  (block_size (block_mark (fresh 100000) 19 1) 19
     = block_size (fresh 100000) 19 ∧
   block_free (block_mark (fresh 100000) 19 1) 19 = 1).
Proof.
  assert (0 ≤ 32 < 2 ^ 32 - 8) as H1 by lia.
  assert (32 mod 8 = 0) as H2 by reflexivity.
  assert (0 ≤ 1 ≤ 1) as H3 by lia.
  assert (0 ≤ word (fresh 100000) 19 < 2 ^ 32) as H4
    by (vm_compute; split; [discriminate|reflexivity]).
  split; [exact H1|]. split; [exact H2|]. split; [exact H3|].
  split; [exact H4|].
  exact (block_header_round_trip (fresh 100000) 19 32 1 18 H1 H2 H3 H4).
Defined.

(** *** The wilderness *)

Lemma wild_carve_block h size wpsize :
  size mod 8 = 0 → 16 ≤ size → wpsize mod 8 = 0 →
  size + 16 ≤ wpsize < 2 ^ 32 →
  let h' := fst (wild_carve h size wpsize) in
  snd (wild_carve h size wpsize) = Some (wildPtr h + 1) ∧
  wildPtr h' = wildPtr h + size / 4 ∧
  word h' (wildPtr h) = size ∧
  word h' (wildPtr h' - 1) = size ∧
  word h' (wildPtr h') = wpsize - size + 1 ∧
  word h' (wildPtr h' + (wpsize - size) / 4 - 1) = wpsize - size + 1 ∧
  brk h' = brk h ∧ sbrk_calls h' = sbrk_calls h ∧
  (∀ q, q < wildPtr h → word h' q = word h q).
Proof.
  intros Hs8 Hs Hw8 Hw. change (2 ^ 32) with 4294967296 in Hw.
  unfold wild_carve, block_pack, set_wildPtr. cbn [fst snd wildPtr store brk sbrk_calls].
  rewrite (wrap32_small (wpsize - size)) by lia.
  assert (4 ≤ size / 4) by (Z.div_mod_to_equations; lia).
  assert (4 ≤ (wpsize - size) / 4) by (Z.div_mod_to_equations; lia).
  repeat split; try done; try intros q Hq; rewrite !word_store;
    repeat case_decide; try lia; rewrite ?wrap32_small by lia; try lia; done.
Qed.

Lemma free_last_block h p size ws :
  size mod 8 = 0 → 16 ≤ size → ws mod 8 = 0 → 16 ≤ ws →
  size + ws < 2 ^ 32 →
  word h (p - 1) = size →
  wildPtr h = p - 1 + size / 4 →
  word h (wildPtr h) = ws + 1 →
  (p - 1 = FIRST / 4 ∨
   (block_prev h (p - 1) < p - 1 ∧ block_free h (block_prev h (p - 1)) = 0)) →
  let h' := free h (Some p) in
  wildPtr h' = p - 1 ∧
  word h' (p - 1) = size + ws + 1 ∧
  word h' (p - 1 + (size + ws) / 4 - 1) = size + ws + 1 ∧
  brk h' = brk h ∧ sbrk_calls h' = sbrk_calls h ∧
  (∀ q, q < p - 1 → word h' q = word h q).
Proof.
  intros Hs8 Hs Hw8 Hw Hsum Hhead Hwild Hwhead Hprev.
  change (2 ^ 32) with 4294967296 in Hsum.
  set (b := p - 1) in *.
  set (hm := block_mark h b 1).
  assert (word hm b = size + 1) as Hmb.
  { unfold hm, block_mark. rewrite word_store, decide_True by done.
    rewrite Hhead, mask_mark by (change (2 ^ 32) with 4294967296; lia).
    rewrite wrap32_small; Z.div_mod_to_equations; lia. }
  assert (∀ q, q ≠ b → word hm q = word h q) as Hmq.
  { intros q Hq. unfold hm, block_mark. by rewrite word_store, decide_False. }
  assert (wildPtr hm = wildPtr h) as Hmw by done.
  assert (block_size hm b = size) as Hbs.
  { rewrite (header_size _ _ _ Hmb) by (change (2 ^ 32) with 4294967296; lia).
    Z.div_mod_to_equations; lia. }
  assert (4 ≤ size / 4) as Hq4 by (Z.div_mod_to_equations; lia).
  assert (block_size hm (wildPtr hm) = ws) as Hwsz.
  { assert (word hm (wildPtr hm) = ws + 1) as Hx.
    { rewrite Hmw, Hmq by lia. done. }
    rewrite (header_size _ _ _ Hx) by (change (2 ^ 32) with 4294967296; lia).
    Z.div_mod_to_equations; lia. }
  assert ((negb (b =? FIRST / 4)
           && negb (block_free hm (block_prev hm b) =? 0)) = false) as Hno.
  { destruct Hprev as [->|[Hlt Hfr]]; [by rewrite Z.eqb_refl|].
    assert (block_prev hm b = block_prev h b) as ->.
    { unfold block_prev, block_size. by rewrite Hmq by lia. }
    unfold block_free in *. rewrite Hmq by lia. rewrite Hfr.
    by rewrite andb_false_r. }
  unfold free. fold b. fold hm. rewrite Hno.
  assert ((block_next hm b =? wildPtr hm) = true) as ->.
  { unfold block_next. rewrite Hbs, Hmw, Hwild. apply Z.eqb_refl. }
  rewrite Hwsz, Hbs.
  rewrite wrap32_small by lia.
  unfold block_pack, set_wildPtr.
  cbn [wildPtr store brk sbrk_calls].
  assert (8 ≤ (ws + size) / 4) by (Z.div_mod_to_equations; lia).
  assert (ws + size ≤ 4294967296 - 8) by (Z.div_mod_to_equations; lia).
  replace (size + ws) with (ws + size) by lia.
  repeat split; try done; try intros q Hq; rewrite !word_store;
    repeat case_decide; try lia; rewrite ?wrap32_small by lia; try lia.
  apply Hmq. lia.
Qed.

Section Sbrk.
Variable mem_sbrk_ok : Z → Z → bool.

(** [wild_alloc] carves from the wilderness as it is or as [mem_sbrk]
    extended it. *)
Lemma wild_alloc_carve h size h' p :
  size mod 8 = 0 → 16 ≤ size →
  block_size h (wildPtr h) + size + MINALLOC + HSIZE + CHUNKSIZE < 2 ^ 32 →
  wild_alloc mem_sbrk_ok h size = (h', Some p) →
  ∃ h0 total,
    mem h0 = mem h ∧ wildPtr h0 = wildPtr h ∧ brk h0 = brk h' ∧
    total = block_size h (wildPtr h) + (brk h' - brk h) ∧
    total mod 8 = 0 ∧ size + 16 ≤ total < 2 ^ 32 ∧
    (sbrk_calls h0 = sbrk_calls h ∨
     ∃ inc, sbrk_calls h0 = (inc, true) :: sbrk_calls h) ∧
    (brk h' = brk h ↔ size + 16 ≤ block_size h (wildPtr h)) ∧
    wild_carve h0 size total = (h', Some p).
Proof.
  intros Hs8 Hs Hfit. unfold wild_alloc, wild_expand.
  pose proof (block_size_range h (wildPtr h)) as Hr.
  pose proof (block_size_mult8 h (wildPtr h)) as Hm.
  set (ws := block_size h (wildPtr h)) in *.
  unfold MINALLOC, HSIZE, CHUNKSIZE in *.
  change (2 ^ 32) with 4294967296 in *.
  rewrite (wrap32_small (size + 8 + 8)) by lia.
  destruct (Z.ltb_spec ws (size + 8 + 8)) as [Hlt|Hge].
  - rewrite (wrap32_small (size - ws + 8 + 8)) by lia.
    set (inc := if _ <? 400 then 400 else _).
    assert (inc mod 8 = 0 ∧ size - ws + 16 ≤ inc ∧ 400 ≤ inc ∧
            inc ≤ size + 400) as (Hi8 & Hi1 & Hi2 & Hi3).
    { unfold inc. destruct (Z.ltb_spec (size - ws + 8 + 8) 400);
        repeat split; try lia; Z.div_mod_to_equations; lia. }
    destruct (mem_sbrk_ok (brk h) inc); [|by simpl].
    destruct (Z.eqb_spec inc 0); [lia|].
    rewrite (wrap32_small (ws + inc)) by lia.
    set (h0 := {| mem := mem h; wildPtr := wildPtr h; brk := brk h + inc;
                  sbrk_calls := (inc, true) :: sbrk_calls h |}).
    intros Hc. exists h0, (ws + inc).
    assert (brk h' = brk h + inc) as Hbrk
      by (by apply (f_equal (λ r, brk (fst r))) in Hc).
    split; [done|]. split; [done|]. split; [done|]. split; [lia|].
    split; [Z.div_mod_to_equations; lia|]. split; [lia|].
    split; [right; by exists inc|]. split; [lia|done].
  - intros Hc. exists h, ws.
    assert (brk h' = brk h) as Hbrk
      by (by apply (f_equal (λ r, brk (fst r))) in Hc).
    split; [done|]. split; [done|]. split; [done|]. split; [lia|].
    split; [done|]. split; [lia|]. split; [by left|]. split; [lia|done].
Qed.

(** A pointer returned by [wild_alloc] is the payload of the block at the
    old [wildPtr]: header and footer carry the requested size, the block
    is marked allocated, [wildPtr] has moved to the next block, and what
    is left, a free block of at least [MINALLOC + HSIZE] bytes, still ends
    where the heap ends.  Nothing below the old [wildPtr] is written. *)
Theorem wild_alloc_block h size h' p :
  size mod 8 = 0 → 16 ≤ size →
  block_size h (wildPtr h) + size + MINALLOC + HSIZE + CHUNKSIZE < 2 ^ 32 →
  wild_alloc mem_sbrk_ok h size = (h', Some p) →
  p = block_mem (wildPtr h) ∧
  block_size h' (wildPtr h) = size ∧ block_free h' (wildPtr h) = 0 ∧
  block_size h' (wildPtr h' - 1) = size ∧
  wildPtr h' = block_next h' (wildPtr h) ∧
  block_free h' (wildPtr h') = 1 ∧
  block_size h' (wildPtr h')
    = block_size h (wildPtr h) + (brk h' - brk h) - size ∧
  MINALLOC + HSIZE ≤ block_size h' (wildPtr h') ∧
  (∀ q, q < wildPtr h → word h' q = word h q).
Proof.
  intros Hs8 Hs Hfit Ha.
  destruct (wild_alloc_carve h size h' p Hs8 Hs Hfit Ha)
    as (h0 & total & Hmem & Hwp & _ & Htot & Ht8 & Ht & _ & _ & Hc).
  destruct (wild_carve_block h0 size total Hs8 Hs Ht8 Ht)
    as (Hp & Hw' & Hhd & Hft & Hwh & _ & _ & _ & Hlow).
  rewrite Hc in *. simpl in *. rewrite Hwp in *. rewrite <- Htot.
  change (2 ^ 32) with 4294967296 in *.
  assert (block_size h' (wildPtr h) = size) as Hbs.
  { rewrite (header_size _ _ _ Hhd) by (change (2 ^ 32) with 4294967296; lia).
    Z.div_mod_to_equations; lia. }
  assert (block_size h' (wildPtr h') = total - size) as Hws.
  { rewrite (header_size _ _ _ Hwh) by (change (2 ^ 32) with 4294967296; lia).
    Z.div_mod_to_equations; lia. }
  split; [by injection Hp as ->|]. split; [done|].
  split; [rewrite header_free, Hhd; Z.div_mod_to_equations; lia|].
  split.
  { rewrite (header_size _ _ _ Hft)
      by (change (2 ^ 32) with 4294967296; lia).
    Z.div_mod_to_equations; lia. }
  split; [unfold block_next; by rewrite Hbs|].
  split; [rewrite header_free, Hwh; Z.div_mod_to_equations; lia|].
  split; [done|]. split; [unfold MINALLOC, HSIZE; lia|].
  intros q Hq. rewrite Hlow by done. unfold word. by rewrite Hmem.
Qed.

Lemma free_after_wild_alloc h size h' p :
  size mod 8 = 0 → 16 ≤ size →
  block_size h (wildPtr h) + size + MINALLOC + HSIZE + CHUNKSIZE < 2 ^ 32 →
  (wildPtr h = FIRST / 4 ∨
   (block_prev h (wildPtr h) < wildPtr h ∧
    block_free h (block_prev h (wildPtr h)) = 0)) →
  wild_alloc mem_sbrk_ok h size = (h', Some p) →
  let h'' := free h' (Some p) in
  wildPtr h'' = wildPtr h ∧
  block_free h'' (wildPtr h'') = 1 ∧
  block_size h'' (wildPtr h'')
    = block_size h (wildPtr h) + (brk h' - brk h) ∧
  brk h'' = brk h' ∧
  (∀ q, q < wildPtr h → word h'' q = word h q) ∧
  snd (wild_alloc mem_sbrk_ok h'' size) = Some p ∧
  sbrk_calls (fst (wild_alloc mem_sbrk_ok h'' size)) = sbrk_calls h'.
Proof.
  intros Hs8 Hs Hfit Hprev Ha.
  destruct (wild_alloc_carve h size h' p Hs8 Hs Hfit Ha)
    as (h0 & total & Hmem & Hwp & _ & Htot & Ht8 & Ht & _ & _ & Hc).
  destruct (wild_carve_block h0 size total Hs8 Hs Ht8 Ht)
    as (Hp & Hw' & Hhd & Hft & Hwh & _ & _ & _ & Hlow).
  rewrite Hc in *. cbn [fst snd] in *. rewrite Hwp in *. rewrite <- Htot.
  injection Hp as ->.
  change (2 ^ 32) with 4294967296 in *.
  assert (∀ q, q < wildPtr h → word h' q = word h q) as Hlow'.
  { intros q Hq. rewrite Hlow by done. unfold word. by rewrite Hmem. }
  replace (wildPtr h) with (wildPtr h + 1 - 1) in Hhd, Hw', Hprev, Hlow'
    by lia.
  destruct (free_last_block h' (wildPtr h + 1) size (total - size))
    as (Hfw & Hfh & _ & Hfb & Hfc & Hfl);
    [done|done|Z.div_mod_to_equations; lia|lia|
     change (2 ^ 32) with 4294967296; lia|done|done|
     rewrite Hwh; lia| |].
  { destruct Hprev as [Hfirst|[Hlt Hfr]]; [by left|right].
    assert (block_prev h' (wildPtr h + 1 - 1)
            = block_prev h (wildPtr h + 1 - 1)) as ->.
    { unfold block_prev, block_size. by rewrite Hlow' by lia. }
    split; [done|]. unfold block_free in *. by rewrite Hlow' by lia. }
  cbv zeta. set (h'' := free h' (Some (wildPtr h + 1))) in *.
  replace (size + (total - size)) with total in Hfh by lia.
  replace (wildPtr h + 1 - 1) with (wildPtr h) in * by lia.
  assert (block_size h'' (wildPtr h) = total) as Hbs.
  { rewrite (header_size _ _ _ Hfh)
      by (change (2 ^ 32) with 4294967296; Z.div_mod_to_equations; lia).
    Z.div_mod_to_equations; lia. }
  rewrite Hfw. split; [done|].
  split; [rewrite header_free, Hfh; Z.div_mod_to_equations; lia|].
  split; [done|]. split; [done|].
  split; [intros q Hq; by rewrite Hfl, Hlow' by lia|].
  unfold wild_alloc. rewrite Hfw, Hbs.
  unfold MINALLOC, HSIZE. rewrite (wrap32_small (size + 8 + 8)) by lia.
  destruct (Z.ltb_spec total (size + 8 + 8)); [lia|].
  split; [simpl; by rewrite Hfw|]. simpl. done.
Qed.

(** [free] of the block last carved from the wilderness merges it back:
    [wildPtr] returns to where it was, the wilderness is a free block of
    its old size plus what [mem_sbrk] added, and [wild_alloc] of the same
    size then returns the same pointer without calling [mem_sbrk]. *)
Theorem free_undoes_wild_alloc h size h' p :
  size mod 8 = 0 → 16 ≤ size →
  block_size h (wildPtr h) + size + MINALLOC + HSIZE + CHUNKSIZE < 2 ^ 32 →
  (wildPtr h = FIRST / 4 ∨
   (block_prev h (wildPtr h) < wildPtr h ∧
    block_free h (block_prev h (wildPtr h)) = 0)) →
  wild_alloc mem_sbrk_ok h size = (h', Some p) →
  let h'' := free h' (Some p) in
  wildPtr h'' = wildPtr h ∧
  block_free h'' (wildPtr h'') = 1 ∧
  block_size h'' (wildPtr h'')
    = block_size h (wildPtr h) + (brk h' - brk h) ∧
  brk h'' = brk h' ∧
  (∀ q, q < wildPtr h → word h'' q = word h q) ∧
  snd (wild_alloc mem_sbrk_ok h'' size) = Some p ∧
  sbrk_calls (fst (wild_alloc mem_sbrk_ok h'' size)) = sbrk_calls h'.
Proof. apply free_after_wild_alloc. Qed.

Lemma malloc_bins_empty n : ∀ h b size,
  bins_empty_from h b →
  malloc_bins mem_sbrk_ok n h b size = wild_alloc mem_sbrk_ok h size.
Proof.
  induction n as [|n IH]; intros h b size He; simpl; [done|].
  destruct (Z.leb_spec b LISTZONE); [|done].
  rewrite He, Z.eqb_refl by lia. simpl. apply IH.
  intros i Hi. apply He. lia.
Qed.

Lemma malloc_wilderness h size :
  size ≠ 0 → bins_empty_from h (get_bin (padded size)) →
  malloc mem_sbrk_ok h size = wild_alloc mem_sbrk_ok h (padded size).
Proof.
  intros Hs He. unfold malloc. destruct (Z.eqb_spec size 0); [done|].
  by apply malloc_bins_empty.
Qed.

(** [malloc], [free], [malloc]: when the free lists that [malloc]
    searches are empty, the block it returns comes from the wilderness;
    once freed it is merged back, and the same request returns the same
    pointer without a call of [mem_sbrk]. *)
Theorem malloc_free_malloc h size h' p :
  0 < size → size + HSIZE + ALIGNMENT - 1 < 2 ^ 32 →
  bins_empty_from h (get_bin (padded size)) →
  LISTZONE < wildPtr h →
  block_size h (wildPtr h) + padded size + MINALLOC + HSIZE + CHUNKSIZE
    < 2 ^ 32 →
  (wildPtr h = FIRST / 4 ∨
   (block_prev h (wildPtr h) < wildPtr h ∧
    block_free h (block_prev h (wildPtr h)) = 0)) →
  malloc mem_sbrk_ok h size = (h', Some p) →
  snd (malloc mem_sbrk_ok (free h' (Some p)) size) = Some p ∧
  sbrk_calls (fst (malloc mem_sbrk_ok (free h' (Some p)) size))
    = sbrk_calls h'.
Proof.
  intros Hs Hfit He Hz Hw Hprev Hm.
  destruct (padded_arith size Hs Hfit) as (Hp8 & Hp1 & Hp2 & _).
  rewrite malloc_wilderness in Hm by (done || lia).
  destruct (free_after_wild_alloc h (padded size) h' p)
    as (_ & _ & _ & _ & Hlow & Hp & Hc); try done.
  rewrite malloc_wilderness; [done|lia|].
  intros i Hi. rewrite Hlow by lia. apply He. done.
Qed.

End Sbrk.

Lemma wild_alloc_block_witness :
  let ok := limited 100000 in
  let h := fresh 100000 in
  let h' := fst (wild_alloc ok h 1000) in
  1000 mod 8 = 0 ∧ 16 ≤ 1000 ∧
  block_size h (wildPtr h) + 1000 + MINALLOC + HSIZE + CHUNKSIZE < 2 ^ 32 ∧
  wild_alloc ok h 1000 = (h', Some 20) ∧
  20 = block_mem (wildPtr h) ∧
  block_size h' (wildPtr h) = 1000 ∧ block_free h' (wildPtr h) = 0 ∧
  block_size h' (wildPtr h' - 1) = 1000 ∧
  wildPtr h' = block_next h' (wildPtr h) ∧
  block_free h' (wildPtr h') = 1 ∧
  block_size h' (wildPtr h')
    = block_size h (wildPtr h) + (brk h' - brk h) - 1000 ∧
  MINALLOC + HSIZE ≤ block_size h' (wildPtr h') ∧
  (∀ q, q < wildPtr h → word h' q = word h q).
Proof.
  intros ok h h'.
  assert (1000 mod 8 = 0) as H1 by reflexivity.
  assert (16 ≤ 1000) as H2 by lia.
  assert (block_size h (wildPtr h) + 1000 + MINALLOC + HSIZE + CHUNKSIZE
          < 2 ^ 32) as H3 by (vm_compute; reflexivity).
  assert (wild_alloc ok h 1000 = (h', Some 20)) as H4
    by (vm_compute; reflexivity).
  split; [exact H1|]. split; [exact H2|]. split; [exact H3|].
  split; [exact H4|].
  exact (wild_alloc_block ok h 1000 h' 20 H1 H2 H3 H4).
Defined.

Lemma free_undoes_wild_alloc_witness :
  let ok := limited 100000 in
  let h := fresh 100000 in
  let h' := fst (wild_alloc ok h 1000) in
  let h'' := free h' (Some 20) in
  1000 mod 8 = 0 ∧ 16 ≤ 1000 ∧
  block_size h (wildPtr h) + 1000 + MINALLOC + HSIZE + CHUNKSIZE < 2 ^ 32 ∧
  (wildPtr h = FIRST / 4 ∨
   (block_prev h (wildPtr h) < wildPtr h ∧
    block_free h (block_prev h (wildPtr h)) = 0)) ∧
  wild_alloc ok h 1000 = (h', Some 20) ∧
  wildPtr h'' = wildPtr h ∧
  block_free h'' (wildPtr h'') = 1 ∧
  block_size h'' (wildPtr h'')
    = block_size h (wildPtr h) + (brk h' - brk h) ∧
  brk h'' = brk h' ∧
  (∀ q, q < wildPtr h → word h'' q = word h q) ∧
  snd (wild_alloc ok h'' 1000) = Some 20 ∧
  sbrk_calls (fst (wild_alloc ok h'' 1000)) = sbrk_calls h'.
Proof.
  intros ok h h' h''.
  assert (1000 mod 8 = 0) as H1 by reflexivity.
  assert (16 ≤ 1000) as H2 by lia.
  assert (block_size h (wildPtr h) + 1000 + MINALLOC + HSIZE + CHUNKSIZE
          < 2 ^ 32) as H3 by (vm_compute; reflexivity).
  assert (wildPtr h = FIRST / 4 ∨
          (block_prev h (wildPtr h) < wildPtr h ∧
           block_free h (block_prev h (wildPtr h)) = 0)) as H4
    by (left; vm_compute; reflexivity).
  assert (wild_alloc ok h 1000 = (h', Some 20)) as H5
    by (vm_compute; reflexivity).
  split; [exact H1|]. split; [exact H2|]. split; [exact H3|].
  split; [exact H4|]. split; [exact H5|].
  exact (free_undoes_wild_alloc ok h 1000 h' 20 H1 H2 H3 H4 H5).
Defined.

Lemma malloc_free_malloc_witness :
  let ok := limited 100000 in
  let h := fresh 100000 in
  let h' := fst (malloc ok h 24) in
  0 < 24 ∧ 24 + HSIZE + ALIGNMENT - 1 < 2 ^ 32 ∧
  bins_empty_from h (get_bin (padded 24)) ∧
  LISTZONE < wildPtr h ∧
  block_size h (wildPtr h) + padded 24 + MINALLOC + HSIZE + CHUNKSIZE
    < 2 ^ 32 ∧
  (wildPtr h = FIRST / 4 ∨
   (block_prev h (wildPtr h) < wildPtr h ∧
    block_free h (block_prev h (wildPtr h)) = 0)) ∧
  malloc ok h 24 = (h', Some 20) ∧
  snd (malloc ok (free h' (Some 20)) 24) = Some 20 ∧
  sbrk_calls (fst (malloc ok (free h' (Some 20)) 24)) = sbrk_calls h'.
Proof.
  intros ok h h'.
  assert (0 < 24) as H1 by lia.
  assert (24 + HSIZE + ALIGNMENT - 1 < 2 ^ 32) as H2
    by (vm_compute; reflexivity).
  assert (bins_empty_from h (get_bin (padded 24))) as H3.
  { intros i Hi. change (get_bin (padded 24)) with 2 in Hi.
    change LISTZONE with 18 in Hi.
    assert (i ∈ map Z.of_nat (seq 2 17)) as Hin.
    { apply list_elem_of_fmap. exists (Z.to_nat i). split; [lia|].
      apply list_elem_of_In, in_seq. lia. }
    vm_compute in Hin.
    repeat (apply elem_of_cons in Hin as [->|Hin];
            [vm_compute; reflexivity|]).
    by apply elem_of_nil in Hin. }
  assert (LISTZONE < wildPtr h) as H4 by (vm_compute; reflexivity).
  assert (block_size h (wildPtr h) + padded 24 + MINALLOC + HSIZE + CHUNKSIZE
          < 2 ^ 32) as H5 by (vm_compute; reflexivity).
  assert (wildPtr h = FIRST / 4 ∨
          (block_prev h (wildPtr h) < wildPtr h ∧
           block_free h (block_prev h (wildPtr h)) = 0)) as H6
    by (left; vm_compute; reflexivity).
  assert (malloc ok h 24 = (h', Some 20)) as H7 by (vm_compute; reflexivity).
  split; [exact H1|]. split; [exact H2|]. split; [exact H3|].
  split; [exact H4|]. split; [exact H5|]. split; [exact H6|].
  split; [exact H7|].
  exact (malloc_free_malloc ok h 24 h' 20 H1 H2 H3 H4 H5 H6 H7).
Defined.

(** When the allocation succeeds, [calloc] returns the pointer of [malloc]
    and the requested bytes are zero.  The request is one that [malloc]
    pads without truncation ([nmemb * size < 2^32 - 31]), so the bytes
    that [memset] writes fit the payload of a block of the padded size. *)
Theorem calloc_zeroes mem_sbrk_ok h nmemb size h1 p :
  wrap64 (nmemb * size) + HSIZE + ALIGNMENT - 1 + MINALLOC + HSIZE
    < 2 ^ 32 →
  malloc mem_sbrk_ok h (wrap64 (nmemb * size)) = (h1, Some p) →
  calloc mem_sbrk_ok h nmemb size
    = Some (zero_bytes h1 p (wrap64 (nmemb * size)), Some p) ∧
  (∀ a, 4 * p ≤ a < 4 * p + wrap64 (nmemb * size) →
        byte_at (zero_bytes h1 p (wrap64 (nmemb * size))) a = 0) ∧
  0 < wrap64 (nmemb * size) ∧
  wrap64 (nmemb * size) + HSIZE ≤ padded (wrap64 (nmemb * size)).
Proof.
  intros Hbound Hm.
  destruct (calloc_zeroes_bytes mem_sbrk_ok h nmemb size h1 p Hm)
    as [Hc Hz].
  split; [exact Hc|]. split; [exact Hz|].
  assert (0 < wrap64 (nmemb * size)) as Hpos.
  { assert (0 ≤ wrap64 (nmemb * size))
      by (unfold wrap64; apply Z.mod_pos_bound; lia).
    destruct (Z.eqb_spec (wrap64 (nmemb * size)) 0) as [E|]; [|lia].
    unfold malloc in Hm. by rewrite E in Hm. }
  split; [exact Hpos|].
  apply padded_arith; [done|].
  unfold MINALLOC, HSIZE, ALIGNMENT in *. lia.
Qed.

Lemma calloc_zeroes_witness :
  let ok := limited 100000 in
  let h := fresh 100000 in
  let h1 := fst (malloc ok h (wrap64 (3 * 5))) in
  wrap64 (3 * 5) + HSIZE + ALIGNMENT - 1 + MINALLOC + HSIZE < 2 ^ 32 ∧
  malloc ok h (wrap64 (3 * 5)) = (h1, Some 20) ∧
  calloc ok h 3 5 = Some (zero_bytes h1 20 (wrap64 (3 * 5)), Some 20) ∧
  (∀ a, 4 * 20 ≤ a < 4 * 20 + wrap64 (3 * 5) →
        byte_at (zero_bytes h1 20 (wrap64 (3 * 5))) a = 0) ∧
  0 < wrap64 (3 * 5) ∧
  wrap64 (3 * 5) + HSIZE ≤ padded (wrap64 (3 * 5)).
Proof.
  intros ok h h1.
  assert (wrap64 (3 * 5) + HSIZE + ALIGNMENT - 1 + MINALLOC + HSIZE
          < 2 ^ 32) as H0 by (vm_compute; reflexivity).
  assert (malloc ok h (wrap64 (3 * 5)) = (h1, Some 20)) as H
    by (vm_compute; reflexivity).
  split; [exact H0|]. split; [exact H|].
  exact (calloc_zeroes ok h 3 5 h1 20 H0 H).
Defined.

End MmProps.

Module GateProps.
Import Cache Gate.

(** *** The gate excludes *)

Lemma total_insert f ts tid t t' :
  ts !! tid = Some t →
  (total f (<[tid := t']> ts) + f t = total f ts + f t')%nat.
Proof.
  unfold total. revert tid. induction ts as [|x ts IH]; intros [|tid] H;
    simplify_eq/=; [lia|]. specialize (IH _ H). lia.
Qed.

Lemma total_at_start f ts :
  (∀ t, at_start t → f t = 0%nat) → Forall at_start ts → total f ts = 0%nat.
Proof.
  intros Hf. unfold total. induction 1 as [|t ts Ht _ IH]; simpl; [done|].
  rewrite (Hf _ Ht). lia.
Qed.

Lemma gate_inv_init ts : Forall at_start ts → gate_inv (init ts).
Proof.
  intros H. unfold gate_inv, readers_in. simpl.
  rewrite !total_at_start; try done;
    by intros [? ? ? pc ?|? ? ? ? ? pc] Hpc; simpl in Hpc; subst pc.
Qed.

(** A reader about to count or to run the exit test holds [read_m]. *)
Lemma hold_bound ts :
  (total entering ts + total leaving ts ≤ total rd_hold ts)%nat.
Proof.
  unfold total. induction ts as [|t ts IH]; simpl; [lia|].
  destruct t as [? ? ? pc ?|? ? ? ? ? pc]; simpl; [destruct pc; simpl|]; lia.
Qed.

(** The five totals before and after thread [tid] moves from [t] to
    [t']. *)
Ltac totals Ht t' :=
  match type of Ht with
  | ?ts !! ?tid = Some _ =>
      pose proof (hold_bound ts);
      pose proof (hold_bound (<[tid := t']> ts))
  end;
  pose proof (total_insert rd_hold _ _ _ t' Ht);
  pose proof (total_insert counted _ _ _ t' Ht);
  pose proof (total_insert entering _ _ _ t' Ht);
  pose proof (total_insert leaving _ _ _ t' Ht);
  pose proof (total_insert wr_hold _ _ _ t' Ht).

Ltac gate_arith :=
  unfold gate_inv, readers_in in *; simpl in *;
  repeat match goal with
         | |- context [(?a <? ?b)%nat] => destruct (Nat.ltb_spec a b)
         | |- context [?a <? ?b] => destruct (Z.ltb_spec a b)
         | H : context [(?a <? ?b)%nat] |- _ => destruct (Nat.ltb_spec a b)
         | H : context [?a <? ?b] |- _ => destruct (Z.ltb_spec a b)
         end; simpl in *; lia.

Lemma step_gate_inv s tid s' :
  gate_inv s → step s tid = Some s' → gate_inv s'.
Proof.
  intros Hinv. unfold step.
  destruct (threads s !! tid) as [[ws f p pc b|ws f p d ds pc]|] eqn:Ht;
    [| |done].
  - unfold step_reader. destruct pc.
    + destruct (read_m s) as [|v] eqn:E; [done|]. intros [= <-].
      totals Ht (Reader ws f p R_test b). gate_arith.
    + destruct (Z.eqb_spec (read_cnt s) 0).
      * destruct (write_m s) as [|v] eqn:E; [done|]. intros [= <-].
        totals Ht (Reader ws f p R_inc b). gate_arith.
      * intros [= <-]. totals Ht (Reader ws f p R_inc b). gate_arith.
    + intros [= <-]. totals Ht (Reader ws f p R_V1 b). gate_arith.
    + intros [= <-]. totals Ht (Reader ws f p R_get b). gate_arith.
    + destruct (cache_get _ _ _ _ _) as [C r]. intros [= <-].
      match goal with
      | |- context [Reader ws f p R_P2 ?b'] =>
          totals Ht (Reader ws f p R_P2 b')
      end. gate_arith.
    + destruct (read_m s) as [|v] eqn:E; [done|]. intros [= <-].
      totals Ht (Reader ws f p R_dec b). gate_arith.
    + intros [= <-]. totals Ht (Reader ws f p R_test2 b). gate_arith.
    + destruct (Z.eqb_spec (read_cnt s) 0); intros [= <-];
        totals Ht (Reader ws f p R_V2 b); gate_arith.
    + intros [= <-]. totals Ht (Reader ws f p R_use b). gate_arith.
    + destruct b as [[a sz]|]; intros [= <-].
      * totals Ht (Reader ws f p R_done (Some (a, sz))). gate_arith.
      * totals Ht (Reader ws f p R_done None). gate_arith.
    + done.
  - unfold step_writer. destruct pc.
    + destruct (ds <=? MAX_OBJECT_SIZE).
      * destruct (write_m s) as [|v] eqn:E; [done|]. intros [= <-].
        totals Ht (Writer ws f p d ds W_insert). gate_arith.
      * intros [= <-]. totals Ht (Writer ws f p d ds W_done). gate_arith.
    + destruct (evict_bufs _ _ _ _ _ _) as [[[[V sz] bufs'] freed']|];
        [|done].
      intros [= <-]. totals Ht (Writer ws f p d ds W_V). gate_arith.
    + intros [= <-]. totals Ht (Writer ws f p d ds W_done). gate_arith.
    + done.
Qed.

Lemma run_gate_inv schedule : ∀ s s',
  gate_inv s → run s schedule = Some s' → gate_inv s'.
Proof.
  induction schedule as [|tid rest IH]; intros s s' Hinv; simpl.
  - by intros [= <-].
  - destruct (step s tid) as [s1|] eqn:E; [|done].
    apply IH. by eapply step_gate_inv.
Qed.

Lemma total_pos f ts tid t :
  ts !! tid = Some t → (f t ≤ total f ts)%nat.
Proof.
  unfold total. revert tid. induction ts as [|x ts IH]; intros [|tid] H;
    simplify_eq/=; [lia|]. specialize (IH _ H). lia.
Qed.

Lemma total_two f ts i j t u :
  i ≠ j → ts !! i = Some t → ts !! j = Some u →
  (f t + f u ≤ total f ts)%nat.
Proof.
  unfold total. revert i j.
  induction ts as [|x ts IH]; intros [|i] [|j] Hij Hi Hj; simplify_eq/=.
  - pose proof (total_pos f ts j u Hj). unfold total in *. lia.
  - pose proof (total_pos f ts i t Hi). unfold total in *. lia.
  - specialize (IH i j ltac:(lia) Hi Hj). lia.
Qed.

(** While a thread is between [P(&write_m)] and [V(&write_m)] of an
    insert, no other thread is, and no reader is between its [read_cnt++]
    and its [read_cnt--], where [cache_get] runs.  Readers exclude each
    other only between [P(&read_m)] and [V(&read_m)]. *)
Lemma insert_excludes ts schedule s i t j u :
  Forall at_start ts → run (init ts) schedule = Some s →
  threads s !! i = Some t → wr_hold t = 1%nat →
  threads s !! j = Some u → i ≠ j →
  wr_hold u = 0%nat ∧ counted u = 0%nat.
Proof.
  intros Hts Hrun Hi Ht Hj Hij.
  pose proof (run_gate_inv _ _ _ (gate_inv_init ts Hts) Hrun)
    as (_ & Hcnt & Hw).
  pose proof (total_two wr_hold _ _ _ _ _ Hij Hi Hj) as Hww.
  pose proof (total_pos counted _ _ _ Hj) as Hc.
  assert (wr_hold u ≤ 1)%nat
    by (destruct u as [? ? ? pc ?|? ? ? ? ? pc]; simpl; [lia|destruct pc; lia]).
  unfold readers_in in Hw.
  destruct (Z.ltb_spec 0 (read_cnt s)); simpl in Hw; lia.
Qed.

(** While a reader holds its ticket (it is counted in [read_cnt]), no
    thread is inside an insert: the entry that its [cache_get] finds stays
    in the cache until the reader uncounts itself. *)
Lemma ticket_excludes_insert ts schedule s i t j u :
  Forall at_start ts → run (init ts) schedule = Some s →
  threads s !! i = Some t → counted t = 1%nat →
  threads s !! j = Some u → wr_hold u = 0%nat.
Proof.
  intros Hts Hrun Hi Ht Hj.
  destruct (decide (i = j)) as [->|Hij].
  { rewrite Hi in Hj. injection Hj as <-.
    destruct t as [? ? ? pc ?|? ? ? ? ? pc]; [done|]. simpl in Ht. lia. }
  destruct u as [? ? ? pc ?|ws f p d ds pc]; [done|].
  destruct (wr_hold (Writer ws f p d ds pc)) as [|[|n]] eqn:E; [done| |].
  - destruct (insert_excludes ts schedule s j _ i t Hts Hrun Hj E Hi
                ltac:(congruence)) as [_ Hc]. lia.
  - destruct pc; simpl in E; lia.
Qed.

Lemma ticket_excludes_insert_witness :
  let ts := [Reader (site 0) "index.html" 80 R_P1 None;
             Writer (site 1) "index.html" 80 [x31] 1 W_P] in
  let t := Reader (site 0) "index.html" 80 R_get None in
  let u := Writer (site 1) "index.html" 80 [x31] 1 W_P in
  ∃ s,
    Forall at_start ts ∧
    run (init ts) [0; 0; 0; 0]%nat = Some s ∧
    threads s !! 0%nat = Some t ∧ counted t = 1%nat ∧
    threads s !! 1%nat = Some u ∧ wr_hold u = 0%nat.
Proof.
  intros ts t u. eexists.
  assert (Forall at_start ts) as H1 by (repeat constructor).
  split; [exact H1|].
  split; [vm_compute; reflexivity|].
  split; [reflexivity|]. split; [reflexivity|]. split; [reflexivity|].
  exact (ticket_excludes_insert ts [0; 0; 0; 0]%nat _ 0 t 1 u H1
           eq_refl eq_refl eq_refl eq_refl).
Defined.

(** Two lookups at once: both readers of a two-reader system stand before
    their [cache_get], each counted, with [write_m] taken once. *)
Example two_readers_inside :
  let ts := [Reader (site 0) "index.html" 80 R_P1 None;
             Reader (site 1) "index.html" 80 R_P1 None] in
  (λ s, (read_cnt s, write_m s, read_m s, threads s))
    <$> run (init ts) [0; 0; 0; 0; 1; 1; 1; 1]%nat
  = Some (2, 0%nat, 1%nat,
          [Reader (site 0) "index.html" 80 R_get None;
           Reader (site 1) "index.html" 80 R_get None]).
Proof. vm_compute. reflexivity. Qed.

(** *** The buffers behind the entries *)

(** [evict_bufs] is the loop of [cache_insert] on the cache. *)
Lemma evict_bufs_evict_loop dataSize n : ∀ V size bufs freed,
  (λ r, (r.1.1.1, r.1.1.2)) <$> evict_bufs n V size dataSize bufs freed
  = evict_loop n V size dataSize.
Proof.
  induction n as [|n IH]; intros V size bufs freed; simpl;
    destruct (size + dataSize >? MAX_CACHE_SIZE); try done.
  unfold vector_evict_LRU.
  destruct (0 <? vsize V); [|by destruct (vector_find_LRU V)].
  destruct (vector_find_LRU V) as [index|]; [|done].
  destruct (vector_pop V (Z.of_nat index)) as [V'|]; [|done].
  apply IH.
Qed.

(** [hit_index] is the slot of the entry that [vector_get] returns. *)
Lemma hit_index_spec website file port l :
  match hit_index l website file port with
  | Some i =>
      ∃ w, l !! i = Some w ∧ web_data_equals w website file port = true ∧
           Forall (λ w', web_data_equals w' website file port = false)
             (take i l)
  | None => Forall (λ w', web_data_equals w' website file port = false) l
  end.
Proof.
  induction l as [|x l IH]; simpl; [done|].
  destruct (web_data_equals x website file port) eqn:E.
  - exists x. by repeat split.
  - destruct (hit_index l website file port) as [i|]; simpl.
    + destruct IH as (w & Hw & Hm & Hb). exists w.
      repeat split; try done. by constructor.
    + by constructor.
Qed.

Lemma scenario_outcome :
  match run (init workers) schedule with
  | Some s => Some (faults s, threads s !! 10%nat,
                    bool_decide (1%nat ∈ freed s))
  | None => None
  end
  = Some ([10%nat],
          Some (Reader (site 0) "index.html" 80 R_done
                  (Some (1%nat, MAX_OBJECT_SIZE))),
          true).
Proof. vm_compute. reflexivity. Qed.

(** C9, on the code: the reader of site 0 leaves [retrieve_cache] with the
    address of the cached bytes; ten later inserts evict, the last of them
    that very entry, whose buffer [web_data_free] releases; the reader then
    sends the bytes of a released buffer. *)
Theorem reader_uses_released_buffer :
  ∃ s, run (init workers) schedule = Some s ∧
       faults s = [10%nat] ∧
       threads s !! 10%nat
         = Some (Reader (site 0) "index.html" 80 R_done
                   (Some (1%nat, MAX_OBJECT_SIZE))) ∧
       1%nat ∈ freed s.
Proof.
  pose proof scenario_outcome as H.
  destruct (run (init workers) schedule) as [s|]; [|discriminate].
  exists s. injection H as H1 H2 H3.
  split; [reflexivity|]. split; [exact H1|]. split; [exact H2|].
  by apply bool_decide_eq_true in H3.
Qed.

End GateProps.

Module CsimProps.
Import Csim.

(** *** The counters *)

Lemma line_counts s E b st l :
  let st' := simulate_line s E b st l in
  hits st' + misses st' - (hits st + misses st)
    = Z.of_nat (length (data_lines [l])) + Z.of_nat (length (modify_lines [l])) ∧
  0 ≤ evictions st' - evictions st ≤ misses st' - misses st ∧
  misses st' - misses st ≤ Z.of_nat (length (data_lines [l])) ∧
  curTime st' - curTime st = Z.of_nat (length (data_lines [l])).
Proof.
  unfold simulate_line, data_lines, modify_lines. cbn [List.filter].
  destruct (Ascii.eqb_spec (op l) "I") as [HI|HI].
  - rewrite HI. simpl. lia.
  - destruct (search _ _ _ _ _) as [tagIdx|];
      cbn [hits misses evictions curTime];
      destruct (Ascii.eqb (op l) "M"); try destruct (negb (_ =? _));
      simpl; lia.
Qed.

Lemma filter_length_snoc {A} (f : A → bool) l x :
  Z.of_nat (length (List.filter f (l ++ [x])))
  = Z.of_nat (length (List.filter f l))
    + Z.of_nat (length (List.filter f [x])).
Proof. rewrite List.filter_app, length_app. lia. Qed.

Lemma run_counts s E b trace : ∀ st,
  let st' := foldl (simulate_line s E b) st trace in
  hits st' + misses st' - (hits st + misses st)
    = Z.of_nat (length (data_lines trace))
      + Z.of_nat (length (modify_lines trace)) ∧
  0 ≤ evictions st' - evictions st ≤ misses st' - misses st ∧
  misses st' - misses st ≤ Z.of_nat (length (data_lines trace)) ∧
  curTime st' - curTime st = Z.of_nat (length (data_lines trace)).
Proof.
  induction trace as [|l trace IH] using rev_ind; intros st; cbv zeta.
  - unfold data_lines, modify_lines. simpl. lia.
  - rewrite foldl_app. cbn [foldl].
    specialize (IH st). cbv zeta in IH.
    pose proof (line_counts s E b (foldl (simulate_line s E b) st trace) l)
      as Hl. cbv zeta in Hl.
    unfold data_lines, modify_lines in *.
    rewrite !filter_length_snoc. lia.
Qed.

(** What [printSummary] is given adds up: every line that is not an
    instruction load is a hit or a miss, every [M] line is one more hit,
    and no more evictions are counted than misses. *)
Theorem counts_add_up s E b junk trace :
  let '(h, m, e) := simulate s E b junk trace in
  h + m = Z.of_nat (length (data_lines trace))
          + Z.of_nat (length (modify_lines trace)) ∧
  0 ≤ e ≤ m ∧ m ≤ Z.of_nat (length (data_lines trace)).
Proof.
  unfold simulate, summary.
  pose proof (run_counts s E b trace (start s E junk)) as H.
  simpl in H. lia.
Qed.

Lemma find_lru_spec stamps n : ∀ i lruIdx,
  (lruIdx ≤ i)%nat →
  let k := find_lru n i lruIdx stamps in
  (k < i + n ∨ k = lruIdx)%nat ∧ (i ≤ k ∨ k = lruIdx)%nat ∧
  at_index stamps k ≤ at_index stamps lruIdx ∧
  (∀ j, (i ≤ j < i + n)%nat → at_index stamps k ≤ at_index stamps j) ∧
  (∀ j, (k < j < i + n)%nat → (i ≤ j)%nat →
        at_index stamps k < at_index stamps j).
Proof.
  induction n as [|n IH]; intros i lruIdx Hle; cbn [find_lru]; cbv zeta.
  - split_and!; try lia; intros; lia.
  - destruct (Z.leb_spec (at_index stamps i) (at_index stamps lruIdx)) as [H|H].
    + destruct (IH (S i) i ltac:(lia)) as (H1 & H3 & H4 & H5 & H6).
      split_and!; try lia.
      * intros j Hj. destruct (decide (j = i)) as [->|]; [done|].
        apply H5. lia.
      * intros j Hj Hij. destruct (decide (j = i)) as [->|]; [lia|].
        apply H6; lia.
    + destruct (IH (S i) lruIdx ltac:(lia)) as (H1 & H3 & H4 & H5 & H6).
      split_and!; try lia.
      * intros j Hj. destruct (decide (j = i)) as [->|]; [lia|].
        apply H5. lia.
      * intros j Hj Hij. destruct (decide (j = i)) as [->|].
        -- destruct H3 as [H3|H3]; [lia|]. rewrite H3. lia.
        -- apply H6; lia.
Qed.

(** The line that a miss replaces has the smallest stamp of its set, and
    it is the last line with that stamp. *)
Theorem lru_line_is_least_recent E stamps :
  (0 < E)%nat →
  let k := find_lru E 0 0 stamps in
  (k < E)%nat ∧
  (∀ j, (j < E)%nat → at_index stamps k ≤ at_index stamps j) ∧
  (∀ j, (k < j < E)%nat → at_index stamps k < at_index stamps j).
Proof.
  intros HE. destruct (find_lru_spec stamps E 0 0 ltac:(lia))
    as (H1 & _ & _ & H5 & H6).
  split_and!; [lia| |].
  - intros j Hj. apply H5. lia.
  - intros j Hj. apply H6; lia.
Qed.

Lemma lru_line_is_least_recent_witness :
  (0 < 3)%nat ∧
  let k := find_lru 3 0 0 [5; 2; 2] in
  (k < 3)%nat ∧
  (∀ j, (j < 3)%nat → at_index [5; 2; 2] k ≤ at_index [5; 2; 2] j) ∧
  (∀ j, (k < j < 3)%nat → at_index [5; 2; 2] k < at_index [5; 2; 2] j).
Proof.
  assert (0 < 3)%nat as H by lia. split; [exact H|].
  exact (lru_line_is_least_recent 3 [5; 2; 2] H).
Defined.

Example yi_trace_summary :
  simulate 4 1 4 (replicate 16 [0]) yi_trace = (4, 5, 3).
Proof. reflexivity. Qed.

(** *** Uninitialised tags *)

Lemma row_set_line rows k i v k' :
  default [] (set_line rows k i v !! k')
  = if decide (k' = Z.to_nat k) then <[i:=v]> (default [] (rows !! k'))
    else default [] (rows !! k').
Proof.
  unfold set_line. case_decide as Hk.
  - subst k'. destruct (rows !! Z.to_nat k) as [row|] eqn:E.
    + rewrite list_lookup_insert_eq by (by eapply lookup_lt_Some). done.
    + rewrite list_insert_ge by (by apply lookup_ge_None). by rewrite E.
  - by rewrite list_lookup_insert_ne.
Qed.

Lemma at_index_insert l i v j :
  at_index (<[i:=v]> l) j
  = if decide (j = i ∧ (i < length l)%nat) then v else at_index l j.
Proof.
  unfold at_index. case_decide as H.
  - destruct H as [-> H]. by rewrite list_lookup_insert_eq.
  - destruct (decide (j = i)) as [->|Hne].
    + rewrite list_insert_ge by lia. done.
    + by rewrite list_lookup_insert_ne.
Qed.

Lemma search_agree stamps t1 t2 tag n : ∀ i,
  (∀ j, at_index stamps j ≠ 0 → at_index t1 j = at_index t2 j) →
  search n i t1 stamps tag = search n i t2 stamps tag.
Proof.
  induction n as [|n IH]; intros i H; simpl; [done|].
  destruct (Z.eqb_spec (at_index stamps i) 0) as [E|E]; simpl.
  - by apply IH.
  - rewrite (H i E). destruct (_ =? _); [done|by apply IH].
Qed.

Lemma search_some stamps tags tag n : ∀ i k,
  search n i tags stamps tag = Some k →
  (i ≤ k < i + n)%nat ∧ at_index stamps k ≠ 0 ∧ at_index tags k = tag.
Proof.
  induction n as [|n IH]; intros i k; simpl; [done|].
  destruct (Z.eqb_spec (at_index stamps i) 0) as [E|E]; simpl.
  - intros H. apply IH in H. split_and!; try tauto; lia.
  - destruct (Z.eqb_spec (at_index tags i) tag) as [E'|E'].
    + intros [= <-]. split_and!; try done; lia.
    + intros H. apply IH in H. split_and!; try tauto; lia.
Qed.

Lemma search_finds stamps tags tag n : ∀ i j,
  (i ≤ j < i + n)%nat → at_index stamps j ≠ 0 → at_index tags j = tag →
  is_Some (search n i tags stamps tag).
Proof.
  induction n as [|n IH]; intros i j Hj Hs Ht; simpl; [lia|].
  destruct (negb _ && _) eqn:E; [done|].
  apply (IH (S i) j); try done.
  destruct (decide (j = i)) as [->|]; [|lia].
  rewrite Ht, Z.eqb_refl, andb_true_r in E.
  apply negb_false_iff, Z.eqb_eq in E. done.
Qed.

Lemma line_similar s E b st1 st2 l :
  similar st1 st2 →
  similar (simulate_line s E b st1 l) (simulate_line s E b st2 l).
Proof.
  intros (Hst & Hct & Hsum & Hag). unfold simulate_line.
  destruct (Ascii.eqb (op l) "I"); [done|].
  injection Hsum as Hh Hm He.
  rewrite <- Hst, <- Hct, <- Hh, <- Hm, <- He.
  set (K := setIndex_of s b (address l)).
  set (tag := tag_of s b (address l)).
  set (stamps := default [] (timeStamp st1 !! Z.to_nat K)).
  destruct (Hag (Z.to_nat K)) as [Hlen Htags]. fold stamps in Htags.
  rewrite <- (search_agree stamps _ _ tag E 0%nat Htags).
  destruct (search E 0 _ stamps tag) as [tagIdx|] eqn:Hs.
  - unfold similar, agree, summary.
    cbn [cacheTag timeStamp curTime hits misses evictions].
    split_and!; try done. intros k. destruct (Hag k) as [Hl Ht].
    split; [done|]. intros i. rewrite row_set_line.
    case_decide as Hk; [|by apply Ht]. subst k.
    rewrite at_index_insert. case_decide as Hi; [|by apply Ht].
    destruct Hi as [-> _]. intros _. apply Ht.
    by apply search_some in Hs as (_ & Hs & _).
  - unfold similar, agree, summary.
    cbn [cacheTag timeStamp curTime hits misses evictions].
    split_and!; try done. intros k. destruct (Hag k) as [Hl Ht].
    rewrite !row_set_line. case_decide as Hk; [|done]. subst k.
    rewrite !length_insert. split; [done|]. intros i.
    rewrite !at_index_insert. fold stamps. rewrite <- Hl.
    intros Hnz. repeat case_decide; try done; try tauto.
    + destruct_and!. subst i. unfold at_index.
      rewrite !(proj2 (lookup_ge_None _ _)); [done|lia..].
    + apply Ht. done.
Qed.

Lemma run_similar s E b trace : ∀ st1 st2,
  similar st1 st2 →
  similar (foldl (simulate_line s E b) st1 trace)
    (foldl (simulate_line s E b) st2 trace).
Proof.
  induction trace as [|l trace IH]; intros st1 st2 H; simpl; [done|].
  apply IH. by apply line_similar.
Qed.

(** What the rows of [cacheTag] hold before the first line is never
    read: a tag is compared only where the stamp is not zero, so the
    summary is the same whatever [xmalloc] returned. *)
Theorem junk_is_never_read s E b junk1 junk2 trace :
  Forall2 (λ r1 r2, length r1 = length r2) junk1 junk2 →
  simulate s E b junk1 trace = simulate s E b junk2 trace.
Proof.
  intros Hshape. unfold simulate.
  apply (run_similar s E b trace (start s E junk1) (start s E junk2)).
  split_and!; try done. intros k. simpl. split.
  - destruct (junk1 !! k) as [r1|] eqn:E1.
    + destruct (Forall2_lookup_l _ _ _ _ _ Hshape E1) as (r2 & -> & Hl). done.
    + apply lookup_ge_None in E1.
      rewrite (proj2 (lookup_ge_None junk2 k)); [done|].
      by rewrite <- (Forall2_length _ _ _ Hshape).
  - intros i Hi. exfalso. apply Hi. unfold at_index.
    destruct (replicate _ _ !! k) as [row|] eqn:Er; [|done].
    apply lookup_replicate in Er as [-> _]. simpl.
    destruct (replicate E 0 !! i) as [v|] eqn:Ev; [|done].
    by apply lookup_replicate in Ev as [-> _].
Qed.

Lemma junk_is_never_read_witness :
  Forall2 (λ r1 r2 : list Z, length r1 = length r2)
    (replicate 16 [0x20]) (replicate 16 [0]) ∧
  simulate 4 1 4 (replicate 16 [0x20]) yi_trace
  = simulate 4 1 4 (replicate 16 [0]) yi_trace.
Proof.
  assert (Forall2 (λ r1 r2 : list Z, length r1 = length r2)
            (replicate 16 [0x20]) (replicate 16 [0])) as H
    by (repeat constructor).
  split; [exact H|]. exact (junk_is_never_read 4 1 4 _ _ yi_trace H).
Defined.

(** *** Locality *)

Lemma mask_ones i : 0 ≤ i < 64 → mask i = Z.ones i.
Proof.
  intros Hi. unfold mask, Mm.wrap64. rewrite Z.shiftl_1_l, Z.ones_equiv.
  unfold Z.pred. apply Z.mod_small.
  assert (0 < 2 ^ i) by (apply Z.pow_pos_nonneg; lia).
  assert (2 ^ i < 2 ^ 64) by (apply Z.pow_lt_mono_r; lia). lia.
Qed.

Lemma setIndex_range s b a :
  0 ≤ s < 64 → 0 ≤ setIndex_of s b a < Z.shiftl 1 s.
Proof.
  intros Hs. unfold setIndex_of. rewrite mask_ones, Z.land_ones by lia.
  rewrite Z.shiftl_1_l. apply Z.mod_pos_bound. apply Z.pow_pos_nonneg; lia.
Qed.

Lemma shaped_row s E rows k :
  shaped s E rows → 0 ≤ k < Z.shiftl 1 s →
  length (default [] (rows !! Z.to_nat k)) = E.
Proof.
  intros [Hlen Hrows] Hk.
  destruct (lookup_lt_is_Some_2 rows (Z.to_nat k)) as [row Hrow]; [lia|].
  rewrite Hrow. simpl.
  apply (proj1 (Forall_forall _ _) Hrows). by eapply list_elem_of_lookup_2.
Qed.

(** After a line of the trace that is not an instruction load, some line
    of its set holds its tag with a stamp that is not zero. *)
Lemma line_is_cached s E b st l :
  0 ≤ s < 64 → (0 < E)%nat →
  shaped s E (cacheTag st) → shaped s E (timeStamp st) →
  curTime st ≠ 0 →
  Ascii.eqb (op l) "I" = false →
  let st1 := simulate_line s E b st l in
  let K := Z.to_nat (setIndex_of s b (address l)) in
  ∃ j, (j < E)%nat ∧
    at_index (default [] (timeStamp st1 !! K)) j ≠ 0 ∧
    at_index (default [] (cacheTag st1 !! K)) j = tag_of s b (address l).
Proof.
  intros Hs HE Htags Hstamps Hct HI. cbv zeta. unfold simulate_line.
  rewrite HI.
  pose proof (setIndex_range s b (address l) Hs) as HK.
  pose proof (shaped_row s E _ _ Htags HK) as Hlt.
  pose proof (shaped_row s E _ _ Hstamps HK) as Hls.
  set (K := setIndex_of s b (address l)) in *.
  set (tag := tag_of s b (address l)).
  destruct (search E 0 _ _ tag) as [tagIdx|] eqn:Hsearch;
    cbn [cacheTag timeStamp].
  - apply search_some in Hsearch as (Hidx & _ & Htag).
    exists tagIdx. rewrite row_set_line, decide_True by done.
    rewrite at_index_insert, decide_True by (split; [done|lia]).
    split_and!; [lia|done|done].
  - pose proof (find_lru_spec (default [] (timeStamp st !! Z.to_nat K))
                  E 0 0 ltac:(lia)) as (Hidx & _).
    set (lruIdx := find_lru _ _ _ _) in *.
    exists lruIdx. rewrite !row_set_line, !decide_True by done.
    rewrite !at_index_insert, !decide_True by (split; [done|lia]).
    split_and!; [lia|done|done].
Qed.

Lemma same_block s b a a' :
  0 ≤ s → 0 ≤ b → Z.shiftr a b = Z.shiftr a' b →
  setIndex_of s b a = setIndex_of s b a' ∧ tag_of s b a = tag_of s b a'.
Proof.
  intros Hs Hb H. unfold setIndex_of, tag_of.
  rewrite <- !Z.shiftr_shiftr by lia. by rewrite H.
Qed.

Lemma tag_is_shift s b a :
  0 ≤ s → 0 ≤ b → b + s < 64 → 0 ≤ a < 2 ^ 64 →
  tag_of s b a = Z.shiftr a (b + s).
Proof.
  intros Hs Hb Hbs Ha. unfold tag_of.
  destruct (decide (b + s = 0)) as [E|E].
  - assert (b = 0 ∧ s = 0) as [-> ->] by lia.
    change (mask (64 - 0 - 0)) with (Z.ones 64).
    rewrite Z.land_ones by lia. change (0 + 0) with 0.
    rewrite Z.shiftr_0_r. by apply Z.mod_small.
  - rewrite mask_ones, Z.land_ones by lia.
    apply Z.mod_small. rewrite Z.shiftr_div_pow2 by lia. split.
    + apply Z.div_pos; [lia|]. apply Z.pow_pos_nonneg; lia.
    + apply Z.div_lt_upper_bound; [apply Z.pow_pos_nonneg; lia|].
      rewrite <- Z.pow_add_r by lia.
      replace (b + s + (64 - b - s)) with 64 by lia. lia.
Qed.

(** An access to the block that the line before accessed is a hit.  The
    shifts are those of the program: [b + s < 64] and the addresses are
    [unsigned long long]s, so that the tag is the address without its
    [b + s] low bits. *)
Theorem same_block_hits s E b st l l' :
  0 ≤ s → 0 ≤ b → b + s < 64 → (0 < E)%nat →
  0 ≤ address l < 2 ^ 64 → 0 ≤ address l' < 2 ^ 64 →
  shaped s E (cacheTag st) → shaped s E (timeStamp st) →
  curTime st ≠ 0 →
  Ascii.eqb (op l) "I" = false → Ascii.eqb (op l') "I" = false →
  Z.shiftr (address l) b = Z.shiftr (address l') b →
  let st1 := simulate_line s E b st l in
  let st2 := simulate_line s E b st1 l' in
  misses st2 = misses st1 ∧ evictions st2 = evictions st1 ∧
  hits st2 = hits st1 + (if Ascii.eqb (op l') "M" then 2 else 1) ∧
  tag_of s b (address l') = Z.shiftr (address l) (b + s).
Proof.
  intros Hs Hb Hbs HE Ha Ha' Htags Hstamps Hct HI HI' Hblock. cbv zeta.
  destruct (line_is_cached s E b st l ltac:(lia) HE Htags Hstamps Hct HI)
    as (j & Hj & Hstamp & Htag).
  destruct (same_block s b _ _ Hs Hb Hblock) as [HK Ht].
  pose proof (tag_is_shift s b (address l) Hs Hb Hbs Ha) as Hshift.
  set (st1 := simulate_line s E b st l) in *.
  unfold simulate_line at 1 2 3. rewrite HI', <- HK, <- Ht.
  destruct (search_finds _ _ _ E 0%nat j ltac:(lia) Hstamp Htag) as [k ->].
  cbn [misses hits evictions].
  destruct (Ascii.eqb (op l') "M"); split_and!; try done; lia.
Qed.

Lemma same_block_hits_witness :
  let st := start 4 1 (replicate 16 [0]) in
  let l := mk_access "L" 0x10 1 in
  let l' := mk_access "M" 0x1f 1 in
  0 ≤ 4 ∧ 0 ≤ 4 ∧ 4 + 4 < 64 ∧ (0 < 1)%nat ∧
  0 ≤ address l < 2 ^ 64 ∧ 0 ≤ address l' < 2 ^ 64 ∧
  shaped 4 1 (cacheTag st) ∧ shaped 4 1 (timeStamp st) ∧
  curTime st ≠ 0 ∧
  Ascii.eqb (op l) "I" = false ∧ Ascii.eqb (op l') "I" = false ∧
  Z.shiftr (address l) 4 = Z.shiftr (address l') 4 ∧
  let st1 := simulate_line 4 1 4 st l in
  let st2 := simulate_line 4 1 4 st1 l' in
  misses st2 = misses st1 ∧ evictions st2 = evictions st1 ∧
  hits st2 = hits st1 + (if Ascii.eqb (op l') "M" then 2 else 1) ∧
  tag_of 4 4 (address l') = Z.shiftr (address l) (4 + 4).
Proof.
  intros st l l'.
  assert (0 ≤ 4) as H1 by lia. assert (4 + 4 < 64) as H2 by lia.
  assert (0 < 1)%nat as H3 by lia.
  assert (0 ≤ address l < 2 ^ 64) as Ha by (simpl; lia).
  assert (0 ≤ address l' < 2 ^ 64) as Ha' by (simpl; lia).
  assert (shaped 4 1 (cacheTag st)) as H4
    by (split; [reflexivity|repeat constructor]).
  assert (shaped 4 1 (timeStamp st)) as H5
    by (split; [reflexivity|repeat constructor]).
  assert (curTime st ≠ 0) as H6 by (simpl; lia).
  assert (Z.shiftr (address l) 4 = Z.shiftr (address l') 4) as H9
    by reflexivity.
  split; [exact H1|]. split; [exact H1|]. split; [exact H2|].
  split; [exact H3|]. split; [exact Ha|]. split; [exact Ha'|].
  split; [exact H4|]. split; [exact H5|]. split; [exact H6|].
  split; [reflexivity|]. split; [reflexivity|]. split; [exact H9|].
  exact (same_block_hits 4 1 4 st l l' H1 H1 H2 H3 Ha Ha' H4 H5 H6 eq_refl
           eq_refl H9).
Defined.

(** *** Evictions *)

(** An eviction is counted only on a miss in a set without an empty
    line: every stamp of the set is then other than zero.  (Stamps are
    unsigned.) *)
Theorem eviction_means_full_set s E b st l :
  Forall (Forall (λ v, 0 ≤ v)) (timeStamp st) →
  evictions (simulate_line s E b st l) ≠ evictions st →
  misses (simulate_line s E b st l) = misses st + 1 ∧
  ∀ j, (j < E)%nat →
    at_index
      (default [] (timeStamp st !! Z.to_nat (setIndex_of s b (address l)))) j
    ≠ 0.
Proof.
  intros Hpos. unfold simulate_line.
  destruct (Ascii.eqb (op l) "I"); [done|].
  set (stamps := default [] (timeStamp st !! _)).
  destruct (search E 0 _ stamps _); cbn [evictions misses]; [done|].
  destruct (Z.eqb_spec (at_index stamps (find_lru E 0 0 stamps)) 0) as [|Hnz];
    cbn [negb]; [done|].
  intros _. split; [done|]. intros j Hj.
  pose proof (find_lru_spec stamps E 0 0 ltac:(lia)) as (_ & _ & _ & Hmin & _).
  specialize (Hmin j ltac:(lia)).
  assert (∀ i, 0 ≤ at_index stamps i) as Hge.
  { intros i. unfold at_index, stamps.
    destruct (timeStamp st !! _) as [row|] eqn:Er; simpl.
    - pose proof (proj1 (Forall_forall _ _) Hpos row
                    (list_elem_of_lookup_2 _ _ _ Er)) as Hrow.
      destruct (row !! i) as [v|] eqn:Ev; simpl; [|lia].
      apply (proj1 (Forall_forall _ _) Hrow v).
      by eapply list_elem_of_lookup_2.
    - done. }
  pose proof (Hge (find_lru E 0 0 stamps)). lia.
Qed.

Lemma eviction_means_full_set_witness :
  let st := simulate_line 4 1 4 (start 4 1 (replicate 16 [0]))
              (mk_access "L" 0x10 1) in
  let l := mk_access "L" 0x110 1 in
  Forall (Forall (λ v, 0 ≤ v)) (timeStamp st) ∧
  evictions (simulate_line 4 1 4 st l) ≠ evictions st ∧
  misses (simulate_line 4 1 4 st l) = misses st + 1 ∧
  ∀ j, (j < 1)%nat →
    at_index
      (default [] (timeStamp st !! Z.to_nat (setIndex_of 4 4 (address l)))) j
    ≠ 0.
Proof.
  intros st l.
  assert (Forall (Forall (λ v, 0 ≤ v)) (timeStamp st)) as H1
    by (repeat constructor; discriminate).
  assert (evictions (simulate_line 4 1 4 st l) ≠ evictions st) as H2
    by discriminate.
  split; [exact H1|]. split; [exact H2|].
  exact (eviction_means_full_set 4 1 4 st l H1 H2).
Defined.

End CsimProps.
